(** * Uniswap helper scripts: pool locator, quote selector, HTTP surface

    A shallow embedding of the JavaScript sources
    ([get_pool_address.js], [app.js], [d_swap_from_mapping.js]) and of the
    parts of the ethers v5 client library they call, followed by the
    properties of the specification that were checked against it.

    Conventions of the embedding:
    - a JS string is a [list ascii] (the sources only ever inspect ASCII
      text: hex digits, token symbols, decimal amounts);
    - a [Uint8Array] is a [list byte];
    - a [BigNumber] is a [Z]; a 64-bit Keccak lane is an [N] kept below 2^64;
    - a JS exception is the [Err] branch of [result];
    - remote calls, console output and the clock are the events of a
      small free monad [prog], run against an arbitrary node; an HTTP
      handler returns its response. *)

From Stdlib.Strings Require Import String Ascii Byte.
From Stdlib Require Import ZArith NArith Bool Lia List DecimalString.
From Stdlib Require Import SpecFloat.
Import ListNotations.

Set Implicit Arguments.

(** ** JavaScript strings *)

Module Js.

Definition jsstring := list ascii.

(** String literals of the sources. *)
Definition str (s : string) : jsstring := list_ascii_of_string s.

Definition code (c : ascii) : N := N_of_ascii c.

Definition is_upper (c : ascii) : bool := ((65 <=? code c) && (code c <=? 90))%N.
Definition is_lower (c : ascii) : bool := ((97 <=? code c) && (code c <=? 122))%N.
Definition is_digit (c : ascii) : bool := ((48 <=? code c) && (code c <=? 57))%N.

Definition lower_char (c : ascii) : ascii :=
  if is_upper c then ascii_of_N (code c + 32) else c.
Definition upper_char (c : ascii) : ascii :=
  if is_lower c then ascii_of_N (code c - 32) else c.

(** [String.prototype.toLowerCase] / [toUpperCase] on ASCII text. *)
Definition toLowerCase (s : jsstring) : jsstring := map lower_char s.
Definition toUpperCase (s : jsstring) : jsstring := map upper_char s.

(** [===] on strings. *)
Fixpoint eqb (s t : jsstring) : bool :=
  match s, t with
  | [], [] => true
  | c :: s', d :: t' => Ascii.eqb c d && eqb s' t'
  | _, _ => false
  end.

(** [<] on strings: lexicographic on code units, a proper prefix is
    smaller. *)
Fixpoint ltb (s t : jsstring) : bool :=
  match s, t with
  | _, [] => false
  | [], _ :: _ => true
  | c :: s', d :: t' =>
      if (code c <? code d)%N then true
      else if (code d <? code c)%N then false
      else ltb s' t'
  end.

(** [s.slice(-n)]: the last [n] code units (the whole string when it is
    shorter). *)
Definition slice_last (n : nat) (s : jsstring) : jsstring :=
  skipn (length s - n) s.

End Js.

Import Js.

(** ** Results and exceptions *)

(** The exceptions the sources and the library raise: a kind, named after
    the taxonomy of the specification where it has one, and the [message]
    of the JS [Error].  For an error of the ethers library the message is
    its [reason] ("invalid address", "underflow", ...), without the
    argument dump the library appends. *)
Inductive error_kind : Type :=
| InvalidAddress        (* ethers INVALID_ARGUMENT on an "address" argument *)
| InvalidArgument       (* any other ethers INVALID_ARGUMENT *)
| NumericFault          (* ethers NUMERIC_FAULT *)
| TokenNotFound         (* thrown by findTokenAddress *)
| NoLiquidityAvailable  (* thrown by getBestQuote *)
| RemoteCallError       (* the node rejected or reverted a call *)
| TypeError             (* a method call on a value of the wrong type *)
| PlainError.           (* any other new Error(message) of a script *)

Record error : Type := mkError { kind : error_kind; message : jsstring }.

Inductive result (A : Type) : Type :=
| Ok (a : A)
| Err (e : error).
Arguments Ok {A} a.
Arguments Err {A} e.

Definition throw {A} (k : error_kind) (msg : string) : result A :=
  Err (mkError k (str msg)).

Definition bind_result {A B} (r : result A) (k : A -> result B) : result B :=
  match r with
  | Ok a => k a
  | Err e => Err e
  end.

Declare Scope result_scope.
Delimit Scope result_scope with result.
Notation "x <-? r ;; k" := (bind_result r (fun x => k))
  (at level 61, r at next level, right associativity) : result_scope.
Open Scope result_scope.

(** ** Bytes and hexadecimal strings (@ethersproject/bytes) *)

Module Bytes.

Definition byte_of_N (n : N) : byte :=
  match Byte.of_N (n mod 256) with
  | Some b => b
  | None => x00
  end.

Definition HexCharacters : jsstring := str "0123456789abcdef".

Definition hexdigit (n : N) : ascii := nth (N.to_nat n) HexCharacters "0"%char.

(** Value of one hexadecimal digit, either case. *)
Definition hexval (c : ascii) : option N :=
  let n := code c in
  if ((48 <=? n) && (n <=? 57))%N then Some (n - 48)%N
  else if ((97 <=? n) && (n <=? 102))%N then Some (n - 87)%N
  else if ((65 <=? n) && (n <=? 70))%N then Some (n - 55)%N
  else None.

Definition is_hexchar (c : ascii) : bool :=
  match hexval c with Some _ => true | None => false end.

Definition hex_of_byte (b : byte) : jsstring :=
  [hexdigit (Byte.to_N b / 16); hexdigit (Byte.to_N b mod 16)].

(** The digits of [hexlify], without the prefix. *)
Definition hexdigits (bs : list byte) : jsstring := flat_map hex_of_byte bs.

(** [hexlify(bytes)]: "0x" and two lowercase digits per byte. *)
Definition hexlify (bs : list byte) : jsstring := str "0x" ++ hexdigits bs.

(** Pairs of hexadecimal digits to bytes; [None] on a digit that is not
    hexadecimal or on an odd number of digits. *)
Fixpoint bytes_of_hexdigits (s : jsstring) : option (list byte) :=
  match s with
  | [] => Some []
  | [_] => None
  | h :: l :: rest =>
      match hexval h, hexval l, bytes_of_hexdigits rest with
      | Some a, Some b, Some bs => Some (byte_of_N (16 * a + b) :: bs)
      | _, _, _ => None
      end
  end.

(** [isHexString(value)]: matches /^0x[0-9A-Fa-f]*$/. *)
Definition isHexString (s : jsstring) : bool :=
  match s with
  | "0"%char :: "x"%char :: ds => forallb is_hexchar ds
  | _ => false
  end.

(** [isHexString(value, length)]. *)
Definition isHexStringLen (s : jsstring) (len : nat) : bool :=
  isHexString s && Nat.eqb (length s) (2 + 2 * len).

(** [arrayify(value)] on a string. *)
Definition arrayify (s : jsstring) : result (list byte) :=
  match s with
  | "0"%char :: "x"%char :: ds =>
      if forallb is_hexchar ds then
        match bytes_of_hexdigits ds with
        | Some bs => Ok bs
        | None => throw InvalidArgument "hex data is odd-length"
        end
      else throw InvalidArgument "invalid arrayify value"
  | _ => throw InvalidArgument "invalid arrayify value"
  end.

(** [zeroPad(value, length)]. *)
Definition zeroPad (bs : list byte) (len : nat) : result (list byte) :=
  if Nat.ltb len (length bs) then throw InvalidArgument "value out of range"
  else Ok (repeat x00 (len - length bs) ++ bs).

(** [arrayify(BigNumber)]: the big-endian bytes of a non-negative
    number, as many as [BigNumber.toHexString] has digit pairs: no
    leading zero byte, and the single byte 0 for zero ("0x00"). *)
Definition byte_length (n : N) : nat := S (N.to_nat (N.log2 n / 8)).

Definition be_bytes (n : N) : list byte :=
  let len := byte_length n in
  map (fun i => byte_of_N (N.shiftr n (8 * N.of_nat (len - 1 - i)))) (seq 0 len).

End Bytes.

(** ** Keccak-256 (js-sha3 [keccak_256], as @ethersproject/keccak256 wraps it) *)

Module Keccak.

Definition mask64 : N := N.ones 64.

Definition rotl64 (v n : N) : N :=
  N.lor (N.land (N.shiftl v n) mask64) (N.shiftr v (64 - n)).

Definition not64 (v : N) : N := N.lxor v mask64.

(** The state is 25 lanes; lane (x, y) is at index x + 5 y. *)
Definition state := list N.

Definition lane_at (A : state) (x y : nat) : N := nth (x mod 5 + 5 * y) A 0%N.

Definition rotation_offsets : list N :=
  [ 0; 1; 62; 28; 27;
    36; 44; 6; 55; 20;
    3; 10; 43; 25; 39;
    41; 45; 15; 21; 8;
    18; 2; 61; 56; 14 ]%N.

Definition round_constants : list N :=
  [ 0x0000000000000001; 0x0000000000008082; 0x800000000000808A;
    0x8000000080008000; 0x000000000000808B; 0x0000000080000001;
    0x8000000080008081; 0x8000000000008009; 0x000000000000008A;
    0x0000000000000088; 0x0000000080008009; 0x000000008000000A;
    0x000000008000808B; 0x800000000000008B; 0x8000000000008089;
    0x8000000000008003; 0x8000000000008002; 0x8000000000000080;
    0x000000000000800A; 0x800000008000000A; 0x8000000080008081;
    0x8000000000008080; 0x0000000080000001; 0x8000000080008008 ]%N.

Definition column_parity (A : state) (x : nat) : N :=
  N.lxor (lane_at A x 0)
    (N.lxor (lane_at A x 1)
       (N.lxor (lane_at A x 2) (N.lxor (lane_at A x 3) (lane_at A x 4)))).

Definition theta (A : state) : state :=
  let C := map (column_parity A) (seq 0 5) in
  let D x := N.lxor (nth ((x + 4) mod 5) C 0%N) (rotl64 (nth ((x + 1) mod 5) C 0%N) 1) in
  map (fun i => N.lxor (nth i A 0%N) (D (i mod 5))) (seq 0 25).

(** rho and pi together: lane (X, Y) of the result is the rotated lane
    (x, y) of the argument with x = X + 3 Y mod 5 and y = X. *)
Definition rho_pi (A : state) : state :=
  map (fun i =>
         let X := i mod 5 in
         let Y := i / 5 in
         let src := (X + 3 * Y) mod 5 + 5 * X in
         rotl64 (nth src A 0%N) (nth src rotation_offsets 0%N))
      (seq 0 25).

Definition chi (B : state) : state :=
  map (fun i =>
         let x := i mod 5 in
         let y := i / 5 in
         N.lxor (lane_at B x y)
                (N.land (not64 (lane_at B (x + 1) y)) (lane_at B (x + 2) y)))
      (seq 0 25).

Definition iota (rc : N) (A : state) : state :=
  match A with
  | a :: rest => N.lxor a rc :: rest
  | [] => []
  end.

Definition round (A : state) (rc : N) : state := iota rc (chi (rho_pi (theta A))).

Definition keccak_f (A : state) : state := fold_left round round_constants A.

(** Rate of Keccak-256 in bytes. *)
Definition rate : nat := 136.

(** Multi-rate padding with the original Keccak domain byte 0x01. *)
Definition pad (msg : list byte) : list byte :=
  let q := rate - length msg mod rate in
  if Nat.eqb q 1 then msg ++ [x81]
  else msg ++ [x01] ++ repeat x00 (q - 2) ++ [x80].

(** Little-endian value of up to eight bytes. *)
Definition le_lane (bs : list byte) : N :=
  fold_right (fun b acc => (Byte.to_N b + 256 * acc)%N) 0%N bs.

Definition lane_bytes (v : N) : list byte :=
  map (fun k => Bytes.byte_of_N (N.shiftr v (8 * N.of_nat k))) (seq 0 8).

Definition absorb_block (A : state) (blk : list byte) : state :=
  keccak_f
    (map (fun i =>
            if Nat.ltb i (rate / 8)
            then N.lxor (nth i A 0%N) (le_lane (firstn 8 (skipn (8 * i) blk)))
            else nth i A 0%N)
         (seq 0 25)).

Fixpoint absorb (fuel : nat) (A : state) (p : list byte) : state :=
  match fuel, p with
  | _, [] => A
  | O, _ => A
  | S f, _ => absorb f (absorb_block A (firstn rate p)) (skipn rate p)
  end.

Definition squeeze (A : state) : list byte := flat_map lane_bytes (firstn 4 A).

(** The 32-byte digest. *)
Definition digest (msg : list byte) : list byte :=
  let p := pad msg in
  squeeze (absorb (length p) (repeat 0%N 25) p).

(** [keccak256(data)] of @ethersproject/keccak256: the digest as a hex
    string. *)
Definition keccak256 (msg : list byte) : jsstring := Bytes.hexlify (digest msg).

End Keccak.

Definition ascii_bytes (s : jsstring) : list byte := map byte_of_ascii s.

(** ** Addresses (@ethersproject/address) *)

Module Address.

Import Bytes.

Definition has_0x_prefix (s : jsstring) : bool :=
  match s with
  | "0"%char :: "x"%char :: _ => true
  | _ => false
  end.

(** /^(0x)?[0-9a-fA-F]{40}$/ *)
Definition matches_hex_address (s : jsstring) : bool :=
  let ds := if has_0x_prefix s then skipn 2 s else s in
  Nat.eqb (length ds) 40 && forallb is_hexchar ds.

Definition is_upper_hex (c : ascii) : bool := ((65 <=? code c) && (code c <=? 70))%N.
Definition is_lower_hex (c : ascii) : bool := ((97 <=? code c) && (code c <=? 102))%N.

(** /([A-F].*[a-f])|([a-f].*[A-F])/ on a string without line breaks. *)
Definition has_mixed_case (s : jsstring) : bool :=
  existsb is_upper_hex s && existsb is_lower_hex s.

(** Half-byte [i] of the hash: [hashed[i >> 1] >> 4] for even [i],
    [hashed[i >> 1] & 0x0f] for odd [i]. *)
Definition nibble (hashed : list byte) (i : nat) : N :=
  let b := Byte.to_N (nth (i / 2) hashed x00) in
  if Nat.even i then (b / 16)%N else (b mod 16)%N.

(** The loop of [getChecksumAddress]: the character at position [i] is
    upper-cased when half-byte [i] of the hash is 8 or more. *)
Fixpoint apply_checksum (hashed : list byte) (i : nat) (chars : jsstring) : jsstring :=
  match chars with
  | [] => []
  | c :: rest =>
      (if (8 <=? nibble hashed i)%N then upper_char c else c)
        :: apply_checksum hashed (S i) rest
  end.

Definition checksum_chars (chars : jsstring) : jsstring :=
  apply_checksum (Keccak.digest (ascii_bytes chars)) 0 chars.

Definition getChecksumAddress (address : jsstring) : result jsstring :=
  if isHexStringLen address 20 then
    let chars := skipn 2 (toLowerCase address) in
    Ok (str "0x" ++ checksum_chars chars)
  else throw InvalidAddress "invalid address".

(** /^XE[0-9]{2}[0-9A-Za-z]{30,31}$/ *)
Definition is_alnum (c : ascii) : bool := is_digit c || is_upper c || is_lower c.

Definition matches_icap (s : jsstring) : bool :=
  match s with
  | "X"%char :: "E"%char :: d1 :: d2 :: rest =>
      is_digit d1 && is_digit d2 && forallb is_alnum rest
      && (Nat.eqb (length rest) 30 || Nat.eqb (length rest) 31)
  | _ => false
  end.

(** Value of a base-36 digit, either case. *)
Definition base36_val (c : ascii) : N :=
  if is_digit c then (code c - 48)%N
  else if is_upper c then (code c - 55)%N
  else (code c - 87)%N.

(** The IBAN expansion read as one decimal number: a digit stays, a
    letter becomes its two-digit value 10..35. *)
Definition iban_number (s : jsstring) : N :=
  fold_left (fun acc c =>
               if is_digit c then (10 * acc + (code c - 48))%N
               else (100 * acc + (code c - 55))%N)
            s 0%N.

Definition digit_char (n : N) : ascii := ascii_of_N (48 + n).

(** [ibanChecksum]: 98 minus the expansion modulo 97, on two digits.
    (The library reduces the expansion 15 digits at a time to stay
    within safe integers; the remainder is the same.) *)
Definition ibanChecksum (address : jsstring) : jsstring :=
  let address := toUpperCase address in
  let address := skipn 4 address ++ firstn 2 address ++ str "00" in
  let checksum := (98 - iban_number address mod 97)%N in
  [digit_char (checksum / 10); digit_char (checksum mod 10)].

(** Lowercase hexadecimal digits of a number, without leading zero;
    "0" for zero ([BN.toString(16)]). *)
Definition hex_of_N (n : N) : jsstring :=
  let len := S (N.to_nat (N.log2 n / 4)) in
  map (fun i => hexdigit (N.shiftr n (4 * N.of_nat (len - 1 - i)) mod 16)) (seq 0 len).

Definition base36To16 (value : jsstring) : jsstring :=
  hex_of_N (fold_left (fun acc c => (36 * acc + base36_val c)%N) value 0%N).

Definition getAddress (address : jsstring) : result jsstring :=
  if matches_hex_address address then
    (* Missing the 0x prefix *)
    let address := if has_0x_prefix address then address else str "0x" ++ address in
    result <-? getChecksumAddress address ;;
    (* It is a checksummed address with a bad checksum *)
    if has_mixed_case address && negb (Js.eqb result address)
    then throw InvalidAddress "bad address checksum"
    else Ok result
  else if matches_icap address then
    if negb (Js.eqb (firstn 2 (skipn 2 address)) (ibanChecksum address))
    then throw InvalidAddress "bad icap checksum"
    else
      let result := base36To16 (skipn 4 address) in
      let result := repeat "0"%char (40 - length result) ++ result in
      getChecksumAddress (str "0x" ++ result)
  else throw InvalidAddress "invalid address".

End Address.

(** ** Tightly packed hashing (@ethersproject/solidity) *)

Module Solidity.

Import Bytes.

(** One (type, value) pair of [pack(types, values)], for the Solidity
    types the sources use. *)
Inductive packed_arg : Type :=
| Address (value : jsstring)            (* "address" *)
| BytesDyn (value : jsstring)           (* "bytes" *)
| Uint (bits : nat) (value : Z)         (* "uint<bits>" *)
| BytesN (size : nat) (value : jsstring). (* "bytes<size>" *)

(** bn.js [inotn(width)] on a magnitude kept in words of 26 bits: the
    complete words below [width] are complemented; of the word in which
    [width] ends, the bits below [width] are complemented and the others
    cleared; the words above are left as they are. *)
Definition inotn (m : N) (width : N) : N :=
  let bytesNeeded := ((width + 25) / 26)%N in (* Math.ceil(width / 26) *)
  let bitsLeft := (width mod 26)%N in
  let bytesNeeded := if (0 <? bitsLeft)%N then (bytesNeeded - 1)%N else bytesNeeded in
  (* Handle complete words *)
  let complete :=
    N.lxor (N.land m (N.ones (26 * bytesNeeded))) (N.ones (26 * bytesNeeded)) in
  if (0 <? bitsLeft)%N
  then
    (* Handle the residue *)
    let word := N.land (N.shiftr m (26 * bytesNeeded)) 0x3ffffff in
    let residue :=
      N.land (N.lxor word 0x3ffffff) (N.shiftr 0x3ffffff (26 - bitsLeft)) in
    (complete + N.shiftl residue (26 * bytesNeeded)
     + N.shiftl (N.shiftr m (26 * (bytesNeeded + 1))) (26 * (bytesNeeded + 1)))%N
  else (complete + N.shiftl (N.shiftr m (26 * bytesNeeded)) (26 * bytesNeeded))%N.

(** [BigNumber.toTwos(width)], that is bn.js [toTwos]: for a negative
    number, [abs().inotn(width).iaddn(1)]. *)
Definition toTwos (v : Z) (width : N) : N :=
  if (v <? 0)%Z then (inotn (Z.to_N (- v)) width + 1)%N
  else Z.to_N v.

Definition _pack (a : packed_arg) : result (list byte) :=
  match a with
  | Address value => arrayify value
  | BytesDyn value => arrayify value
  | Uint bits value =>
      if (Nat.eqb (bits mod 8) 0 && negb (Nat.eqb bits 0) && Nat.leb bits 256)%bool
      then
        (* BigNumber.from(value) on a JS number *)
        if (0x1fffffffffffff <=? Z.abs value)%Z then throw NumericFault "overflow"
        else zeroPad (be_bytes (toTwos value (N.of_nat bits))) (bits / 8)
      else throw InvalidArgument "invalid number type"
  | BytesN size value =>
      if (negb (Nat.eqb size 0) && Nat.leb size 32)%bool then
        bs <-? arrayify value ;;
        if Nat.eqb (length bs) size then Ok bs
        else throw InvalidArgument "invalid value for bytes"
      else throw InvalidArgument "invalid bytes type"
  end.

Fixpoint concat_packed (args : list packed_arg) : result (list byte) :=
  match args with
  | [] => Ok []
  | a :: rest =>
      bs <-? _pack a ;;
      tail <-? concat_packed rest ;;
      Ok (bs ++ tail)
  end.

(** [pack(types, values)]: the tight encoding as a hex string. *)
Definition pack (args : list packed_arg) : result jsstring :=
  tight <-? concat_packed args ;;
  Ok (hexlify tight).

(** [keccak256(types, values)]. *)
Definition keccak256 (args : list packed_arg) : result jsstring :=
  packed <-? pack args ;;
  data <-? arrayify packed ;;
  Ok (Keccak.keccak256 data).

End Solidity.

(** ** The pool locator ([get_pool_address.js]) *)

Module PoolLocator.

Import Solidity.

(** Uniswap V3 factory and pool init code hash on Ethereum mainnet *)
Definition FACTORY_ADDRESS : jsstring :=
  str "0x1F98431c8aD98523631AE4a59f267346ea31F984".
Definition POOL_INIT_CODE_HASH : jsstring :=
  str "0xe34f4def8b9951b4b0f4aaf0a3cbe9dc9f7a76bb2fa938612efb8e4e0d4b1d3e".

Definition getPoolAddress (tokenA tokenB : jsstring) (fee : Z) : result jsstring :=
  (* Validate and normalize addresses to checksummed form *)
  addressA <-? Address.getAddress tokenA ;;
  addressB <-? Address.getAddress tokenB ;;
  (* Determine token0 and token1 by lex order *)
  let '(token0, token1) :=
    if Js.ltb (toLowerCase addressA) (toLowerCase addressB)
    then (addressA, addressB)
    else (addressB, addressA) in
  (* Compute salt as keccak256(token0, token1, fee) *)
  salt <-? keccak256 [Address token0; Address token1; Uint 24 fee] ;;
  (* Encode for create2: keccak256(0xff + factory + salt + init_code_hash) *)
  create2Hash <-?
    keccak256 [BytesDyn (str "0xff"); Address FACTORY_ADDRESS;
               BytesN 32 salt; BytesN 32 POOL_INIT_CODE_HASH] ;;
  (* Pool address is the last 20 bytes of create2Hash *)
  Address.getAddress (str "0x" ++ slice_last 40 create2Hash).

(** Example usage of the source. *)
Definition tokenA : jsstring := str "0xC02aaA39b223FE8D0A0e5C4F27eAD9083C756Cc2". (* WETH *)
Definition tokenB : jsstring := str "0x6B175474E89094C44Da98b954EedeAC495271d0F". (* DAI *)
Definition fee : Z := 3000.

Definition poolAddr : result jsstring := getPoolAddress tokenA tokenB fee.

End PoolLocator.

(** ** JavaScript numbers (IEEE 754 binary64) *)

Module JsNumber.

Definition number := spec_float.

Definition prec : Z := 53.
Definition emax : Z := 1024.

(** An integer literal (exact below 2^53). *)
Definition of_Z (z : Z) : number := binary_normalize prec emax z 0 false.

Definition mul : number -> number -> number := SFmul prec emax.
Definition sub : number -> number -> number := SFsub prec emax.
Definition div : number -> number -> number := SFdiv prec emax.

(** The decimal literal [m]e-[k] of a source text, as the double nearest
    to it: the correctly rounded quotient of two exact integers.
    [literal 5 3] is 0.005. *)
Definition literal (m : Z) (k : Z) : number := div (of_Z m) (of_Z (10 ^ k)).

Definition leb : number -> number -> bool := SFleb.

(** [Math.min(a, b)]. *)
Definition min (a b : number) : number :=
  match SFcompare a b with
  | Some Lt => a
  | Some Gt => b
  | Some Eq => match b with S754_zero true => b | _ => a end
  | None => S754_nan
  end.

Definition MAX_SAFE : Z := 0x1fffffffffffff.

(** [BigNumber.from(value)] on a number: a value with a fractional part
    is an "underflow" fault, one outside the safe integers an
    "overflow" fault. *)
Definition to_BigNumber (x : number) : result Z :=
  match x with
  | S754_zero _ => Ok 0%Z
  | S754_nan => throw InvalidArgument "invalid BigNumber string"
  | S754_infinity _ => throw NumericFault "overflow"
  | S754_finite s m e =>
      let mag :=
        match e with
        | Z0 => Some (Zpos m)
        | Zpos p => Some (Zpos m * 2 ^ Zpos p)%Z
        | Zneg p =>
            if (Zpos m mod 2 ^ Zpos p =? 0)%Z then Some (Zpos m / 2 ^ Zpos p)%Z
            else None
        end in
      match mag with
      | None => throw NumericFault "underflow"
      | Some v =>
          if (MAX_SAFE <=? v)%Z then throw NumericFault "overflow"
          else Ok (if s then (- v)%Z else v)
      end
  end.

End JsNumber.

(** ** Decimal amounts (ethers [utils.parseEther], [utils.formatUnits]) *)

Module Units.

(** [String(n)] for an integer. *)
Definition decimal_of_N (n : N) : jsstring :=
  list_ascii_of_string (NilZero.string_of_uint (N.to_uint n)).

Definition decimal_of_Z (z : Z) : jsstring :=
  if (z <? 0)%Z then "-"%char :: decimal_of_N (Z.to_N (- z))
  else decimal_of_N (Z.to_N z).

(** Value of a string of decimal digits. *)
Definition digits_value (s : jsstring) : Z :=
  fold_left (fun acc c => (10 * acc + Z.of_N (code c - 48))%Z) s 0%Z.

(** [s.split(sep)] for a one-character separator. *)
Fixpoint split_on (sep : ascii) (s : jsstring) : list jsstring :=
  match s with
  | [] => [[]]
  | c :: rest =>
      if Ascii.eqb c sep then [] :: split_on sep rest
      else match split_on sep rest with
           | w :: ws => (c :: w) :: ws
           | [] => [[c]]
           end
  end.

(** The [while] loop that trims trailing zeros. *)
Definition trim_trailing_zeros (s : jsstring) : jsstring :=
  fold_right (fun c acc =>
                match acc with
                | [] => if Ascii.eqb c "0" then [] else [c]
                | _ => c :: acc
                end) [] s.

Definition is_amount_char (c : ascii) : bool := is_digit c || Ascii.eqb c ".".

(** /^-?[0-9.]+$/ *)
Definition matches_decimal (s : jsstring) : bool :=
  let body := match s with "-"%char :: r => r | _ => s end in
  negb (Nat.eqb (length body) 0) && forallb is_amount_char body.

Definition parseFixed (value : jsstring) (decimals : nat) : result Z :=
  if negb (matches_decimal value) then throw InvalidArgument "invalid decimal value"
  else
    (* Is it negative? *)
    let negative := match value with "-"%char :: _ => true | _ => false end in
    let value := if negative then skipn 1 value else value in
    if Js.eqb value (str ".") then throw InvalidArgument "missing value"
    else
      (* Split it into a whole and fractional part *)
      let comps := split_on "." value in
      if Nat.ltb 2 (length comps) then throw InvalidArgument "too many decimal points"
      else
        let whole := nth 0 comps [] in
        let fraction := nth 1 comps [] in
        let whole := match whole with [] => str "0" | _ => whole end in
        let fraction := match fraction with [] => str "0" | _ => fraction end in
        (* Trim trailing zeros *)
        let fraction := trim_trailing_zeros fraction in
        (* Check the fraction doesn't exceed our decimals size *)
        if Nat.ltb decimals (length fraction)
        then throw NumericFault "fractional component exceeds decimals"
        else
          (* Fully pad the string with zeros to get to wei *)
          let fraction := fraction ++ repeat "0"%char (decimals - length fraction) in
          let wei := (digits_value whole * 10 ^ Z.of_nat decimals + digits_value fraction)%Z in
          Ok (if negative then (- wei)%Z else wei).

(** [parseEther(ether)] = [parseUnits(ether, 18)]. *)
Definition parseEther (ether : jsstring) : result Z := parseFixed ether 18.

(** [formatFixed(value, decimals)] for [decimals] > 0. *)
Definition formatFixed (value : Z) (decimals : nat) : jsstring :=
  let negative := (value <? 0)%Z in
  let value := Z.abs value in
  let multiplier := (10 ^ Z.of_nat decimals)%Z in
  let fraction := decimal_of_Z (value mod multiplier) in
  let fraction := repeat "0"%char (decimals - length fraction) ++ fraction in
  (* Strip training 0 *)
  let fraction := match trim_trailing_zeros fraction with [] => str "0" | f => f end in
  let whole := decimal_of_Z (value / multiplier) in
  let value := whole ++ "."%char :: fraction in
  if negative then "-"%char :: value else value.

Definition formatUnits (value : Z) (decimals : nat) : jsstring := formatFixed value decimals.
Definition formatEther (value : Z) : jsstring := formatFixed value 18.

(** [String(x)] for an integer-valued number within the safe integers.
    The sources only print such numbers; any other value is left as
    "NaN" here rather than rendered digit by digit. *)
Definition number_text (x : JsNumber.number) : jsstring :=
  match JsNumber.to_BigNumber x with
  | Ok z => decimal_of_Z z
  | Err _ => str "NaN"
  end.

End Units.

(** ** Effects: remote calls, console, clock *)

Module Eff.

(** A program over events [E]: it returns, or issues an event and
    continues with the answer.  Every [await] of the sources is one
    [Vis]; a rejected promise is an [Err] answer. *)
Inductive prog (E : Type -> Type) (R : Type) : Type :=
| Ret (r : R)
| Vis (X : Type) (e : E X) (k : X -> prog E R).
Arguments Ret {E R} r.
Arguments Vis {E R X} e k.

Fixpoint bind {E R S} (p : prog E R) (f : R -> prog E S) : prog E S :=
  match p with
  | Ret r => f r
  | Vis e k => Vis e (fun x => bind (k x) f)
  end.

Definition trigger {E X} (e : E X) : prog E X := Vis e (fun x => Ret x).

(** Sequencing that propagates a thrown exception. *)
Definition bind_throw {E A B} (p : prog E (result A)) (f : A -> prog E (result B))
  : prog E (result B) :=
  bind p (fun r => match r with
                   | Ok a => f a
                   | Err e => Ret (Err e)
                   end).

(** try { p } catch (error) { h error } *)
Definition try_catch {E A} (p : prog E (result A)) (h : error -> prog E A) : prog E A :=
  bind p (fun r => match r with
                   | Ok a => Ret a
                   | Err e => h e
                   end).

End Eff.

Import Eff.

Declare Scope prog_scope.
Delimit Scope prog_scope with prog.
Notation "x <- p ;; k" := (Eff.bind p (fun x => k))
  (at level 61, p at next level, right associativity) : prog_scope.
Notation "x <-! p ;; k" := (Eff.bind_throw p (fun x => k))
  (at level 61, p at next level, right associativity) : prog_scope.
Open Scope prog_scope.

(** ** The node, the wallet and the contracts the sources talk to *)

Module Chain.

(** A transaction response ([tx.hash]) and a receipt. *)
Record tx : Type := mkTx { hash : jsstring }.
Record receipt : Type := mkReceipt { transactionHash : jsstring; blockNumber : Z }.

(** ISwapRouter.ExactInputSingleParams *)
Record swap_params : Type := mkParams {
  tokenIn : jsstring;
  tokenOut : jsstring;
  fee : Z;
  recipient : jsstring;
  deadline : Z;
  amountIn : Z;
  amountOutMinimum : Z;
  sqrtPriceLimitX96 : Z
}.

Inductive stream : Type := Stdout | Stderr.

Inductive rpcE : Type -> Type :=
(* new ethers.Wallet(key, provider): the wallet address, or an invalid key *)
| NewWallet (key : jsstring) : rpcE (result jsstring)
(* quoter.callStatic.quoteExactInputSingle(tokenIn, tokenOut, fee, amountIn, limit) *)
| QuoteExactInputSingle (tokenIn tokenOut : jsstring) (fee amountIn limit : Z)
  : rpcE (result Z)
(* token.balanceOf(owner) *)
| BalanceOf (token owner : jsstring) : rpcE (result Z)
(* token.allowance(owner, spender) *)
| Allowance (token owner spender : jsstring) : rpcE (result Z)
(* token.approve(spender, amount): the transaction is submitted *)
| Approve (token spender : jsstring) (amount : Z) : rpcE (result tx)
(* router.estimateGas.exactInputSingle(params) *)
| EstimateGas (params : swap_params) : rpcE (result Z)
(* router.exactInputSingle(params, { gasLimit, value }): the swap is submitted *)
| ExactInputSingle (params : swap_params) (gasLimit value : Z) : rpcE (result tx)
(* tx.wait(): the transaction is confirmed *)
| Wait (t : tx) : rpcE (result receipt)
(* Math.floor(Date.now() / 1000) *)
| NowSeconds : rpcE Z
(* console.log / console.error *)
| Console (s : stream) (line : jsstring) : rpcE unit.

Definition program := prog rpcE.

(** One issued event with its answer. *)
Inductive event : Type :=
| Event (X : Type) (e : rpcE X) (answer : X).
Arguments Event {X} e answer.

Record outcome (W R : Type) : Type := mkOutcome {
  returned : R;
  world : W;
  trace : list event
}.
Arguments mkOutcome {W R} returned world trace.

(** Running a program against a node: any state [W] and any way [node]
    of answering an event in a state. *)
Section Run.
Variable W : Type.
Variable node : forall X, rpcE X -> W -> X * W.

Fixpoint run {R} (p : program R) (w : W) : outcome W R :=
  match p with
  | Ret r => mkOutcome r w []
  | Vis e k =>
      let (x, w') := node e w in
      let o := run (k x) w' in
      mkOutcome (returned o) (world o) (Event e x :: trace o)
  end.
End Run.

Definition UNISWAP_V3_ROUTER_ADDRESS : jsstring :=
  str "0xE592427A0AEce92De3Edee1F18E0157C05861564".
Definition QUOTER_ADDRESS : jsstring :=
  str "0xb27308f9F90D607463bb33eA1BeBb41C27CE5AB6".
Definition WETH_ADDRESS : jsstring :=
  str "0xC02aaA39b223FE8D0A0e5C4F27eAD9083C756Cc2".

(** ethers.constants.MaxUint256 *)
Definition MaxUint256 : Z := 2 ^ 256 - 1.

Definition log (line : jsstring) : program unit := trigger (Console Stdout line).
Definition log_error (line : jsstring) : program unit := trigger (Console Stderr line).

(** A quote: [{ fee, amountOut }]. *)
Record quote : Type := mkQuote { quote_fee : Z; quote_amountOut : Z }.

(** The token mapping file: the entries of the parsed JSON object in
    the order [Object.entries] yields them (insertion order: the keys
    are addresses, never array indices). *)
Record token_info : Type := mkInfo { name : jsstring; symbol : jsstring }.
Definition token_map := list (jsstring * token_info).

End Chain.

Import Chain.

(** ** Values of a parsed JSON request body *)

Module Json.

(** [JNumber] holds an integer; a fractional JSON number behaves here
    like any non-zero [JNumber] (truthy, and not a string). *)
Inductive jsvalue : Type :=
| JUndefined
| JNull
| JBool (b : bool)
| JNumber (n : Z)
| JString (s : jsstring)
| JObject.

(** [!!v] *)
Definition truthy (v : jsvalue) : bool :=
  match v with
  | JUndefined | JNull => false
  | JBool b => b
  | JNumber n => negb (n =? 0)%Z
  | JString s => negb (Nat.eqb (length s) 0)
  | JObject => true
  end.

(** The receiver of [v.toLowerCase()]. *)
Definition string_receiver (v : jsvalue) : result jsstring :=
  match v with
  | JString s => Ok s
  | _ => throw TypeError "tokenStr.toLowerCase is not a function"
  end.

(** [parseEther(v)]: [parseUnits] insists on a string. *)
Definition parseEther (v : jsvalue) : result Z :=
  match v with
  | JString s => Units.parseEther s
  | _ => throw InvalidArgument "value must be a string"
  end.

End Json.

Import Json.

(** ** HTTP requests and responses of the express handlers *)

Module Http.

Inductive json_body : Type :=
| ErrorBody (error : jsstring)                         (* { error } *)
| QuoteBody (feeTier : Z) (amountOut : jsstring)       (* { feeTier, amountOut } *)
| SwapBody (transactionHash : jsstring).               (* { transactionHash } *)

(** res.status(status).json(body) *)
Record response : Type := mkResponse { status : Z; body : json_body }.

(** [req.headers.authorization] and the three destructured fields of
    [req.body]. *)
Record request : Type := mkRequest {
  authorization : option jsstring;
  amountIn : jsvalue;
  tokenIn : jsvalue;
  tokenOut : jsvalue
}.

Definition missing_parameters (req : request) : bool :=
  negb (truthy (amountIn req)) || negb (truthy (tokenIn req)) || negb (truthy (tokenOut req)).

Definition is_client_error (r : response) : bool := (400 <=? status r)%Z && (status r <=? 499)%Z.
Definition is_server_error (r : response) : bool := (500 <=? status r)%Z && (status r <=? 599)%Z.

End Http.

Import Http.

(** ** app.js, first variant (token mapping file, no ETH special case) *)

Module AppV1.

Definition feeTiers : list Z := [500; 3000; 10000]%Z. (* Fee tiers in ascending order *)
Definition MAX_GAS_LIMIT : Z := 300000.

Section WithTokenMap.
Variable tokenMap : token_map.

(** The [for ... of Object.entries(tokenMap)] loop of
    [findTokenAddress], with [t] the lowered token string. *)
Fixpoint find_entry (t : jsstring) (entries : token_map) : option jsstring :=
  match entries with
  | [] => None
  | (address, info) :: rest =>
      let nameMatch := Js.eqb (toLowerCase (name info)) t in
      let symbolMatch := Js.eqb (toLowerCase (symbol info)) t in
      if nameMatch || symbolMatch then Some address
      else find_entry t rest
  end.

Definition findTokenAddress (tokenStr : jsstring) : result jsstring :=
  let t := toLowerCase tokenStr in
  match find_entry t tokenMap with
  | Some address => Ok address
  | None => Err (mkError TokenNotFound (str "Token not found: " ++ tokenStr))
  end.

(** The [for (let fee of feeTiers)] loop of [getBestQuote]. *)
Fixpoint getBestQuote_loop (tokenInAddress tokenOutAddress : jsstring) (amountInWei : Z)
         (tiers : list Z) : program (result quote) :=
  match tiers with
  | [] => Ret (throw NoLiquidityAvailable "No valid liquidity pool found.")
  | fee :: rest =>
      r <- trigger (QuoteExactInputSingle tokenInAddress tokenOutAddress fee amountInWei 0) ;;
      match r with
      | Ok amountOut => Ret (Ok (mkQuote fee amountOut))
      | Err error =>
          _ <- log_error (str "Fee tier " ++ Units.decimal_of_Z fee ++ str " failed: "
                            ++ message error) ;;
          getBestQuote_loop tokenInAddress tokenOutAddress amountInWei rest
      end
  end.

Definition getBestQuote (tokenInAddress tokenOutAddress : jsstring) (amountInWei : Z)
  : program (result quote) :=
  getBestQuote_loop tokenInAddress tokenOutAddress amountInWei feeTiers.

Definition findTokenAddress_of (v : jsvalue) : result jsstring :=
  tokenStr <-? string_receiver v ;; findTokenAddress tokenStr.

(** The body of the [try] block of POST /quote. *)
Definition quote_try (req : request) : program (result response) :=
  tokenInAddress <-! Ret (findTokenAddress_of (tokenIn req)) ;;
  tokenOutAddress <-! Ret (findTokenAddress_of (tokenOut req)) ;;
  amountInWei <-! Ret (Json.parseEther (amountIn req)) ;;
  q <-! getBestQuote tokenInAddress tokenOutAddress amountInWei ;;
  let amountOutFormatted := Units.formatUnits (quote_amountOut q) 18 in
  Ret (Ok (mkResponse 200 (QuoteBody (quote_fee q) amountOutFormatted))).

(** app.post('/quote', ...) *)
Definition post_quote (req : request) : program response :=
  if missing_parameters req
  then Ret (mkResponse 400 (ErrorBody (str "Missing required parameters in request body")))
  else
    try_catch (quote_try req)
      (fun error =>
         _ <- log_error (message error) ;;
         Ret (mkResponse 500 (ErrorBody (message error)))).

Definition print_header (h : option jsstring) : jsstring :=
  match h with Some s => s | None => str "undefined" end.

Definition header_missing (h : option jsstring) : bool :=
  match h with Some (_ :: _) => false | _ => true end.

(** The body of the [try] block of POST /swap. *)
Definition swap_try (key : jsstring) (req : request) : program (result response) :=
  walletAddress <-! trigger (NewWallet key) ;;
  tokenInAddress <-! Ret (findTokenAddress_of (tokenIn req)) ;;
  tokenOutAddress <-! Ret (findTokenAddress_of (tokenOut req)) ;;
  amountInWei <-! Ret (Json.parseEther (amountIn req)) ;;
  q <-! getBestQuote tokenInAddress tokenOutAddress amountInWei ;;
  now <- trigger NowSeconds ;;
  let params :=
    mkParams tokenInAddress tokenOutAddress (quote_fee q) walletAddress
             (now + 300) amountInWei
             (Z.quot (quote_amountOut q * 98) 100) (* 2% slippage *)
             0 in
  (* Estimate gas dynamically and add a buffer *)
  estimatedGas <-! trigger (EstimateGas params) ;;
  let gasLimitWithBuffer := Z.quot (estimatedGas * 120) 100 in
  let gasLimit :=
    if (gasLimitWithBuffer <? MAX_GAS_LIMIT)%Z then gasLimitWithBuffer else MAX_GAS_LIMIT in
  _ <- log (str "Estimated gas: " ++ Units.decimal_of_Z estimatedGas
              ++ str ", Gas limit: " ++ Units.decimal_of_Z gasLimit) ;;
  (* Execute the transaction *)
  swapTx <-! trigger (ExactInputSingle params gasLimit 0) ;;
  rcpt <-! trigger (Wait swapTx) ;;
  Ret (Ok (mkResponse 200 (SwapBody (transactionHash rcpt)))).

(** app.post('/swap', ...) *)
Definition post_swap (req : request) : program response :=
  _ <- log (str "Authorization Header Received: " ++ print_header (authorization req)) ;;
  if header_missing (authorization req)
  then Ret (mkResponse 401 (ErrorBody (str "Private key required in Authorization header")))
  else if missing_parameters req
  then Ret (mkResponse 400 (ErrorBody (str "Missing required parameters in request body")))
  else
    try_catch (swap_try (print_header (authorization req)) req)
      (fun error =>
         _ <- log_error (str "Error executing swap: " ++ message error) ;;
         Ret (mkResponse 500 (ErrorBody (message error)))).

End WithTokenMap.

End AppV1.

(** ** app.js, second variant (ETH special case, slippage heuristic) *)

Module AppV2.

Import JsNumber.

Definition feeTiers : list Z := [500; 3000; 10000]%Z. (* Fee tiers in ascending order *)
Definition MAX_GAS_LIMIT : Z := 300000.

(** Calculates slippage dynamically based on token volatility and
    user-defined limits. *)
Definition calculateSlippage (tokenIn tokenOut : jsstring) : number :=
  let BASE_SLIPPAGE := literal 5 3 in (* 0.5% *)
  let MAX_SLIPPAGE := literal 3 2 in  (* 3% *)
  if Js.eqb tokenIn (str "weth") && Js.eqb tokenOut (str "usdt")
  then BASE_SLIPPAGE (* Minimal slippage for stable pairs *)
  else if Js.eqb tokenIn (str "weth") || Js.eqb tokenOut (str "weth")
  then JsNumber.min (mul BASE_SLIPPAGE (of_Z 2)) MAX_SLIPPAGE (* Adjust for volatility *)
  else MAX_SLIPPAGE. (* Higher slippage for illiquid pairs *)

(** amountOut.mul(100 - (dynamicSlippage * 100)).div(100) *)
Definition amountOutMinimum_of (amountOut : Z) (dynamicSlippage : number) : result Z :=
  factor <-? to_BigNumber (sub (of_Z 100) (mul dynamicSlippage (of_Z 100))) ;;
  Ok (Z.quot (amountOut * factor) 100).

Section WithTokenMap.
Variable tokenMap : token_map.

(** Special case: if user says "eth", return WETH_ADDRESS. *)
Definition findTokenAddress (tokenStr : jsstring) : result jsstring :=
  let t := toLowerCase tokenStr in
  if Js.eqb t (str "eth") then Ok WETH_ADDRESS
  else
    match AppV1.find_entry t tokenMap with
    | Some address => Ok address
    | None => Err (mkError TokenNotFound (str "Token not found: " ++ tokenStr))
    end.

Definition findTokenAddress_of (v : jsvalue) : result jsstring :=
  tokenStr <-? string_receiver v ;; findTokenAddress tokenStr.

Fixpoint getBestQuote_loop (tokenInAddress tokenOutAddress : jsstring) (amountInWei : Z)
         (tiers : list Z) : program (result quote) :=
  match tiers with
  | [] => Ret (throw NoLiquidityAvailable "No valid liquidity pool found.")
  | fee :: rest =>
      r <- trigger (QuoteExactInputSingle tokenInAddress tokenOutAddress fee amountInWei 0) ;;
      match r with
      | Ok amountOut =>
          _ <- log (str "Fee tier " ++ Units.decimal_of_Z fee ++ str " gives output: "
                      ++ Units.formatUnits amountOut 18) ;;
          Ret (Ok (mkQuote fee amountOut))
      | Err error =>
          _ <- log_error (str "Fee tier " ++ Units.decimal_of_Z fee ++ str " failed: "
                            ++ message error) ;;
          getBestQuote_loop tokenInAddress tokenOutAddress amountInWei rest
      end
  end.

Definition getBestQuote (tokenInAddress tokenOutAddress : jsstring) (amountInWei : Z)
  : program (result quote) :=
  getBestQuote_loop tokenInAddress tokenOutAddress amountInWei feeTiers.

(** The [else] branch of the ETH test in POST /swap: balance and
    allowance of an ERC-20 input.  [Ok None] continues to the swap,
    [Ok (Some r)] is the early [return res.status(400)...]. *)
Definition erc20_checks (tokenInAddress walletAddress : jsstring) (amountInWei : Z)
  : program (result (option response)) :=
  (* Check balance *)
  balance <-! trigger (BalanceOf tokenInAddress walletAddress) ;;
  if (balance <? amountInWei)%Z
  then Ret (Ok (Some (mkResponse 400 (ErrorBody (str "Insufficient token balance.")))))
  else
    (* Check allowance *)
    allowance <-! trigger (Allowance tokenInAddress walletAddress UNISWAP_V3_ROUTER_ADDRESS) ;;
    if (allowance <? amountInWei)%Z
    then
      approveTx <-! trigger (Approve tokenInAddress UNISWAP_V3_ROUTER_ADDRESS MaxUint256) ;;
      _ <-! trigger (Wait approveTx) ;;
      _ <- log (str "Approval complete.") ;;
      Ret (Ok None)
    else Ret (Ok None).

(** The rest of the [try] block, from "Get the best quote" on. *)
Definition quote_and_swap (walletAddress tokenInAddress tokenOutAddress : jsstring)
           (tokenInStr tokenOutStr : jsstring) (amountInWei valueToSend : Z)
  : program (result response) :=
  q <-! getBestQuote tokenInAddress tokenOutAddress amountInWei ;;
  let dynamicSlippage :=
    calculateSlippage (toLowerCase tokenInStr) (toLowerCase tokenOutStr) in
  amountOutMinimum <-! Ret (amountOutMinimum_of (quote_amountOut q) dynamicSlippage) ;;
  now <- trigger NowSeconds ;;
  let params :=
    mkParams tokenInAddress tokenOutAddress (quote_fee q) walletAddress
             (now + 300) amountInWei amountOutMinimum 0 in
  (* Execute the transaction *)
  swapTx <-! trigger (ExactInputSingle params MAX_GAS_LIMIT valueToSend) ;;
  rcpt <-! trigger (Wait swapTx) ;;
  Ret (Ok (mkResponse 200 (SwapBody (transactionHash rcpt)))).

(** The body of the [try] block of POST /swap. *)
Definition swap_try (key : jsstring) (req : request) : program (result response) :=
  walletAddress <-! trigger (NewWallet key) ;;
  tokenInAddress <-! Ret (findTokenAddress_of (tokenIn req)) ;;
  tokenOutAddress <-! Ret (findTokenAddress_of (tokenOut req)) ;;
  amountInWei <-! Ret (Json.parseEther (amountIn req)) ;;
  tokenInStr <-! Ret (string_receiver (tokenIn req)) ;;
  (* If tokenIn is "eth", we send ETH as value and no ERC20 checks. *)
  if Js.eqb (toLowerCase tokenInStr) (str "eth")
  then
    tokenOutStr <-! Ret (string_receiver (tokenOut req)) ;;
    quote_and_swap walletAddress tokenInAddress tokenOutAddress tokenInStr tokenOutStr
                   amountInWei amountInWei
  else
    early <-! erc20_checks tokenInAddress walletAddress amountInWei ;;
    match early with
    | Some r => Ret (Ok r)
    | None =>
        tokenOutStr <-! Ret (string_receiver (tokenOut req)) ;;
        quote_and_swap walletAddress tokenInAddress tokenOutAddress tokenInStr tokenOutStr
                       amountInWei 0
    end.

(** app.post('/swap', ...) *)
Definition post_swap (req : request) : program response :=
  if AppV1.header_missing (authorization req)
  then Ret (mkResponse 401 (ErrorBody (str "Private key required in Authorization header")))
  else if missing_parameters req
  then Ret (mkResponse 400 (ErrorBody (str "Missing required parameters in request body")))
  else
    try_catch (swap_try (AppV1.print_header (authorization req)) req)
      (fun error =>
         _ <- log_error (str "Error executing swap: " ++ message error) ;;
         Ret (mkResponse 500 (ErrorBody (message error)))).

(** The body of the [try] block of POST /quote. *)
Definition quote_try (req : request) : program (result response) :=
  tokenInAddress <-! Ret (findTokenAddress_of (tokenIn req)) ;;
  tokenOutAddress <-! Ret (findTokenAddress_of (tokenOut req)) ;;
  amountInWei <-! Ret (Json.parseEther (amountIn req)) ;;
  q <-! getBestQuote tokenInAddress tokenOutAddress amountInWei ;;
  let amountOutFormatted := Units.formatUnits (quote_amountOut q) 18 in
  Ret (Ok (mkResponse 200 (QuoteBody (quote_fee q) amountOutFormatted))).

(** app.post('/quote', ...) *)
Definition post_quote (req : request) : program response :=
  if missing_parameters req
  then Ret (mkResponse 400 (ErrorBody (str "Missing required parameters in request body")))
  else
    try_catch (quote_try req)
      (fun error =>
         _ <- log_error (message error) ;;
         Ret (mkResponse 500 (ErrorBody (message error)))).

End WithTokenMap.

End AppV2.

(** ** d_swap_from_mapping.js (command-line swap through the mapping file) *)

Module SwapFromMapping.

Import JsNumber.

(** Fee tiers to try (sorted by cost) *)
Definition feeTiers : list Z := [500; 3000; 10000]%Z.
Definition BASE_SLIPPAGE : number := literal 5 3. (* 0.5% base slippage *)
Definition MAX_SLIPPAGE : number := literal 3 2.  (* 3% max slippage *)

Definition dquote : ascii := "034"%char.

(** Parse user query: "swap 1 eth with niox" *)
Definition parseUserQuery (query : jsstring) : result (jsstring * jsstring * jsstring) :=
  let parts := Units.split_on " " (toLowerCase query) in
  if negb (Nat.eqb (length parts) 5)
     || negb (Js.eqb (nth 0 parts []) (str "swap"))
     || negb (Js.eqb (nth 3 parts []) (str "with"))
  then throw PlainError "Query format should be: 'swap <amount> <tokenIn> with <tokenOut>'"
  else Ok (nth 1 parts [], nth 2 parts [], nth 4 parts []).

Definition calculateSlippage (tokenIn tokenOut : jsstring) : number :=
  if Js.eqb tokenIn (str "weth") && Js.eqb tokenOut (str "usdt")
  then BASE_SLIPPAGE (* Stablecoin pair: minimal slippage *)
  else if Js.eqb tokenIn (str "weth") || Js.eqb tokenOut (str "weth")
  then JsNumber.min (mul BASE_SLIPPAGE (of_Z 2)) MAX_SLIPPAGE (* Volatile token pair *)
  else MAX_SLIPPAGE. (* Exotic pair *)

(** amountOut.mul(100 - (dynamicSlippage * 100)).div(100) *)
Definition amountOutMinimum_of (amountOut : Z) (dynamicSlippage : number) : result Z :=
  factor <-? to_BigNumber (sub (of_Z 100) (mul dynamicSlippage (of_Z 100))) ;;
  Ok (Z.quot (amountOut * factor) 100).

Section WithEnvironment.
(** mapping.json, the address of the wallet made from PRIVATE_KEY,
    and the module-level [deadline]. *)
Variable tokenMap : token_map.
Variable walletAddress : jsstring.
Variable deadline : Z.

Definition findTokenAddress (tokenStr : jsstring) : result jsstring :=
  let t := toLowerCase tokenStr in
  match AppV1.find_entry t tokenMap with
  | Some address => Ok address
  | None =>
      Err (mkError TokenNotFound
             (str "Could not find a token with name or symbol matching "
                ++ [dquote] ++ tokenStr ++ [dquote] ++ str " in mapping.json"))
  end.

Fixpoint getBestQuote_loop (tokenInAddress tokenOutAddress : jsstring) (amountInWei : Z)
         (tiers : list Z) : program (result quote) :=
  match tiers with
  | [] => Ret (throw NoLiquidityAvailable "No valid pools available for this token pair.")
  | fee :: rest =>
      r <- trigger (QuoteExactInputSingle tokenInAddress tokenOutAddress fee amountInWei 0) ;;
      match r with
      | Ok amountOut =>
          _ <- log (str "Fee tier " ++ Units.decimal_of_Z fee ++ str " gives output: "
                      ++ Units.formatUnits amountOut 18) ;;
          Ret (Ok (mkQuote fee amountOut))
      | Err err =>
          _ <- log (str "Fee tier " ++ Units.decimal_of_Z fee ++ str " failed: "
                      ++ message err) ;;
          getBestQuote_loop tokenInAddress tokenOutAddress amountInWei rest
      end
  end.

Definition getBestQuote (tokenInAddress tokenOutAddress : jsstring) (amountInWei : Z)
  : program (result quote) :=
  getBestQuote_loop tokenInAddress tokenOutAddress amountInWei feeTiers.

(** The balance and allowance part of [main]. *)
Definition ensure_allowance (tokenIn tokenInAddress : jsstring) (amountInWei : Z)
  : program (result unit) :=
  balance <-! trigger (BalanceOf tokenInAddress walletAddress) ;;
  _ <- log (str "Balance: " ++ Units.formatEther balance ++ str " " ++ toUpperCase tokenIn) ;;
  if (balance <? amountInWei)%Z then Ret (throw PlainError "Insufficient token balance.")
  else
    allowance <-! trigger (Allowance tokenInAddress walletAddress UNISWAP_V3_ROUTER_ADDRESS) ;;
    _ <- log (str "Allowance: " ++ Units.formatEther allowance) ;;
    if (allowance <? amountInWei)%Z
    then
      _ <- log (str "Insufficient allowance. Approving...") ;;
      approveTx <-! trigger (Approve tokenInAddress UNISWAP_V3_ROUTER_ADDRESS MaxUint256) ;;
      _ <-! trigger (Wait approveTx) ;;
      _ <- log (str "Approval complete.") ;;
      Ret (Ok tt)
    else Ret (Ok tt).

(** The rest of [main], from "Finding the best quote" on. *)
Definition quote_and_swap (amountIn tokenIn tokenOut tokenInAddress tokenOutAddress : jsstring)
           (amountInWei : Z) : program (result unit) :=
  _ <- log (str "Finding the best quote for swapping " ++ amountIn ++ str " "
              ++ toUpperCase tokenIn ++ str " to " ++ toUpperCase tokenOut ++ str "...") ;;
  q <-! getBestQuote tokenInAddress tokenOutAddress amountInWei ;;
  let dynamicSlippage := calculateSlippage tokenIn tokenOut in
  amountOutMinimum <-! Ret (amountOutMinimum_of (quote_amountOut q) dynamicSlippage) ;;
  _ <- log (str "Using dynamic slippage: "
              ++ Units.number_text (mul dynamicSlippage (of_Z 100)) ++ str "%") ;;
  _ <- log (str "Executing the swap with fee tier " ++ Units.decimal_of_Z (quote_fee q)
              ++ str " and slippage protection...") ;;
  let params :=
    mkParams tokenInAddress tokenOutAddress (quote_fee q) walletAddress
             deadline amountInWei amountOutMinimum 0 in
  swapTx <-! trigger (ExactInputSingle params 300000 0) ;;
  _ <- log (str "Swap transaction sent. Waiting for confirmation...") ;;
  rcpt <-! trigger (Wait swapTx) ;;
  _ <- log (str "Swap transaction confirmed!") ;;
  _ <- log (str "Transaction hash: " ++ transactionHash rcpt) ;;
  _ <- log (str "Check your " ++ toUpperCase tokenOut ++ str " balance at address: "
              ++ walletAddress) ;;
  Ret (Ok tt).

Definition main_of (userQuery : jsstring) : program (result unit) :=
  parsed <-! Ret (parseUserQuery userQuery) ;;
  let '(amountIn, tokenIn, tokenOut) := parsed in
  (* Find addresses *)
  tokenInAddress <-! Ret (findTokenAddress tokenIn) ;;
  tokenOutAddress <-! Ret (findTokenAddress tokenOut) ;;
  _ <- log (str "TokenIn (" ++ toUpperCase tokenIn ++ str "): " ++ tokenInAddress) ;;
  _ <- log (str "TokenOut (" ++ toUpperCase tokenOut ++ str "): " ++ tokenOutAddress) ;;
  amountInWei <-! Ret (Units.parseEther amountIn) ;;
  _ <-! ensure_allowance tokenIn tokenInAddress amountInWei ;;
  quote_and_swap amountIn tokenIn tokenOut tokenInAddress tokenOutAddress amountInWei.

Definition userQuery : jsstring := str "swap 0.0005 WETH with BNB". (* Example query *)

Definition main : program (result unit) := main_of userQuery.

(** main().catch((error) => { console.error(error); process.exit(1); }):
    the exit code of the process. *)
Definition script : program Z :=
  try_catch (_ <-! main ;; Ret (Ok 0%Z))
    (fun error => _ <- log_error (message error) ;; Ret 1%Z).

End WithEnvironment.

End SwapFromMapping.

(** ** The service of d_swap_from_mapping.js (tokens given by address) *)

Module AppV3.

Import JsNumber.

Definition feeTiers : list Z := [500; 3000; 10000; 15000]%Z. (* Fee tiers in ascending order *)

(** Increase gas limit for more complex trades *)
Definition MAX_GAS_LIMIT : Z := 500000.

(** Special case: if user says "eth", return WETH_ADDRESS.  Otherwise,
    assume the token string is already the correct address. *)
Definition findTokenAddress (tokenStr : jsstring) : jsstring :=
  let lowerStr := toLowerCase tokenStr in
  if Js.eqb lowerStr (str "eth") then WETH_ADDRESS else tokenStr.

Definition findTokenAddress_of (v : jsvalue) : result jsstring :=
  tokenStr <-? string_receiver v ;; Ok (findTokenAddress tokenStr).

Fixpoint getBestQuote_loop (tokenInAddress tokenOutAddress : jsstring) (amountInWei : Z)
         (tiers : list Z) : program (result quote) :=
  match tiers with
  | [] =>
      Ret (throw NoLiquidityAvailable
             "No valid liquidity pool found for the specified tokens.")
  | fee :: rest =>
      r <- trigger (QuoteExactInputSingle tokenInAddress tokenOutAddress fee amountInWei 0) ;;
      match r with
      | Ok amountOut =>
          _ <- log (str "Fee tier " ++ Units.decimal_of_Z fee ++ str " gives output: "
                      ++ Units.formatUnits amountOut 18) ;;
          Ret (Ok (mkQuote fee amountOut))
      | Err error =>
          _ <- log_error (str "Fee tier " ++ Units.decimal_of_Z fee ++ str " failed: "
                            ++ message error) ;;
          getBestQuote_loop tokenInAddress tokenOutAddress amountInWei rest
      end
  end.

Definition getBestQuote (tokenInAddress tokenOutAddress : jsstring) (amountInWei : Z)
  : program (result quote) :=
  getBestQuote_loop tokenInAddress tokenOutAddress amountInWei feeTiers.

(** Here, we've increased the base and max slippage for more volatile or
    illiquid pairs. *)
Definition calculateSlippage (tokenIn tokenOut : jsstring) : number :=
  let BASE_SLIPPAGE := literal 1 2 in (* 1% *)
  let MAX_SLIPPAGE := literal 1 1 in  (* 10% *)
  let inLower := toLowerCase tokenIn in
  let outLower := toLowerCase tokenOut in
  if Js.eqb inLower (str "eth") && Js.eqb outLower (str "usdt")
  then BASE_SLIPPAGE (* Low volatility / stable pair *)
  else if Js.eqb inLower (str "eth") || Js.eqb outLower (str "eth")
  then JsNumber.min (mul BASE_SLIPPAGE (of_Z 2)) MAX_SLIPPAGE (* ETH is involved *)
  else MAX_SLIPPAGE. (* Potentially illiquid or volatile pair *)

(** amountOut.mul(100 - dynamicSlippage * 100).div(100) *)
Definition amountOutMinimum_of (amountOut : Z) (dynamicSlippage : number) : result Z :=
  factor <-? to_BigNumber (sub (of_Z 100) (mul dynamicSlippage (of_Z 100))) ;;
  Ok (Z.quot (amountOut * factor) 100).

(** The rest of the [try] block of POST /swap, from "Get the best quote"
    on. *)
Definition quote_and_swap (walletAddress tokenInAddress tokenOutAddress : jsstring)
           (tokenInStr tokenOutStr : jsstring) (amountInWei valueToSend : Z)
  : program (result response) :=
  q <-! getBestQuote tokenInAddress tokenOutAddress amountInWei ;;
  let dynamicSlippage := calculateSlippage tokenInStr tokenOutStr in
  amountOutMinimum <-! Ret (amountOutMinimum_of (quote_amountOut q) dynamicSlippage) ;;
  now <- trigger NowSeconds ;;
  let params :=
    mkParams tokenInAddress tokenOutAddress (quote_fee q) walletAddress
             (now + 300) (* 5-minute deadline *) amountInWei amountOutMinimum 0 in
  (* Execute the transaction *)
  swapTx <-! trigger (ExactInputSingle params MAX_GAS_LIMIT valueToSend) ;;
  rcpt <-! trigger (Wait swapTx) ;;
  Ret (Ok (mkResponse 200 (SwapBody (transactionHash rcpt)))).

(** The body of the [try] block of POST /swap.  The balance and
    allowance block of an ERC-20 input is the one of app.js. *)
Definition swap_try (key : jsstring) (req : request) : program (result response) :=
  walletAddress <-! trigger (NewWallet key) ;;
  tokenInAddress <-! Ret (findTokenAddress_of (tokenIn req)) ;;
  tokenOutAddress <-! Ret (findTokenAddress_of (tokenOut req)) ;;
  amountInWei <-! Ret (Json.parseEther (amountIn req)) ;;
  tokenInStr <-! Ret (string_receiver (tokenIn req)) ;;
  (* If tokenIn is "eth", we send ETH as `value`, and skip ERC20 checks. *)
  if Js.eqb (toLowerCase tokenInStr) (str "eth")
  then
    tokenOutStr <-! Ret (string_receiver (tokenOut req)) ;;
    quote_and_swap walletAddress tokenInAddress tokenOutAddress tokenInStr tokenOutStr
                   amountInWei amountInWei
  else
    early <-! AppV2.erc20_checks tokenInAddress walletAddress amountInWei ;;
    match early with
    | Some r => Ret (Ok r)
    | None =>
        tokenOutStr <-! Ret (string_receiver (tokenOut req)) ;;
        quote_and_swap walletAddress tokenInAddress tokenOutAddress tokenInStr tokenOutStr
                       amountInWei 0
    end.

(** app.post('/swap', ...) *)
Definition post_swap (req : request) : program response :=
  if AppV1.header_missing (authorization req)
  then Ret (mkResponse 401 (ErrorBody (str "Private key required in Authorization header")))
  else if missing_parameters req
  then Ret (mkResponse 400 (ErrorBody (str "Missing required parameters in request body")))
  else
    try_catch (swap_try (AppV1.print_header (authorization req)) req)
      (fun error =>
         _ <- log_error (str "Error executing swap: " ++ message error) ;;
         Ret (mkResponse 500 (ErrorBody (message error)))).

(** The body of the [try] block of POST /quote. *)
Definition quote_try (req : request) : program (result response) :=
  tokenInAddress <-! Ret (findTokenAddress_of (tokenIn req)) ;;
  tokenOutAddress <-! Ret (findTokenAddress_of (tokenOut req)) ;;
  amountInWei <-! Ret (Json.parseEther (amountIn req)) ;;
  q <-! getBestQuote tokenInAddress tokenOutAddress amountInWei ;;
  let amountOutFormatted := Units.formatUnits (quote_amountOut q) 18 in
  Ret (Ok (mkResponse 200 (QuoteBody (quote_fee q) amountOutFormatted))).

(** app.post('/quote', ...) *)
Definition post_quote (req : request) : program response :=
  if missing_parameters req
  then Ret (mkResponse 400 (ErrorBody (str "Missing required parameters in request body")))
  else
    try_catch (quote_try req)
      (fun error =>
         _ <- log_error (message error) ;;
         Ret (mkResponse 500 (ErrorBody (message error)))).

End AppV3.

(** ** The pool locator in the words of the specification *)

Module LocatorSpec.

Import Bytes.

(** The 20 bytes an address string denotes. *)
Definition address_bytes (a : jsstring) : list byte :=
  match bytes_of_hexdigits (skipn 2 a) with
  | Some bs => bs
  | None => []
  end.

(** A fee tier on three bytes, most significant first. *)
Definition fee_bytes (fee : Z) : list byte :=
  [byte_of_N (Z.to_N (fee / 65536)); byte_of_N (Z.to_N (fee / 256)); byte_of_N (Z.to_N fee)].

(** The fixed factory identifier and the fixed bytecode-hash constant. *)
Definition factory_bytes : list byte := address_bytes PoolLocator.FACTORY_ADDRESS.
Definition init_code_hash_bytes : list byte := address_bytes PoolLocator.POOL_INIT_CODE_HASH.

(** The fingerprint over the ordered triple (token0, token1, fee). *)
Definition first_fingerprint (token0 token1 : jsstring) (fee : Z) : list byte :=
  Keccak.digest (address_bytes token0 ++ address_bytes token1 ++ fee_bytes fee).

(** The fingerprint over the one-byte marker, the factory identifier,
    the first fingerprint and the bytecode-hash constant. *)
Definition second_fingerprint (first : list byte) : list byte :=
  Keccak.digest ([xff] ++ factory_bytes ++ first ++ init_code_hash_bytes).

(** The low 20 bytes of a 32-byte fingerprint. *)
Definition low20 (h : list byte) : list byte := skipn (length h - 20) h.

(** Canonical checksummed form of 20 bytes. *)
Definition checksummed (bs : list byte) : jsstring :=
  str "0x" ++ Address.checksum_chars (hexdigits bs).

(** [a] and [b] are the two identifiers already in checksummed form. *)
Definition locatePool (a b : jsstring) (fee : Z) : jsstring :=
  let '(token0, token1) :=
    if Js.ltb (toLowerCase a) (toLowerCase b) then (a, b) else (b, a) in
  checksummed (low20 (second_fingerprint (first_fingerprint token0 token1 fee))).

End LocatorSpec.

(** ** The pool address the Uniswap V3 deployment itself derives *)

Module UniswapV3.

Import Bytes.

(** Modelled from the spec: the fixed, previously-published pool
    address of the regression fixture, which the repository does not
    contain: the WETH/DAI 0.3% pool of the mainnet factory. *)
Definition WETH_DAI_3000_POOL : jsstring :=
  str "0xC2e9F25Be6257c210d7Adf0D4Cd6E3E881ba25f8".

(** The init code hash of the deployed pool contract (periphery
    library [PoolAddress.POOL_INIT_CODE_HASH]). *)
Definition POOL_INIT_CODE_HASH : jsstring :=
  str "0xe34f199b19b2b4f47f68442619d555527d244f78a3297ea89325f843f87b8b54".

(** One 32-byte word of [abi.encode]. *)
Definition abi_word (bs : list byte) : list byte := repeat x00 (32 - length bs) ++ bs.

(** [PoolAddress.computeAddress]: the salt is the hash of the
    ABI-encoded (not tightly packed) pool key. *)
Definition computeAddress (token0 token1 : jsstring) (fee : Z) : jsstring :=
  let salt :=
    Keccak.digest (abi_word (LocatorSpec.address_bytes token0)
                     ++ abi_word (LocatorSpec.address_bytes token1)
                     ++ abi_word (LocatorSpec.fee_bytes fee)) in
  LocatorSpec.checksummed
    (LocatorSpec.low20
       (Keccak.digest ([xff] ++ LocatorSpec.factory_bytes ++ salt
                         ++ LocatorSpec.address_bytes POOL_INIT_CODE_HASH))).

End UniswapV3.

(** ** Vocabulary of the properties *)

(** An entry answers to [s] when its name or its symbol equals [s]
    case-insensitively. *)
Definition entry_matches (s : jsstring) (info : token_info) : Prop :=
  toLowerCase (name info) = toLowerCase s \/ toLowerCase (symbol info) = toLowerCase s.

(** [address] is the key of the first entry of [tm] that answers to [s]. *)
Definition first_match (tm : token_map) (s : jsstring) (address : jsstring) : Prop :=
  exists before info after,
    tm = before ++ (address, info) :: after
    /\ entry_matches s info
    /\ Forall (fun entry => ~ entry_matches s (snd entry)) before.

Definition no_match (tm : token_map) (s : jsstring) : Prop :=
  Forall (fun entry => ~ entry_matches s (snd entry)) tm.

(** An address string in canonical checksummed form: "0x" and forty
    hexadecimal digits whose letters carry the case their own Keccak
    hash prescribes. *)
Definition canonical (a : jsstring) : Prop :=
  exists chars,
    a = "0"%char :: "x"%char :: Address.checksum_chars chars
    /\ length chars = 40
    /\ forallb Bytes.is_hexchar chars = true
    /\ toLowerCase chars = chars.

(** *** Reading a trace *)

(** The quote call an event is, with its answer. *)
Definition quote_answer (ev : event) : option (Z * result Z) :=
  match ev with
  | Event e x =>
      match e in rpcE X return X -> option (Z * result Z) with
      | QuoteExactInputSingle _ _ fee _ _ => fun r => Some (fee, r)
      | _ => fun _ => None
      end x
  end.

(** The quote calls of a trace, in the order they were issued. *)
Fixpoint quote_answers (tr : list event) : list (Z * result Z) :=
  match tr with
  | [] => []
  | ev :: rest =>
      match quote_answer ev with
      | Some a => a :: quote_answers rest
      | None => quote_answers rest
      end
  end.

Definition console_line (ev : event) : option (stream * jsstring) :=
  match ev with
  | Event e _ =>
      match e with
      | Console s line => Some (s, line)
      | _ => None
      end
  end.

(** What a trace printed. *)
Fixpoint console_lines (tr : list event) : list (stream * jsstring) :=
  match tr with
  | [] => []
  | ev :: rest =>
      match console_line ev with
      | Some l => l :: console_lines rest
      | None => console_lines rest
      end
  end.

(** The tiers [failed] were tried in order and each was answered by an
    error; then the tier of [q] was tried and answered [q]'s amount; the
    tiers [later] were never tried. *)
Definition first_success (tiers : list Z) (answers : list (Z * result Z)) (q : quote) : Prop :=
  exists failed errors later,
    tiers = failed ++ quote_fee q :: later
    /\ length errors = length failed
    /\ answers = combine failed (map Err errors) ++ [(quote_fee q, Ok (quote_amountOut q))].

(** Every tier was tried, in order, and each was answered by an error. *)
Definition all_failed (tiers : list Z) (answers : list (Z * result Z)) : Prop :=
  exists errors,
    length errors = length tiers
    /\ answers = combine tiers (map Err errors).

Definition answer_failed (a : Z * result Z) : Prop :=
  match snd a with
  | Ok _ => False
  | Err _ => True
  end.

(** What each variant of [getBestQuote] prints for one answer. *)
Definition log_of_answer_app (a : Z * result Z) : list (stream * jsstring) :=
  match a with
  | (fee, Ok _) => []
  | (fee, Err e) =>
      [(Stderr, str "Fee tier " ++ Units.decimal_of_Z fee ++ str " failed: " ++ message e)]
  end.

Definition log_of_answer_script (a : Z * result Z) : list (stream * jsstring) :=
  match a with
  | (fee, Ok amountOut) =>
      [(Stdout, str "Fee tier " ++ Units.decimal_of_Z fee ++ str " gives output: "
                  ++ Units.formatUnits amountOut 18)]
  | (fee, Err e) =>
      [(Stdout, str "Fee tier " ++ Units.decimal_of_Z fee ++ str " failed: " ++ message e)]
  end.

Definition log_of_answer_v2 (a : Z * result Z) : list (stream * jsstring) :=
  match a with
  | (fee, Ok amountOut) =>
      [(Stdout, str "Fee tier " ++ Units.decimal_of_Z fee ++ str " gives output: "
                  ++ Units.formatUnits amountOut 18)]
  | (fee, Err e) =>
      [(Stderr, str "Fee tier " ++ Units.decimal_of_Z fee ++ str " failed: " ++ message e)]
  end.

(** The operations on the chain that matter to the order of approval and
    swap: an allowance that was read, an approval that was submitted, a
    transaction whose confirmation was awaited and arrived, a swap that
    was sent. *)
Inductive chain_op : Type :=
| AllowanceRead (token owner spender : jsstring) (allowance : Z)
| ApprovalSubmitted (token spender : jsstring) (amount : Z) (t : tx)
| Confirmed (t : tx)
| SwapSent (params : swap_params) (value : Z).

Definition chain_op_of (ev : event) : option chain_op :=
  match ev with
  | Event e x =>
      match e in rpcE X return X -> option chain_op with
      | Allowance token owner spender =>
          fun r => match r with
                   | Ok allowance => Some (AllowanceRead token owner spender allowance)
                   | Err _ => None
                   end
      | Approve token spender amount =>
          fun r => match r with
                   | Ok t => Some (ApprovalSubmitted token spender amount t)
                   | Err _ => None
                   end
      | Wait t =>
          fun r => match r with
                   | Ok _ => Some (Confirmed t)
                   | Err _ => None
                   end
      | ExactInputSingle params _ value => fun _ => Some (SwapSent params value)
      | _ => fun _ => None
      end x
  end.

Fixpoint chain_ops (tr : list event) : list chain_op :=
  match tr with
  | [] => []
  | ev :: rest =>
      match chain_op_of ev with
      | Some op => op :: chain_ops rest
      | None => chain_ops rest
      end
  end.

Definition is_prefix {A} (l full : list A) : Prop := exists rest, full = l ++ rest.

(** The two orders in which a swap of an ERC-20 input may reach the
    chain: with an allowance that suffices, and with one that does not,
    where the approval is submitted and confirmed before the swap is
    sent.  The last operation is the confirmation of the swap itself. *)
Definition direct_swap (owner : jsstring) (allowance : Z) (p : swap_params) (value : Z)
           (swapTx : tx) : list chain_op :=
  [ AllowanceRead (Chain.tokenIn p) owner UNISWAP_V3_ROUTER_ADDRESS allowance;
    SwapSent p value;
    Confirmed swapTx ].

Definition approved_swap (owner : jsstring) (allowance : Z) (approveTx : tx)
           (p : swap_params) (value : Z) (swapTx : tx) : list chain_op :=
  [ AllowanceRead (Chain.tokenIn p) owner UNISWAP_V3_ROUTER_ADDRESS allowance;
    ApprovalSubmitted (Chain.tokenIn p) UNISWAP_V3_ROUTER_ADDRESS MaxUint256 approveTx;
    Confirmed approveTx;
    SwapSent p value;
    Confirmed swapTx ].

(** A swap of ETH itself: nothing to approve, the amount travels as the
    value of the transaction. *)
Definition eth_swap (p : swap_params) (swapTx : tx) : list chain_op :=
  [ SwapSent p (Chain.amountIn p); Confirmed swapTx ].

Definition erc20_swap_order (ops : list chain_op) : Prop :=
  exists owner allowance approveTx p value swapTx,
    ((Chain.amountIn p <= allowance)%Z
     /\ is_prefix ops (direct_swap owner allowance p value swapTx))
    \/ ((allowance < Chain.amountIn p)%Z
        /\ is_prefix ops (approved_swap owner allowance approveTx p value swapTx)).

(** Every swap that was sent comes right after an allowance that
    sufficed, or right after an allowance that did not, the approval that
    was then submitted, and the confirmation of that approval. *)
Definition swap_follows_approval (ops : list chain_op) : Prop :=
  forall before p value after,
    ops = before ++ SwapSent p value :: after ->
    (exists owner allowance,
        (Chain.amountIn p <= allowance)%Z
        /\ before = [AllowanceRead (Chain.tokenIn p) owner UNISWAP_V3_ROUTER_ADDRESS
                                   allowance])
    \/ (exists owner allowance approveTx,
           (allowance < Chain.amountIn p)%Z
           /\ before = [AllowanceRead (Chain.tokenIn p) owner UNISWAP_V3_ROUTER_ADDRESS
                                      allowance;
                        ApprovalSubmitted (Chain.tokenIn p) UNISWAP_V3_ROUTER_ADDRESS
                                          MaxUint256 approveTx;
                        Confirmed approveTx]).

(** *** Nodes to run against *)

(** A node that rejects every call. *)
Definition rejected {A} : result A := throw RemoteCallError "execution reverted".

Definition dead_node (X : Type) (e : rpcE X) (w : unit) : X * unit :=
  (match e in rpcE X return X with
   | NewWallet _ => rejected
   | QuoteExactInputSingle _ _ _ _ _ => rejected
   | BalanceOf _ _ => rejected
   | Allowance _ _ _ => rejected
   | Approve _ _ _ => rejected
   | EstimateGas _ => rejected
   | ExactInputSingle _ _ _ => rejected
   | Wait _ => rejected
   | NowSeconds => 0%Z
   | Console _ _ => tt
   end, w).

(** A node on which only the 0.3% pool exists: a quote at fee 3000
    returns twice the input, any other quote reverts; balances and
    allowances are [allowance]; transactions go through.  Its state
    counts the calls it has answered. *)
Definition tier_3000_node (allowance : Z) (X : Type) (e : rpcE X) (w : nat) : X * nat :=
  (match e in rpcE X return X with
   | NewWallet _ => Ok (str "0x00000000000000000000000000000000000000AA")
   | QuoteExactInputSingle _ _ fee amountIn _ =>
       if (fee =? 3000)%Z then Ok (2 * amountIn)%Z else rejected
   | BalanceOf _ _ => Ok (10 ^ 18)%Z
   | Allowance _ _ _ => Ok allowance
   | Approve _ _ _ => Ok (mkTx (str "0xa1"))
   | EstimateGas _ => Ok 100000%Z
   | ExactInputSingle _ _ _ => Ok (mkTx (str "0xb2"))
   | Wait t => Ok (mkReceipt (hash t) 1)
   | NowSeconds => 1700000000%Z
   | Console _ _ => tt
   end, S w).

(** A two-token mapping file. *)
Definition sample_map : token_map :=
  [ (str "0xC02aaA39b223FE8D0A0e5C4F27eAD9083C756Cc2",
     mkInfo (str "Wrapped Ether") (str "WETH"));
    (str "0x6B175474E89094C44Da98b954EedeAC495271d0F",
     mkInfo (str "Dai Stablecoin") (str "DAI")) ].

(** POST /quote bodies: a token the mapping does not know, and an amount
    that is no decimal number. *)
Definition unknown_token_request : request :=
  mkRequest None (JString (str "1")) (JString (str "weth")) (JString (str "doge")).

Definition malformed_amount_request : request :=
  mkRequest None (JString (str "one")) (JString (str "weth")) (JString (str "dai")).

Definition good_request : request :=
  mkRequest (Some (str "0x0123")) (JString (str "1")) (JString (str "weth"))
            (JString (str "dai")).

(** The checks of a POST /quote body that precede the quote: both token
    strings resolve and the amount parses. *)
Definition validated (tokenMap : token_map) (req : request)
  : result (jsstring * jsstring * Z) :=
  tokenInAddress <-? AppV1.findTokenAddress_of tokenMap (Http.tokenIn req) ;;
  tokenOutAddress <-? AppV1.findTokenAddress_of tokenMap (Http.tokenOut req) ;;
  amountInWei <-? Json.parseEther (Http.amountIn req) ;;
  Ok (tokenInAddress, tokenOutAddress, amountInWei).

Definition missing_parameters_response : response :=
  mkResponse 400 (ErrorBody (str "Missing required parameters in request body")).

(** What a run of [getBestQuote] over [tiers] amounts to, for a variant
    that prints [log_of] per answer: it only quotes and prints; it
    returns the first success, or fails once every tier has failed. *)
Definition quote_selection (W : Type) (log_of : Z * result Z -> list (stream * jsstring))
           (tiers : list Z) (o : outcome W (result quote)) : Prop :=
  console_lines (trace o) = flat_map log_of (quote_answers (trace o))
  /\ chain_ops (trace o) = []
  /\ match returned o with
     | Ok q => first_success tiers (quote_answers (trace o)) q
     | Err e =>
         e = mkError NoLiquidityAvailable (message e)
         /\ all_failed tiers (quote_answers (trace o))
     end.

(** *** More vocabulary *)

Definition is_err {A} (r : result A) : Prop :=
  match r with
  | Ok _ => False
  | Err _ => True
  end.

Definition is_swap_sent (op : chain_op) : Prop :=
  match op with
  | SwapSent _ _ => True
  | _ => False
  end.

(** No swap was sent. *)
Definition no_swap_sent (ops : list chain_op) : Prop :=
  Forall (fun op => ~ is_swap_sent op) ops.

(** What the slippage heuristic of the service and of the script makes
    of a quoted amount, in integers. *)
Definition minimum_for (tokenIn tokenOut : jsstring) (amountOut : Z) : result Z :=
  if Js.eqb tokenIn (str "weth") && Js.eqb tokenOut (str "usdt")
  then throw NumericFault "underflow"
  else if Js.eqb tokenIn (str "weth") || Js.eqb tokenOut (str "weth")
  then Ok (Z.quot (amountOut * 99) 100)
  else Ok (Z.quot (amountOut * 97) 100).

(** *** Reading the calls of a trace *)

(** The events of a trace that [f] recognises, in order. *)
Fixpoint pick {A} (f : event -> option A) (tr : list event) : list A :=
  match tr with
  | [] => []
  | ev :: rest =>
      match f ev with
      | Some a => a :: pick f rest
      | None => pick f rest
      end
  end.

(** A call of [exactInputSingle]: parameters, gas limit, value, and what
    the router answered. *)
Definition swap_call (ev : event) : option (swap_params * Z * Z * result tx) :=
  match ev with
  | Event e x =>
      match e in rpcE X return X -> option (swap_params * Z * Z * result tx) with
      | ExactInputSingle params gasLimit value => fun r => Some (params, gasLimit, value, r)
      | _ => fun _ => None
      end x
  end.

Definition gas_estimate (ev : event) : option (swap_params * result Z) :=
  match ev with
  | Event e x =>
      match e in rpcE X return X -> option (swap_params * result Z) with
      | EstimateGas params => fun r => Some (params, r)
      | _ => fun _ => None
      end x
  end.

(** An awaited confirmation and its answer. *)
Definition wait_of (ev : event) : option (tx * result receipt) :=
  match ev with
  | Event e x =>
      match e in rpcE X return X -> option (tx * result receipt) with
      | Wait t => fun r => Some (t, r)
      | _ => fun _ => None
      end x
  end.

Definition clock_reading (ev : event) : option Z :=
  match ev with
  | Event e x =>
      match e in rpcE X return X -> option Z with
      | NowSeconds => fun now => Some now
      | _ => fun _ => None
      end x
  end.

Definition wallet_of (ev : event) : option (jsstring * result jsstring) :=
  match ev with
  | Event e x =>
      match e in rpcE X return X -> option (jsstring * result jsstring) with
      | NewWallet key => fun r => Some (key, r)
      | _ => fun _ => None
      end x
  end.

Definition balance_read (ev : event) : option (jsstring * jsstring * result Z) :=
  match ev with
  | Event e x =>
      match e in rpcE X return X -> option (jsstring * jsstring * result Z) with
      | BalanceOf token owner => fun r => Some (token, owner, r)
      | _ => fun _ => None
      end x
  end.

(** An event that only asks the quoter, for the given pair and amount at
    one of the given tiers, or prints. *)
Definition reads_quote (tokenIn tokenOut : jsstring) (amountIn : Z) (tiers : list Z)
           (ev : event) : Prop :=
  match ev with
  | Event e _ =>
      match e with
      | QuoteExactInputSingle tin tout fee amt limit =>
          tin = tokenIn /\ tout = tokenOut /\ In fee tiers /\ amt = amountIn /\ limit = 0%Z
      | Console _ _ => True
      | _ => False
      end
  end.

(** A projection that sees nothing in quote calls and printed lines. *)
Definition blind_to_quotes {A} (f : event -> option A) : Prop :=
  forall ev tokenIn tokenOut amountIn tiers,
    reads_quote tokenIn tokenOut amountIn tiers ev -> f ev = None.

(** What the third service makes of a quoted amount: always a minimum. *)
Definition minimum_by_address (tokenIn tokenOut : jsstring) (amountOut : Z) : Z :=
  if Js.eqb (toLowerCase tokenIn) (str "eth") && Js.eqb (toLowerCase tokenOut) (str "usdt")
  then Z.quot (amountOut * 99) 100
  else if Js.eqb (toLowerCase tokenIn) (str "eth") || Js.eqb (toLowerCase tokenOut) (str "eth")
  then Z.quot (amountOut * 98) 100
  else Z.quot (amountOut * 90) 100.

Definition insufficient_balance_response : response :=
  mkResponse 400 (ErrorBody (str "Insufficient token balance.")).

(** A swap that was sent once, was accepted, and whose confirmation was
    the last one awaited and arrived with [rcpt]. *)
Definition confirmed_swap (tr : list event) (rcpt : receipt) : Prop :=
  exists p gasLimit value swapTx earlier,
    pick swap_call tr = [(p, gasLimit, value, Ok swapTx)]
    /\ pick wait_of tr = earlier ++ [(swapTx, Ok rcpt)].

(** A mapping file that also lists a stablecoin. *)
Definition stable_map : token_map :=
  sample_map
  ++ [ (str "0xdAC17F958D2ee523a2206206994597C13D831ec7",
        mkInfo (str "Tether USD") (str "USDT")) ].

Definition weth_usdt_request : request :=
  mkRequest (Some (str "0x0123")) (JString (str "1")) (JString (str "WETH"))
            (JString (str "USDT")).

Definition dai_request : request :=
  mkRequest (Some (str "0x0123")) (JString (str "1")) (JString (str "dai"))
            (JString (str "weth")).

Definition large_dai_request : request :=
  mkRequest (Some (str "0x0123")) (JString (str "2")) (JString (str "dai"))
            (JString (str "weth")).

Definition address_request : request :=
  mkRequest (Some (str "0x0123")) (JString (str "1")) (JString (str "ETH"))
            (JString (str "0x6B175474E89094C44Da98b954EedeAC495271d0F")).

(** *** A quoter that answers by the fee tier alone *)

(** The first tier such a quoter can quote, and the calls made to find
    it: every tier up to and including that one. *)
Fixpoint first_quotable (quoter : Z -> result Z) (tiers : list Z) : option quote :=
  match tiers with
  | [] => None
  | fee :: rest =>
      match quoter fee with
      | Ok amountOut => Some (mkQuote fee amountOut)
      | Err _ => first_quotable quoter rest
      end
  end.

Fixpoint asked (quoter : Z -> result Z) (tiers : list Z) : list (Z * result Z) :=
  match tiers with
  | [] => []
  | fee :: rest =>
      (fee, quoter fee)
      :: match quoter fee with
         | Ok _ => []
         | Err _ => asked quoter rest
         end
  end.

Definition quoted (quoter : Z -> result Z) (tiers : list Z) (exhausted : string)
  : result quote :=
  match first_quotable quoter tiers with
  | Some q => Ok q
  | None => throw NoLiquidityAvailable exhausted
  end.

Definition only_tier_3000 (amountIn : Z) (fee : Z) : result Z :=
  if (fee =? 3000)%Z then Ok (2 * amountIn)%Z else rejected.

(** An event that asks the quoter (with no price limit) or prints. *)
Definition quotes_or_prints (ev : event) : Prop :=
  match ev with
  | Event e _ =>
      match e with
      | QuoteExactInputSingle _ _ _ _ limit => limit = 0%Z
      | Console _ _ => True
      | _ => False
      end
  end.

(** What a run of POST /quote over [tiers] amounts to: it only quotes
    and prints; a quote body carries the first tier that could be quoted
    and its amount as a decimal string, with status 200; an error body
    comes with 400 or 500 and without any quote that succeeded. *)
Definition quote_account (W : Type) (tiers : list Z) (o : outcome W response) : Prop :=
  Forall quotes_or_prints (trace o)
  /\ match body (returned o) with
     | QuoteBody feeTier amountOut =>
         status (returned o) = 200%Z
         /\ exists amount,
             first_success tiers (quote_answers (trace o)) (mkQuote feeTier amount)
             /\ amountOut = Units.formatUnits amount 18
     | ErrorBody _ =>
         (status (returned o) = 400 \/ status (returned o) = 500)%Z
         /\ Forall answer_failed (quote_answers (trace o))
     | SwapBody _ => False
     end.

(** The fees [getPoolAddress] hashes: those that fit 24 bits, and the
    negative ones above -2^26 that are no multiple of 2^24, which bn.js
    turns into their residue modulo 2^24. *)
Definition accepted_fee (fee : Z) : Prop :=
  (0 <= fee < 2 ^ 24)%Z \/ ((- 2 ^ 26 < fee < 0)%Z /\ (fee mod 2 ^ 24 <> 0)%Z).

(** * Properties *)

(** ** Test vectors *)

Example keccak_empty :
  Keccak.keccak256 [] =
  str "0xc5d2460186f7233c927e7db2dcc703c0e500b653ca82273b7bfad8045d85a470".
Proof. vm_compute. reflexivity. Qed.

Example keccak_abc :
  Keccak.keccak256 (ascii_bytes (str "abc")) =
  str "0x4e03657aea45a94fc7d47ba826c8d667c0d1e6e33a64a036ec44f58fa12d6c45".
Proof. vm_compute. reflexivity. Qed.

(** Padding that is one byte long, a message of exactly one block, and
    a message of more than one block. *)
Example keccak_long :
  Keccak.keccak256 (repeat "a"%byte 135) =
  str "0x34367dc248bbd832f4e3e69dfaac2f92638bd0bbd18f2912ba4ef454919cf446"
  /\ Keccak.keccak256 (repeat "a"%byte 136) =
     str "0xa6c4d403279fe3e0af03729caada8374b5ca54d8065329a3ebcaeb4b60aa386e"
  /\ Keccak.keccak256 (repeat "a"%byte 200) =
     str "0x96ea54061def936c4be90b518992fdc6f12f535068a256229aca54267b4d084d".
Proof. vm_compute. repeat split; reflexivity. Qed.

Example getAddress_weth_lower :
  Address.getAddress (str "0xc02aaa39b223fe8d0a0e5c4f27ead9083c756cc2") = Ok PoolLocator.tokenA.
Proof. vm_compute. reflexivity. Qed.

Example getAddress_icap :
  Address.getAddress (str "XE65GB6LDNXYOFTX0NSV3FUWKOWIXAMJK36") =
  Ok (str "0x8ba1f109551bD432803012645Ac136ddd64DBA72").
Proof. vm_compute. reflexivity. Qed.





(** ** Strings *)

Section JsFacts.

Lemma lower_char_idempotent (c : ascii) : lower_char (lower_char c) = lower_char c.
Proof. destruct c as [[] [] [] [] [] [] [] []]; reflexivity. Qed.

Lemma toLowerCase_idempotent (s : jsstring) : toLowerCase (toLowerCase s) = toLowerCase s.
Proof.
  unfold toLowerCase. rewrite map_map.
  apply map_ext. intro c. apply lower_char_idempotent.
Qed.

Lemma lower_upper_char (c : ascii) : lower_char (upper_char c) = lower_char c.
Proof. destruct c as [[] [] [] [] [] [] [] []]; reflexivity. Qed.

Lemma eqb_eq (s t : jsstring) : Js.eqb s t = true <-> s = t.
Proof.
  revert t. induction s as [|c s IH]; intros [|d t]; simpl; split; intro H;
    try reflexivity; try discriminate.
  - apply andb_true_iff in H. destruct H as [Hc Hs].
    apply Ascii.eqb_eq in Hc. apply IH in Hs. congruence.
  - injection H as -> ->. apply andb_true_iff. split.
    + apply Ascii.eqb_refl.
    + apply IH. reflexivity.
Qed.

Lemma eqb_refl (s : jsstring) : Js.eqb s s = true.
Proof. apply eqb_eq. reflexivity. Qed.

Lemma code_inj (c d : ascii) : code c = code d -> c = d.
Proof.
  unfold code. intro H.
  rewrite <- (ascii_N_embedding c), <- (ascii_N_embedding d). now rewrite H.
Qed.

Lemma ltb_irrefl (s : jsstring) : Js.ltb s s = false.
Proof.
  induction s as [|c s IH]; simpl; [reflexivity|].
  rewrite N.ltb_irrefl. exact IH.
Qed.

Lemma ltb_asym (s t : jsstring) : Js.ltb s t = true -> Js.ltb t s = false.
Proof.
  revert t. induction s as [|c s IH]; intros [|d t]; simpl; intro H;
    try reflexivity; try discriminate.
  destruct (code c <? code d)%N eqn:Hcd.
  - apply N.ltb_lt in Hcd.
    destruct (code d <? code c)%N eqn:Hdc; [apply N.ltb_lt in Hdc; lia|reflexivity].
  - destruct (code d <? code c)%N eqn:Hdc; [discriminate|].
    apply IH. exact H.
Qed.

(** Two strings neither of which is below the other are equal. *)
Lemma ltb_total (s t : jsstring) : Js.ltb s t = false -> Js.ltb t s = false -> s = t.
Proof.
  revert t. induction s as [|c s IH]; intros [|d t]; simpl; intros H1 H2;
    try reflexivity; try discriminate.
  destruct (code c <? code d)%N eqn:Hcd; [discriminate|].
  destruct (code d <? code c)%N eqn:Hdc; [discriminate|].
  apply N.ltb_ge in Hcd. apply N.ltb_ge in Hdc.
  assert (c = d) by (apply code_inj; lia). subst d.
  f_equal. apply IH; assumption.
Qed.

End JsFacts.

(** ** Token resolution *)

Section TokenResolution.

Lemma entry_matches_lower (s : jsstring) (info : token_info) :
  entry_matches (toLowerCase s) info <-> entry_matches s info.
Proof. unfold entry_matches. rewrite toLowerCase_idempotent. tauto. Qed.

Lemma entry_test (s : jsstring) (info : token_info) :
  Js.eqb (toLowerCase (name info)) (toLowerCase s)
  || Js.eqb (toLowerCase (symbol info)) (toLowerCase s) = true
  <-> entry_matches s info.
Proof.
  unfold entry_matches. rewrite orb_true_iff, !eqb_eq. tauto.
Qed.

Lemma find_entry_some (tm : token_map) (s address : jsstring) :
  AppV1.find_entry (toLowerCase s) tm = Some address -> first_match tm s address.
Proof.
  induction tm as [|[a info] tm IH]; simpl; [discriminate|].
  destruct (Js.eqb (toLowerCase (name info)) (toLowerCase s)
            || Js.eqb (toLowerCase (symbol info)) (toLowerCase s)) eqn:Htest.
  - intros [= <-]. exists [], info, tm. repeat split.
    + apply entry_test. exact Htest.
    + constructor.
  - intro H. destruct (IH H) as (before & info' & after & -> & Hm & Hnone).
    exists ((a, info) :: before), info', after. repeat split; [exact Hm|].
    constructor; [|exact Hnone].
    simpl. intro Hyes. apply entry_test in Hyes. congruence.
Qed.

Lemma find_entry_none (tm : token_map) (s : jsstring) :
  AppV1.find_entry (toLowerCase s) tm = None -> no_match tm s.
Proof.
  induction tm as [|[a info] tm IH]; simpl; [constructor|].
  destruct (Js.eqb (toLowerCase (name info)) (toLowerCase s)
            || Js.eqb (toLowerCase (symbol info)) (toLowerCase s)) eqn:Htest;
    [discriminate|].
  intro H. constructor; [|apply IH; exact H].
  simpl. intro Hyes. apply entry_test in Hyes. congruence.
Qed.

End TokenResolution.

(** C10. Case-insensitive token resolution: in both the service and the
    command-line script, [findTokenAddress s] and
    [findTokenAddress (s.toLowerCase())] agree: either both return the
    address of the first mapping entry whose name or symbol equals [s]
    case-insensitively, or no entry does and both raise a
    token-not-found error. *)
Theorem findTokenAddress_case_insensitive (tokenMap : token_map) (s : jsstring) :
  let agree (find : jsstring -> result jsstring) :=
    (exists address,
        find s = Ok address /\ find (toLowerCase s) = Ok address
        /\ first_match tokenMap s address)
    \/ (exists e1 e2,
           find s = Err e1 /\ find (toLowerCase s) = Err e2
           /\ kind e1 = TokenNotFound /\ kind e2 = TokenNotFound
           /\ no_match tokenMap s) in
  agree (AppV1.findTokenAddress tokenMap)
  /\ agree (SwapFromMapping.findTokenAddress tokenMap).
Proof.
  cbv zeta. unfold AppV1.findTokenAddress, SwapFromMapping.findTokenAddress.
  rewrite toLowerCase_idempotent.
  destruct (AppV1.find_entry (toLowerCase s) tokenMap) as [address|] eqn:Hfind.
  - pose proof (find_entry_some _ _ Hfind) as Hfirst.
    split; left; exists address; repeat split; assumption.
  - pose proof (find_entry_none _ _ Hfind) as Hnone.
    split; right; eexists; eexists; repeat split; assumption.
Qed.

(** ** Slippage *)

Section Slippage.

Import JsNumber.

Lemma doubled_base_is_one_percent :
  JsNumber.min (mul (literal 5 3) (of_Z 2)) (literal 3 2) = literal 1 2.
Proof. vm_compute. reflexivity. Qed.

Lemma factor_half_percent :
  to_BigNumber (sub (of_Z 100) (mul (literal 5 3) (of_Z 100)))
  = throw NumericFault "underflow".
Proof. vm_compute. reflexivity. Qed.

Lemma factor_one_percent :
  to_BigNumber (sub (of_Z 100) (mul (literal 1 2) (of_Z 100))) = Ok 99%Z.
Proof. vm_compute. reflexivity. Qed.

Lemma factor_three_percent :
  to_BigNumber (sub (of_Z 100) (mul (literal 3 2) (of_Z 100))) = Ok 97%Z.
Proof. vm_compute. reflexivity. Qed.

Lemma scaled_down_le (a f : Z) :
  (0 <= a -> 0 <= f <= 100 -> Z.quot (a * f) 100 <= a)%Z.
Proof.
  intros Ha Hf. rewrite Z.quot_div_nonneg by nia.
  apply Z.div_le_upper_bound; nia.
Qed.

End Slippage.

(** C9. Slippage bounds: [calculateSlippage] (service and script alike)
    returns one of 0.005, 0.01 and 0.03, so its result lies between
    BASE_SLIPPAGE and MAX_SLIPPAGE inclusive; and the minimum output
    derived from a non-negative quoted [amountOut] never exceeds it.  The
    minimum is derived for 0.01 and 0.03 (the factors 99 and 97); for
    0.005 the factor 99.5 is no integer and the multiplication raises a
    numeric fault instead of deriving a minimum. *)
Theorem slippage_bounds (tokenIn tokenOut : jsstring) (amountOut : Z)
        (Hquoted : (0 <= amountOut)%Z) :
  let bounded (calculateSlippage : jsstring -> jsstring -> JsNumber.number)
              (amountOutMinimum_of : Z -> JsNumber.number -> result Z) :=
    let slippage := calculateSlippage tokenIn tokenOut in
    (slippage = JsNumber.literal 5 3 \/ slippage = JsNumber.literal 1 2
     \/ slippage = JsNumber.literal 3 2)
    /\ JsNumber.leb SwapFromMapping.BASE_SLIPPAGE slippage = true
    /\ JsNumber.leb slippage SwapFromMapping.MAX_SLIPPAGE = true
    /\ match amountOutMinimum_of amountOut slippage with
       | Ok amountOutMinimum =>
           (amountOutMinimum <= amountOut)%Z
           /\ (slippage = JsNumber.literal 1 2 \/ slippage = JsNumber.literal 3 2)
       | Err e => slippage = JsNumber.literal 5 3 /\ kind e = NumericFault
       end in
  bounded AppV2.calculateSlippage AppV2.amountOutMinimum_of
  /\ bounded SwapFromMapping.calculateSlippage SwapFromMapping.amountOutMinimum_of.
Proof.
  cbv zeta.
  unfold AppV2.calculateSlippage, SwapFromMapping.calculateSlippage,
    AppV2.amountOutMinimum_of, SwapFromMapping.amountOutMinimum_of,
    SwapFromMapping.BASE_SLIPPAGE, SwapFromMapping.MAX_SLIPPAGE.
  rewrite doubled_base_is_one_percent.
  assert (H05 : JsNumber.leb (JsNumber.literal 5 3) (JsNumber.literal 5 3) = true)
    by (vm_compute; reflexivity).
  assert (H01 : JsNumber.leb (JsNumber.literal 5 3) (JsNumber.literal 1 2) = true
                /\ JsNumber.leb (JsNumber.literal 1 2) (JsNumber.literal 3 2) = true)
    by (split; vm_compute; reflexivity).
  assert (H03 : JsNumber.leb (JsNumber.literal 5 3) (JsNumber.literal 3 2) = true
                /\ JsNumber.leb (JsNumber.literal 3 2) (JsNumber.literal 3 2) = true)
    by (split; vm_compute; reflexivity).
  destruct H01 as [H01a H01b]. destruct H03 as [H03a H03b].
  destruct (Js.eqb tokenIn (str "weth") && Js.eqb tokenOut (str "usdt"));
    [|destruct (Js.eqb tokenIn (str "weth") || Js.eqb tokenOut (str "weth"))].
  - rewrite factor_half_percent. unfold throw, bind_result. cbn [kind].
    repeat split; auto.
  - rewrite factor_one_percent. unfold bind_result.
    repeat split; auto; apply scaled_down_le; lia.
  - rewrite factor_three_percent. unfold bind_result.
    repeat split; auto; apply scaled_down_le; lia.
Qed.

Lemma slippage_bounds_witness :
  (0 <= 1000)%Z
  /\ JsNumber.leb (AppV2.calculateSlippage (str "weth") (str "dai"))
                  SwapFromMapping.MAX_SLIPPAGE = true.
Proof.
  split; [lia|].
  exact (proj1 (proj2 (proj2 (proj1
           (slippage_bounds (str "weth") (str "dai") (amountOut := 1000) ltac:(lia)))))).
Defined.

(** ** Hexadecimal strings *)

Arguments Keccak.digest : simpl never.

Section HexFacts.

Import Bytes.

Lemma hexdigits_cons (b : byte) (bs : list byte) :
  hexdigits (b :: bs) = hex_of_byte b ++ hexdigits bs.
Proof. reflexivity. Qed.

Lemma bytes_of_hex_of_byte (b : byte) (rest : jsstring) :
  bytes_of_hexdigits (hex_of_byte b ++ rest)
  = option_map (cons b) (bytes_of_hexdigits rest).
Proof. destruct b; reflexivity. Qed.

Lemma hex_of_byte_is_hex (b : byte) : forallb is_hexchar (hex_of_byte b) = true.
Proof. destruct b; reflexivity. Qed.

Lemma hex_of_byte_lower (b : byte) : toLowerCase (hex_of_byte b) = hex_of_byte b.
Proof. destruct b; reflexivity. Qed.

Lemma hex_of_byte_no_upper (b : byte) :
  existsb Address.is_upper_hex (hex_of_byte b) = false.
Proof. destruct b; reflexivity. Qed.

Lemma bytes_of_hexdigits_hexdigits (bs : list byte) :
  bytes_of_hexdigits (hexdigits bs) = Some bs.
Proof.
  induction bs as [|b bs IH]; [reflexivity|].
  rewrite hexdigits_cons, bytes_of_hex_of_byte, IH. reflexivity.
Qed.

Lemma hexdigits_are_hex (bs : list byte) : forallb is_hexchar (hexdigits bs) = true.
Proof.
  induction bs as [|b bs IH]; [reflexivity|].
  rewrite hexdigits_cons, forallb_app, hex_of_byte_is_hex, IH. reflexivity.
Qed.

Lemma hexdigits_lower (bs : list byte) : toLowerCase (hexdigits bs) = hexdigits bs.
Proof.
  induction bs as [|b bs IH]; [reflexivity|].
  rewrite hexdigits_cons. unfold toLowerCase in *.
  rewrite map_app. fold (toLowerCase (hex_of_byte b)).
  rewrite hex_of_byte_lower, IH. reflexivity.
Qed.

Lemma hexdigits_no_upper (bs : list byte) :
  existsb Address.is_upper_hex (hexdigits bs) = false.
Proof.
  induction bs as [|b bs IH]; [reflexivity|].
  rewrite hexdigits_cons, existsb_app, hex_of_byte_no_upper, IH. reflexivity.
Qed.

Lemma length_hexdigits (bs : list byte) : length (hexdigits bs) = 2 * length bs.
Proof.
  induction bs as [|b bs IH]; [reflexivity|].
  rewrite hexdigits_cons, length_app, IH. simpl. lia.
Qed.

Lemma skipn_hexdigits (n : nat) (bs : list byte) :
  skipn (2 * n) (hexdigits bs) = hexdigits (skipn n bs).
Proof.
  revert bs. induction n as [|n IH]; intro bs; [reflexivity|].
  destruct bs as [|b bs]; [reflexivity|].
  replace (2 * S n) with (S (S (2 * n))) by lia.
  rewrite hexdigits_cons. cbn [hex_of_byte app skipn]. apply IH.
Qed.

(** [arrayify] undoes [hexlify]. *)
Lemma arrayify_hexlify (bs : list byte) : arrayify (hexlify bs) = Ok bs.
Proof.
  unfold hexlify, arrayify. cbn [str list_ascii_of_string app].
  rewrite hexdigits_are_hex, bytes_of_hexdigits_hexdigits. reflexivity.
Qed.

(** An even number of hexadecimal digits always decodes. *)
Lemma bytes_of_hexdigits_total (n : nat) (ds : jsstring) :
  length ds = 2 * n -> forallb is_hexchar ds = true ->
  exists bs, bytes_of_hexdigits ds = Some bs /\ length bs = n.
Proof.
  revert ds. induction n as [|n IH]; intros ds Hlen Hhex.
  - destruct ds; [|discriminate]. exists []. split; reflexivity.
  - destruct ds as [|h [|l rest]]; try (simpl in Hlen; lia).
    cbn [forallb] in Hhex.
    apply andb_true_iff in Hhex. destruct Hhex as [Hh Hhex].
    apply andb_true_iff in Hhex. destruct Hhex as [Hl Hrest].
    destruct (IH rest) as (bs & Hbs & Hn); [simpl in Hlen; lia|exact Hrest|].
    unfold is_hexchar in Hh, Hl.
    cbn [bytes_of_hexdigits].
    destruct (hexval h) as [a|]; [|discriminate].
    destruct (hexval l) as [b|]; [|discriminate].
    rewrite Hbs. eexists. split; [reflexivity|]. simpl. lia.
Qed.

End HexFacts.

(** ** Keccak: the digest has 32 bytes *)

Section KeccakFacts.

Import Keccak.

Lemma length_iota (rc : N) (A : state) : length (iota rc A) = length A.
Proof. destruct A; reflexivity. Qed.

Lemma length_round (A : state) (rc : N) : length (round A rc) = 25.
Proof.
  unfold round, chi. rewrite length_iota, length_map, length_seq. reflexivity.
Qed.

Lemma length_rounds (rcs : list N) (A : state) :
  length A = 25 -> length (fold_left round rcs A) = 25.
Proof.
  revert A. induction rcs as [|rc rcs IH]; intros A HA; [exact HA|].
  cbn [fold_left]. apply IH. apply length_round.
Qed.

Lemma length_absorb_block (A : state) (blk : list byte) :
  length (absorb_block A blk) = 25.
Proof.
  unfold absorb_block, keccak_f. apply length_rounds.
  rewrite length_map, length_seq. reflexivity.
Qed.

Lemma length_absorb (fuel : nat) (A : state) (p : list byte) :
  length A = 25 -> length (absorb fuel A p) = 25.
Proof.
  revert A p. induction fuel as [|fuel IH]; intros A p HA.
  - destruct p; exact HA.
  - destruct p as [|b p]; [exact HA|].
    cbn [absorb]. apply IH. apply length_absorb_block.
Qed.

Lemma length_lane_bytes (v : N) : length (lane_bytes v) = 8.
Proof. unfold lane_bytes. rewrite length_map, length_seq. reflexivity. Qed.

Lemma length_digest (msg : list byte) : length (digest msg) = 32.
Proof.
  unfold digest, squeeze.
  rewrite (flat_map_constant_length (c := 8)) by (intros; apply length_lane_bytes).
  rewrite length_firstn, length_absorb by (apply repeat_length). reflexivity.
Qed.

End KeccakFacts.

(** ** Addresses: what [getAddress] returns *)

Section AddressFacts.

Import Bytes Address.

Lemma is_hexchar_upper (c : ascii) : is_hexchar (upper_char c) = is_hexchar c.
Proof. destruct c as [[] [] [] [] [] [] [] []]; reflexivity. Qed.

Lemma is_hexchar_lower (c : ascii) : is_hexchar (lower_char c) = is_hexchar c.
Proof. destruct c as [[] [] [] [] [] [] [] []]; reflexivity. Qed.

Lemma length_apply_checksum (hashed : list byte) (i : nat) (chars : jsstring) :
  length (apply_checksum hashed i chars) = length chars.
Proof.
  revert i. induction chars as [|c chars IH]; intro i; [reflexivity|].
  cbn [apply_checksum length]. now rewrite IH.
Qed.

Lemma lower_apply_checksum (hashed : list byte) (i : nat) (chars : jsstring) :
  toLowerCase (apply_checksum hashed i chars) = toLowerCase chars.
Proof.
  revert i. induction chars as [|c chars IH]; intro i; [reflexivity|].
  cbn [apply_checksum toLowerCase map]. f_equal.
  - destruct (8 <=? nibble hashed i)%N; [apply lower_upper_char|reflexivity].
  - apply IH.
Qed.

Lemma hex_apply_checksum (hashed : list byte) (i : nat) (chars : jsstring) :
  forallb is_hexchar (apply_checksum hashed i chars) = forallb is_hexchar chars.
Proof.
  revert i. induction chars as [|c chars IH]; intro i; [reflexivity|].
  cbn [apply_checksum forallb]. rewrite IH. f_equal.
  destruct (8 <=? nibble hashed i)%N; [apply is_hexchar_upper|reflexivity].
Qed.

Lemma hex_toLowerCase (ds : jsstring) :
  forallb is_hexchar (toLowerCase ds) = forallb is_hexchar ds.
Proof.
  induction ds as [|c ds IH]; [reflexivity|].
  cbn [toLowerCase map forallb]. fold (toLowerCase ds).
  now rewrite IH, is_hexchar_lower.
Qed.

(** A string that passes [isHexString] is "0x" followed by hexadecimal
    digits. *)
Lemma isHexString_shape (s : jsstring) :
  isHexString s = true ->
  exists ds, s = "0"%char :: "x"%char :: ds /\ forallb is_hexchar ds = true.
Proof.
  destruct s as [|c0 [|c1 ds]]; try discriminate.
  - destruct c0 as [[] [] [] [] [] [] [] []]; discriminate.
  - destruct c0 as [[] [] [] [] [] [] [] []]; try discriminate.
    destruct c1 as [[] [] [] [] [] [] [] []]; try discriminate.
    intro H. exists ds. split; [reflexivity|exact H].
Qed.

Lemma getChecksumAddress_canonical (s a : jsstring) :
  getChecksumAddress s = Ok a -> canonical a.
Proof.
  unfold getChecksumAddress.
  destruct (isHexStringLen s 20) eqn:Hhex; [|discriminate].
  intros [= <-].
  unfold isHexStringLen in Hhex. apply andb_true_iff in Hhex.
  destruct Hhex as [Hshape Hlen]. apply Nat.eqb_eq in Hlen.
  destruct (isHexString_shape _ Hshape) as (ds & -> & Hds).
  exists (toLowerCase ds). cbn [length] in Hlen.
  repeat split.
  - unfold toLowerCase. rewrite length_map. lia.
  - rewrite hex_toLowerCase. exact Hds.
  - apply toLowerCase_idempotent.
Qed.

Lemma getChecksumAddress_error (s : jsstring) (e : error) :
  getChecksumAddress s = Err e -> kind e = InvalidAddress.
Proof.
  unfold getChecksumAddress.
  destruct (isHexStringLen s 20); [discriminate|].
  intros [= <-]. reflexivity.
Qed.

(** Whatever [getAddress] accepts, it returns in canonical form. *)
Lemma getAddress_canonical (s a : jsstring) : getAddress s = Ok a -> canonical a.
Proof.
  unfold getAddress.
  destruct (matches_hex_address s).
  - destruct (getChecksumAddress (if has_0x_prefix s then s else str "0x" ++ s))
      as [r|e] eqn:Hsum; [|discriminate].
    unfold bind_result.
    destruct (has_mixed_case _ && negb (Js.eqb r _)); [discriminate|].
    intros [= <-]. exact (getChecksumAddress_canonical _ Hsum).
  - destruct (matches_icap s); [|discriminate].
    destruct (negb (Js.eqb _ _)); [discriminate|].
    apply getChecksumAddress_canonical.
Qed.

(** Whatever [getAddress] rejects, it rejects as an invalid address. *)
Lemma getAddress_error (s : jsstring) (e : error) :
  getAddress s = Err e -> kind e = InvalidAddress.
Proof.
  unfold getAddress.
  destruct (matches_hex_address s).
  - destruct (getChecksumAddress (if has_0x_prefix s then s else str "0x" ++ s))
      as [r|e'] eqn:Hsum; unfold bind_result.
    + destruct (has_mixed_case _ && negb (Js.eqb r _)); [|discriminate].
      intros [= <-]. reflexivity.
    + intros [= <-]. exact (getChecksumAddress_error _ Hsum).
  - destruct (matches_icap s).
    + destruct (negb (Js.eqb _ _)).
      * intros [= <-]. reflexivity.
      * apply getChecksumAddress_error.
    + intros [= <-]. reflexivity.
Qed.

Lemma canonical_lower (a : jsstring) :
  canonical a ->
  a = "0"%char :: "x"%char :: checksum_chars (skipn 2 (toLowerCase a)).
Proof.
  intros (chars & -> & _ & _ & Hlow).
  cbn [toLowerCase map skipn]. fold (toLowerCase (checksum_chars chars)).
  assert (H : toLowerCase (checksum_chars chars) = chars)
    by (unfold checksum_chars; rewrite lower_apply_checksum; exact Hlow).
  rewrite H. reflexivity.
Qed.

(** A canonical address is determined by its lowercase form. *)
Lemma canonical_determined (a b : jsstring) :
  canonical a -> canonical b -> toLowerCase a = toLowerCase b -> a = b.
Proof.
  intros Ha Hb Heq.
  rewrite (canonical_lower Ha), (canonical_lower Hb), Heq. reflexivity.
Qed.

(** The bytes of a canonical address: [arrayify] yields the 20 bytes the
    specification hashes. *)
Lemma canonical_arrayify (a : jsstring) :
  canonical a ->
  arrayify a = Ok (LocatorSpec.address_bytes a)
  /\ length (LocatorSpec.address_bytes a) = 20.
Proof.
  intros (chars & -> & Hlen & Hhex & _).
  unfold arrayify, LocatorSpec.address_bytes. cbn [skipn].
  assert (Hhex' : forallb is_hexchar (checksum_chars chars) = true)
    by (unfold checksum_chars; rewrite hex_apply_checksum; exact Hhex).
  rewrite Hhex'.
  destruct (@bytes_of_hexdigits_total 20 (checksum_chars chars))
    as (bs & -> & Hbs); [|exact Hhex'|].
  - unfold checksum_chars. rewrite length_apply_checksum. exact Hlen.
  - split; [reflexivity|exact Hbs].
Qed.

(** The last call of [getPoolAddress]: "0x" and the digits of 20 bytes
    are always accepted, and put in checksummed form. *)
Lemma getAddress_hexdigits (bs : list byte) :
  length bs = 20 ->
  getAddress (str "0x" ++ hexdigits bs) = Ok (LocatorSpec.checksummed bs).
Proof.
  intro Hlen.
  assert (Hds : length (hexdigits bs) = 40) by (rewrite length_hexdigits; lia).
  unfold getAddress, matches_hex_address.
  cbn [str list_ascii_of_string app has_0x_prefix skipn].
  rewrite Hds, hexdigits_are_hex. cbn [Nat.eqb andb].
  unfold getChecksumAddress, isHexStringLen, isHexString.
  cbn [length]. rewrite Hds, hexdigits_are_hex. cbn [Nat.eqb Nat.mul Nat.add andb].
  cbn [toLowerCase map skipn]. fold (toLowerCase (hexdigits bs)).
  rewrite hexdigits_lower. unfold bind_result.
  unfold has_mixed_case. cbn [existsb]. rewrite hexdigits_no_upper.
  reflexivity.
Qed.

End AddressFacts.

(** ** Tight packing of the two hashes *)

Section PackingFacts.

Import Bytes Solidity.

Lemma be_bytes_pad3 (n : N) :
  (n < 2 ^ 24)%N ->
  zeroPad (be_bytes n) 3
  = Ok [byte_of_N (N.shiftr n 16); byte_of_N (N.shiftr n 8); byte_of_N n].
Proof.
  intro Hn.
  assert (Hlog : (N.log2 n < 24)%N).
  { destruct (N.eq_dec n 0) as [->|Hnz]; [reflexivity|].
    apply N.log2_lt_pow2; lia. }
  assert (Hk : (N.log2 n / 8 = 0 \/ N.log2 n / 8 = 1 \/ N.log2 n / 8 = 2)%N).
  { assert (Hq : (N.log2 n / 8 < 3)%N) by (apply N.Div0.div_lt_upper_bound; lia).
    revert Hq. generalize (N.log2 n / 8)%N. intros k Hq. lia. }
  pose proof (N.Div0.div_mod (N.log2 n) 8) as Hdm.
  pose proof (N.mod_upper_bound (N.log2 n) 8 ltac:(lia)) as Hr.
  unfold be_bytes, byte_length, zeroPad.
  destruct Hk as [Hk|[Hk|Hk]]; rewrite Hk in *;
    cbn [N.to_nat Pos.to_nat Pos.iter_op Nat.add seq map length Nat.ltb Nat.leb
         Nat.sub repeat app N.of_nat Pos.of_succ_nat Pos.succ N.mul Pos.mul Pos.add].
  - change (N.shiftr n 0) with n.
    rewrite (N.shiftr_eq_0 n 16), (N.shiftr_eq_0 n 8) by lia. reflexivity.
  - change (N.shiftr n 0) with n.
    rewrite (N.shiftr_eq_0 n 16) by lia. reflexivity.
  - reflexivity.
Qed.

(** A fee tier that fits 24 bits is packed on three bytes. *)
Lemma pack_uint24 (fee : Z) :
  (0 <= fee < 2 ^ 24)%Z -> _pack (Uint 24 fee) = Ok (LocatorSpec.fee_bytes fee).
Proof.
  intro Hfee. unfold _pack, toTwos.
  replace (fee <? 0)%Z with false by (symmetry; apply Z.ltb_ge; lia).
  change (Nat.eqb (24 mod 8) 0 && negb (Nat.eqb 24 0) && Nat.leb 24 256) with true.
  change (24 / 8) with 3. cbv iota.
  replace (0x1fffffffffffff <=? Z.abs fee)%Z with false
    by (symmetry; apply Z.leb_gt; change (2 ^ 24)%Z with 16777216%Z in Hfee; lia).
  rewrite be_bytes_pad3.
  - unfold LocatorSpec.fee_bytes.
    rewrite !N.shiftr_div_pow2, !Z2N.inj_div by lia. reflexivity.
  - change (2 ^ 24)%N with (Z.to_N (2 ^ 24)). apply Z2N.inj_lt; lia.
Qed.

Lemma keccak256_of_packed (args : list packed_arg) (bs : list byte) :
  concat_packed args = Ok bs ->
  Solidity.keccak256 args = Ok (Keccak.keccak256 bs).
Proof.
  intro H. unfold Solidity.keccak256, pack. rewrite H.
  cbn [bind_result]. rewrite arrayify_hexlify. reflexivity.
Qed.

Lemma pack_marker : _pack (BytesDyn (str "0xff")) = Ok [xff].
Proof. reflexivity. Qed.

Lemma pack_factory :
  _pack (Address PoolLocator.FACTORY_ADDRESS) = Ok LocatorSpec.factory_bytes.
Proof. vm_compute. reflexivity. Qed.

Lemma pack_init_code_hash :
  _pack (BytesN 32 PoolLocator.POOL_INIT_CODE_HASH) = Ok LocatorSpec.init_code_hash_bytes.
Proof. vm_compute. reflexivity. Qed.

Lemma pack_digest (data : list byte) :
  _pack (BytesN 32 (Keccak.keccak256 data)) = Ok (Keccak.digest data).
Proof.
  unfold _pack, Keccak.keccak256. cbn [Nat.eqb Nat.leb negb andb].
  rewrite arrayify_hexlify. cbn [bind_result].
  rewrite length_digest. reflexivity.
Qed.

(** The hexadecimal text of the low 20 bytes of a 32-byte digest. *)
Lemma slice_digest (data : list byte) :
  slice_last 40 (Keccak.keccak256 data)
  = hexdigits (LocatorSpec.low20 (Keccak.digest data)).
Proof.
  unfold slice_last, Keccak.keccak256, hexlify, LocatorSpec.low20.
  cbn [str list_ascii_of_string app length].
  rewrite length_hexdigits, length_digest.
  change (S (S (2 * 32)) - 40) with (S (S (2 * 12))).
  cbn [skipn]. apply skipn_hexdigits.
Qed.

Lemma length_low20_digest (data : list byte) :
  length (LocatorSpec.low20 (Keccak.digest data)) = 20.
Proof.
  unfold LocatorSpec.low20. rewrite length_skipn, length_digest. reflexivity.
Qed.

(** The three hashing steps of [getPoolAddress], once the tokens are
    ordered. *)
Lemma ordered_pool_address (token0 token1 : jsstring) (fee : Z) :
  canonical token0 -> canonical token1 -> (0 <= fee < 2 ^ 24)%Z ->
  (salt <-? Solidity.keccak256 [Address token0; Address token1; Uint 24 fee] ;;
   create2Hash <-?
     Solidity.keccak256 [BytesDyn (str "0xff"); Address PoolLocator.FACTORY_ADDRESS;
                         BytesN 32 salt; BytesN 32 PoolLocator.POOL_INIT_CODE_HASH] ;;
   Address.getAddress (str "0x" ++ slice_last 40 create2Hash))
  = Ok (LocatorSpec.checksummed
          (LocatorSpec.low20
             (LocatorSpec.second_fingerprint
                (LocatorSpec.first_fingerprint token0 token1 fee)))).
Proof.
  intros H0 H1 Hfee.
  destruct (canonical_arrayify H0) as [Ha0 _].
  destruct (canonical_arrayify H1) as [Ha1 _].
  rewrite (@keccak256_of_packed _
             (LocatorSpec.address_bytes token0 ++ LocatorSpec.address_bytes token1
                ++ LocatorSpec.fee_bytes fee)).
  2:{ cbn [concat_packed]. cbn [_pack]. rewrite Ha0, Ha1.
      fold (_pack (Uint 24 fee)). rewrite (pack_uint24 Hfee).
      cbn [bind_result]. rewrite app_nil_r. reflexivity. }
  cbn [bind_result].
  fold (LocatorSpec.first_fingerprint token0 token1 fee).
  set (first := LocatorSpec.first_fingerprint token0 token1 fee).
  rewrite (@keccak256_of_packed _
             ([xff] ++ LocatorSpec.factory_bytes ++ Keccak.digest
                (LocatorSpec.address_bytes token0 ++ LocatorSpec.address_bytes token1
                   ++ LocatorSpec.fee_bytes fee) ++ LocatorSpec.init_code_hash_bytes)).
  2:{ cbn [concat_packed].
      rewrite pack_marker, pack_factory, pack_digest, pack_init_code_hash.
      cbn [bind_result]. rewrite app_nil_r. reflexivity. }
  cbn [bind_result].
  rewrite slice_digest, getAddress_hexdigits by apply length_low20_digest.
  reflexivity.
Qed.

End PackingFacts.

(** ** The pool locator *)

(** C1. Order independence of the pool locator: for well-formed token
    addresses [A] and [B] (those [getAddress] accepts) and every fee tier,
    [getPoolAddress A B fee] and [getPoolAddress B A fee] are the same,
    because the two normalised tokens are ordered by their lowercase form
    before hashing. *)
Theorem getPoolAddress_order_independent (A B a b : jsstring) (fee : Z)
        (HA : Address.getAddress A = Ok a) (HB : Address.getAddress B = Ok b) :
  PoolLocator.getPoolAddress A B fee = PoolLocator.getPoolAddress B A fee.
Proof.
  unfold PoolLocator.getPoolAddress. rewrite HA, HB. cbn [bind_result].
  destruct (Js.ltb (toLowerCase a) (toLowerCase b)) eqn:Hab.
  - rewrite (ltb_asym _ _ Hab). reflexivity.
  - destruct (Js.ltb (toLowerCase b) (toLowerCase a)) eqn:Hba; [reflexivity|].
    assert (a = b) as ->.
    { apply canonical_determined; eauto using getAddress_canonical, ltb_total. }
    reflexivity.
Qed.

Lemma getPoolAddress_order_independent_witness :
  PoolLocator.getPoolAddress PoolLocator.tokenA PoolLocator.tokenB 3000
  = PoolLocator.getPoolAddress PoolLocator.tokenB PoolLocator.tokenA 3000.
Proof.
  apply (@getPoolAddress_order_independent
           PoolLocator.tokenA PoolLocator.tokenB PoolLocator.tokenA PoolLocator.tokenB);
    vm_compute; reflexivity.
Defined.

(** C2. The algorithm of the pool locator: for well-formed token addresses
    and a fee tier that fits [uint24], [getPoolAddress] (1) normalises
    both identifiers to checksummed form, (2) orders them ascending by
    lowercase value into (token0, token1), (3) hashes the triple
    (token0, token1, fee), (4) hashes the marker 0xff, the factory
    address, the first hash and the init-code-hash constant, and (5)
    returns the low 20 bytes of the second hash in checksummed form. *)
Theorem getPoolAddress_algorithm (A B a b : jsstring) (fee : Z)
        (HA : Address.getAddress A = Ok a) (HB : Address.getAddress B = Ok b)
        (Hfee : (0 <= fee < 2 ^ 24)%Z) :
  canonical a /\ canonical b
  /\ PoolLocator.getPoolAddress A B fee = Ok (LocatorSpec.locatePool a b fee).
Proof.
  pose proof (getAddress_canonical _ HA) as Ha.
  pose proof (getAddress_canonical _ HB) as Hb.
  split; [exact Ha|]. split; [exact Hb|].
  unfold PoolLocator.getPoolAddress, LocatorSpec.locatePool.
  rewrite HA, HB. cbn [bind_result].
  destruct (Js.ltb (toLowerCase a) (toLowerCase b));
    apply ordered_pool_address; assumption.
Qed.

Lemma getPoolAddress_algorithm_witness :
  PoolLocator.getPoolAddress PoolLocator.tokenA PoolLocator.tokenB 3000
  = Ok (LocatorSpec.locatePool PoolLocator.tokenA PoolLocator.tokenB 3000).
Proof.
  refine (proj2 (proj2 (@getPoolAddress_algorithm
            PoolLocator.tokenA PoolLocator.tokenB PoolLocator.tokenA PoolLocator.tokenB
            3000 _ _ _))).
  - vm_compute. reflexivity.
  - vm_compute. reflexivity.
  - lia.
Defined.

(** C6. Invalid addresses: [getPoolAddress] fails with the
    invalid-address error of [getAddress] as soon as one of its two token
    identifiers is not well-formed, and succeeds, as a pure computation,
    when both are well-formed and the fee tier fits [uint24]. *)
Theorem getPoolAddress_invalid_address (A B : jsstring) (fee : Z) :
  match Address.getAddress A, Address.getAddress B with
  | Ok _, Ok _ =>
      (0 <= fee < 2 ^ 24)%Z -> exists pool, PoolLocator.getPoolAddress A B fee = Ok pool
  | Err e, _ | Ok _, Err e =>
      PoolLocator.getPoolAddress A B fee = Err e /\ kind e = InvalidAddress
  end.
Proof.
  destruct (Address.getAddress A) as [a|e] eqn:HA.
  - destruct (Address.getAddress B) as [b|e] eqn:HB.
    + intro Hfee.
      pose proof (getAddress_canonical _ HA) as Ha.
      pose proof (getAddress_canonical _ HB) as Hb.
      unfold PoolLocator.getPoolAddress. rewrite HA, HB. cbn [bind_result].
      destruct (Js.ltb (toLowerCase a) (toLowerCase b));
        eexists; apply ordered_pool_address; assumption.
    + split; [|exact (getAddress_error _ HB)].
      unfold PoolLocator.getPoolAddress. rewrite HA, HB. reflexivity.
  - split; [|exact (getAddress_error _ HA)].
    unfold PoolLocator.getPoolAddress. rewrite HA. reflexivity.
Qed.

Lemma getPoolAddress_invalid_address_witness :
  (exists pool, PoolLocator.getPoolAddress PoolLocator.tokenA PoolLocator.tokenB 3000 = Ok pool)
  /\ (exists e, PoolLocator.getPoolAddress (str "0xC02a") PoolLocator.tokenB 3000 = Err e
                /\ kind e = InvalidAddress).
Proof.
  split.
  - generalize (getPoolAddress_invalid_address PoolLocator.tokenA PoolLocator.tokenB 3000).
    replace (Address.getAddress PoolLocator.tokenA) with (Ok PoolLocator.tokenA)
      by (vm_compute; reflexivity).
    replace (Address.getAddress PoolLocator.tokenB) with (Ok PoolLocator.tokenB)
      by (vm_compute; reflexivity).
    intro H. apply H. lia.
  - generalize (getPoolAddress_invalid_address (str "0xC02a") PoolLocator.tokenB 3000).
    replace (Address.getAddress (str "0xC02a"))
      with (@throw jsstring InvalidAddress "invalid address")
      by (vm_compute; reflexivity).
    intro H. eexists. exact H.
Defined.

(** C3. The regression fixture: on WETH, DAI and the 0.3% tier,
    [getPoolAddress] returns 0x924E...97FA, which is not the published
    address of that pool, 0xC2e9...25f8.  The published address is what
    the deployment's own derivation gives: it hashes the ABI-encoded pool
    key, where [getPoolAddress] hashes the tightly packed one, and it uses
    the init code hash 0xe34f199b...8b54, where the source has
    0xe34f4def...1d3e. *)
Theorem fixture_pool_address_differs :
  PoolLocator.poolAddr = Ok (str "0x924E7C7344906dE8A5d89D81295Ab32484D097FA")
  /\ PoolLocator.poolAddr <> Ok UniswapV3.WETH_DAI_3000_POOL
  /\ UniswapV3.computeAddress PoolLocator.tokenB PoolLocator.tokenA PoolLocator.fee
     = UniswapV3.WETH_DAI_3000_POOL.
Proof.
  assert (H : PoolLocator.poolAddr = Ok (str "0x924E7C7344906dE8A5d89D81295Ab32484D097FA"))
    by (vm_compute; reflexivity).
  split; [exact H|]. split.
  - rewrite H. vm_compute. discriminate.
  - vm_compute. reflexivity.
Qed.

(** ** Running programs *)

Section RunFacts.

Variable W : Type.
Variable node : forall X, rpcE X -> W -> X * W.

Lemma run_bind {R S} (p : program R) (f : R -> program S) (w : W) :
  run node (Eff.bind p f) w
  = let o1 := run node p w in
    let o2 := run node (f (returned o1)) (world o1) in
    mkOutcome (returned o2) (world o2) (trace o1 ++ trace o2).
Proof.
  revert w. induction p as [r|X e k IH]; intro w.
  - cbn. destruct (run node (f r) w). reflexivity.
  - cbn [Eff.bind run]. destruct (node e w) as [x w'].
    rewrite IH. reflexivity.
Qed.

Lemma quote_answers_app (t1 t2 : list event) :
  quote_answers (t1 ++ t2) = quote_answers t1 ++ quote_answers t2.
Proof.
  induction t1 as [|ev t1 IH]; [reflexivity|].
  cbn [app quote_answers]. destruct (quote_answer ev); rewrite IH; reflexivity.
Qed.

Lemma console_lines_app (t1 t2 : list event) :
  console_lines (t1 ++ t2) = console_lines t1 ++ console_lines t2.
Proof.
  induction t1 as [|ev t1 IH]; [reflexivity|].
  cbn [app console_lines]. destruct (console_line ev); rewrite IH; reflexivity.
Qed.

Lemma chain_ops_app (t1 t2 : list event) :
  chain_ops (t1 ++ t2) = chain_ops t1 ++ chain_ops t2.
Proof.
  induction t1 as [|ev t1 IH]; [reflexivity|].
  cbn [app chain_ops]. destruct (chain_op_of ev); rewrite IH; reflexivity.
Qed.

(** One more failed tier in front of a selection. *)
Lemma first_success_after_failure (fee : Z) (err : error) (tiers : list Z)
      (answers : list (Z * result Z)) (q : quote) :
  first_success tiers answers q ->
  first_success (fee :: tiers) ((fee, Err err) :: answers) q.
Proof.
  intros (failed & errors & later & -> & Hlen & ->).
  exists (fee :: failed), (err :: errors), later.
  repeat split. cbn [length]. now rewrite Hlen.
Qed.

Lemma all_failed_after_failure (fee : Z) (err : error) (tiers : list Z)
      (answers : list (Z * result Z)) :
  all_failed tiers answers ->
  all_failed (fee :: tiers) ((fee, Err err) :: answers).
Proof.
  intros (errors & Hlen & ->).
  exists (err :: errors). split; [cbn [length]; now rewrite Hlen|reflexivity].
Qed.

Lemma combine_errors_failed (tiers : list Z) (errors : list error) :
  Forall answer_failed (combine tiers (map (@Err Z) errors)).
Proof.
  revert errors. induction tiers as [|fee tiers IH]; intros [|err errors];
    cbn [map combine]; try constructor.
  - exact I.
  - apply IH.
Qed.

Lemma first_success_not_all_failed (tiers : list Z) (answers : list (Z * result Z))
      (q : quote) :
  first_success tiers answers q -> ~ Forall answer_failed answers.
Proof.
  intros (failed & errors & later & _ & _ & ->) Hall.
  apply Forall_app in Hall. destruct Hall as [_ Hlast].
  inversion Hlast as [|a l Ha _]. exact Ha.
Qed.

Lemma all_failed_forall (tiers : list Z) (answers : list (Z * result Z)) :
  all_failed tiers answers -> Forall answer_failed answers.
Proof. intros (errors & _ & ->). apply combine_errors_failed. Qed.

(** The four variants of the loop of [getBestQuote]. *)
Lemma getBestQuote_app_selection (tokenIn tokenOut : jsstring) (amountInWei : Z)
      (tiers : list Z) (w : W) :
  quote_selection log_of_answer_app tiers
    (run node (AppV1.getBestQuote_loop tokenIn tokenOut amountInWei tiers) w).
Proof.
  revert w. induction tiers as [|fee tiers IH]; intro w.
  - cbn. repeat split. exists []. split; reflexivity.
  - cbn [AppV1.getBestQuote_loop Eff.bind trigger run log_error].
    destruct (node (QuoteExactInputSingle tokenIn tokenOut fee amountInWei 0) w)
      as [[amountOut|err] w1].
    + cbn. repeat split. exists [], [], tiers. repeat split.
    + cbn [Eff.bind run].
      destruct (node (Console Stderr _) w1) as [u w2].
      destruct (IH w2) as (Hlog & Hops & Hret).
      unfold quote_selection.
      cbn [returned world trace console_lines console_line quote_answers quote_answer
           chain_ops chain_op_of flat_map log_of_answer_app app].
      rewrite Hlog, Hops. repeat split.
      destruct (returned (run node _ w2)) as [q|e].
      * apply first_success_after_failure. exact Hret.
      * destruct Hret as [He Hall]. split; [exact He|].
        apply all_failed_after_failure. exact Hall.
Qed.

Lemma getBestQuote_v2_selection (tokenIn tokenOut : jsstring) (amountInWei : Z)
      (tiers : list Z) (w : W) :
  quote_selection log_of_answer_v2 tiers
    (run node (AppV2.getBestQuote_loop tokenIn tokenOut amountInWei tiers) w).
Proof.
  revert w. induction tiers as [|fee tiers IH]; intro w.
  - cbn. repeat split. exists []. split; reflexivity.
  - cbn [AppV2.getBestQuote_loop Eff.bind trigger run log log_error].
    destruct (node (QuoteExactInputSingle tokenIn tokenOut fee amountInWei 0) w)
      as [[amountOut|err] w1].
    + cbn [Eff.bind run].
      destruct (node (Console Stdout _) w1) as [u w2].
      cbn. repeat split. exists [], [], tiers. repeat split.
    + cbn [Eff.bind run].
      destruct (node (Console Stderr _) w1) as [u w2].
      destruct (IH w2) as (Hlog & Hops & Hret).
      unfold quote_selection.
      cbn [returned world trace console_lines console_line quote_answers quote_answer
           chain_ops chain_op_of flat_map log_of_answer_v2 app].
      rewrite Hlog, Hops. repeat split.
      destruct (returned (run node _ w2)) as [q|e].
      * apply first_success_after_failure. exact Hret.
      * destruct Hret as [He Hall]. split; [exact He|].
        apply all_failed_after_failure. exact Hall.
Qed.

Lemma getBestQuote_script_selection (tokenIn tokenOut : jsstring) (amountInWei : Z)
      (tiers : list Z) (w : W) :
  quote_selection log_of_answer_script tiers
    (run node (SwapFromMapping.getBestQuote_loop tokenIn tokenOut amountInWei tiers) w).
Proof.
  revert w. induction tiers as [|fee tiers IH]; intro w.
  - cbn. repeat split. exists []. split; reflexivity.
  - cbn [SwapFromMapping.getBestQuote_loop Eff.bind trigger run log].
    destruct (node (QuoteExactInputSingle tokenIn tokenOut fee amountInWei 0) w)
      as [[amountOut|err] w1].
    + cbn [Eff.bind run].
      destruct (node (Console Stdout _) w1) as [u w2].
      cbn. repeat split. exists [], [], tiers. repeat split.
    + cbn [Eff.bind run].
      destruct (node (Console Stdout _) w1) as [u w2].
      destruct (IH w2) as (Hlog & Hops & Hret).
      unfold quote_selection.
      cbn [returned world trace console_lines console_line quote_answers quote_answer
           chain_ops chain_op_of flat_map log_of_answer_script app].
      rewrite Hlog, Hops. repeat split.
      destruct (returned (run node _ w2)) as [q|e].
      * apply first_success_after_failure. exact Hret.
      * destruct Hret as [He Hall]. split; [exact He|].
        apply all_failed_after_failure. exact Hall.
Qed.

Lemma getBestQuote_v3_selection (tokenIn tokenOut : jsstring) (amountInWei : Z)
      (tiers : list Z) (w : W) :
  quote_selection log_of_answer_v2 tiers
    (run node (AppV3.getBestQuote_loop tokenIn tokenOut amountInWei tiers) w).
Proof.
  revert w. induction tiers as [|fee tiers IH]; intro w.
  - cbn. repeat split. exists []. split; reflexivity.
  - cbn [AppV3.getBestQuote_loop Eff.bind trigger run log log_error].
    destruct (node (QuoteExactInputSingle tokenIn tokenOut fee amountInWei 0) w)
      as [[amountOut|err] w1].
    + cbn [Eff.bind run].
      destruct (node (Console Stdout _) w1) as [u w2].
      cbn. repeat split. exists [], [], tiers. repeat split.
    + cbn [Eff.bind run].
      destruct (node (Console Stderr _) w1) as [u w2].
      destruct (IH w2) as (Hlog & Hops & Hret).
      unfold quote_selection.
      cbn [returned world trace console_lines console_line quote_answers quote_answer
           chain_ops chain_op_of flat_map log_of_answer_v2 app].
      rewrite Hlog, Hops. repeat split.
      destruct (returned (run node _ w2)) as [q|e].
      * apply first_success_after_failure. exact Hret.
      * destruct Hret as [He Hall]. split; [exact He|].
        apply all_failed_after_failure. exact Hall.
Qed.

End RunFacts.

(** ** Quote selection *)

(** C4. First-success quote selection: for every token pair, input amount
    and ordered list of fee tiers, on every node, [getBestQuote] (service
    and script alike) queries the tiers in the given order and returns
    the first tier whose quote call succeeds, with the amount that call
    returned; the tiers after it are never queried, and nothing is
    reordered by amount.  It fails only after it has queried every tier,
    in order, and every call has failed. *)
Theorem getBestQuote_first_success (W : Type) (node : forall X, rpcE X -> W -> X * W)
        (w : W) (tokenIn tokenOut : jsstring) (amountInWei : Z) (tiers : list Z) :
  let selects (loop : jsstring -> jsstring -> Z -> list Z -> program (result quote)) :=
    let o := run node (loop tokenIn tokenOut amountInWei tiers) w in
    match returned o with
    | Ok q => first_success tiers (quote_answers (trace o)) q
    | Err _ => all_failed tiers (quote_answers (trace o))
    end in
  selects AppV1.getBestQuote_loop /\ selects SwapFromMapping.getBestQuote_loop.
Proof.
  cbv zeta. split.
  - destruct (getBestQuote_app_selection node tokenIn tokenOut amountInWei tiers w)
      as (_ & _ & Hret).
    destruct (returned _) as [q|e]; [exact Hret|]. apply Hret.
  - destruct (getBestQuote_script_selection node tokenIn tokenOut amountInWei tiers w)
      as (_ & _ & Hret).
    destruct (returned _) as [q|e]; [exact Hret|]. apply Hret.
Qed.

(** The example of the specification: of the tiers 500, 3000, 10000 only
    3000 can be quoted; the selector returns it and never asks for
    10000. *)
Example getBestQuote_stops_at_3000 :
  let o := run (tier_3000_node 0) (AppV1.getBestQuote (str "0xA") (str "0xB") 7) 0 in
  returned o = Ok (mkQuote 3000 14)
  /\ map fst (quote_answers (trace o)) = [500; 3000]%Z.
Proof. vm_compute. split; reflexivity. Qed.

(** C5. Exhaustion: on every node, [getBestQuote] (service and script
    alike) raises its no-liquidity error exactly when the quote call
    failed for every candidate tier; a failure of one tier is caught, is
    printed, and is followed by the attempt on the next tier. *)
Theorem getBestQuote_exhaustion (W : Type) (node : forall X, rpcE X -> W -> X * W)
        (w : W) (tokenIn tokenOut : jsstring) (amountInWei : Z) (tiers : list Z) :
  let exhausts (loop : jsstring -> jsstring -> Z -> list Z -> program (result quote))
               (log_of : Z * result Z -> list (stream * jsstring)) :=
    let o := run node (loop tokenIn tokenOut amountInWei tiers) w in
    let answers := quote_answers (trace o) in
    ((exists e, returned o = Err e) <-> all_failed tiers answers)
    /\ match returned o with
       | Err e => kind e = NoLiquidityAvailable
       | Ok q => first_success tiers answers q
       end
    /\ console_lines (trace o) = flat_map log_of answers in
  exhausts AppV1.getBestQuote_loop log_of_answer_app
  /\ exhausts SwapFromMapping.getBestQuote_loop log_of_answer_script.
Proof.
  cbv zeta. split.
  - destruct (getBestQuote_app_selection node tokenIn tokenOut amountInWei tiers w)
      as (Hlog & _ & Hret).
    destruct (returned _) as [q|e].
    + repeat split; [| |exact Hret|exact Hlog].
      * intros [e He]. discriminate.
      * intro Hall. exfalso.
        exact (first_success_not_all_failed Hret (all_failed_forall Hall)).
    + destruct Hret as [He Hall]. repeat split; [| |rewrite He; reflexivity|exact Hlog].
      * intros _. exact Hall.
      * intros _. exists e. reflexivity.
  - destruct (getBestQuote_script_selection node tokenIn tokenOut amountInWei tiers w)
      as (Hlog & _ & Hret).
    destruct (returned _) as [q|e].
    + repeat split; [| |exact Hret|exact Hlog].
      * intros [e He]. discriminate.
      * intro Hall. exfalso.
        exact (first_success_not_all_failed Hret (all_failed_forall Hall)).
    + destruct Hret as [He Hall]. repeat split; [| |rewrite He; reflexivity|exact Hlog].
      * intros _. exact Hall.
      * intros _. exists e. reflexivity.
Qed.

Example getBestQuote_all_tiers_fail :
  let o := run dead_node (AppV1.getBestQuote (str "0xA") (str "0xB") 7) tt in
  returned o = throw NoLiquidityAvailable "No valid liquidity pool found."
  /\ map fst (quote_answers (trace o)) = AppV1.feeTiers
  /\ length (console_lines (trace o)) = 3.
Proof. vm_compute. repeat split; reflexivity. Qed.

(** ** The HTTP surface *)

Section HttpFacts.

Variable W : Type.
Variable node : forall X, rpcE X -> W -> X * W.

(** What POST /quote answers, request by request. *)
Lemma post_quote_response (tokenMap : token_map) (req : request) (w : W) :
  let r := returned (run node (AppV1.post_quote tokenMap req) w) in
  if missing_parameters req then r = missing_parameters_response
  else
    match validated tokenMap req with
    | Err e => r = mkResponse 500 (ErrorBody (message e))
    | Ok (tokenInAddress, tokenOutAddress, amountInWei) =>
        match returned (run node (AppV1.getBestQuote tokenInAddress tokenOutAddress
                                    amountInWei) w) with
        | Ok q =>
            r = mkResponse 200 (QuoteBody (quote_fee q)
                                  (Units.formatUnits (quote_amountOut q) 18))
        | Err e =>
            kind e = NoLiquidityAvailable
            /\ r = mkResponse 500 (ErrorBody (message e))
        end
    end.
Proof.
  cbv zeta. unfold AppV1.post_quote.
  destruct (missing_parameters req); [reflexivity|].
  unfold validated, AppV1.quote_try, try_catch, bind_throw.
  destruct (AppV1.findTokenAddress_of tokenMap (Http.tokenIn req)) as [tin|e];
    cbn [bind_result Eff.bind run log_error trigger];
    [|destruct (node (Console Stderr (message e)) w); reflexivity].
  destruct (AppV1.findTokenAddress_of tokenMap (Http.tokenOut req)) as [tout|e];
    cbn [bind_result Eff.bind run log_error trigger];
    [|destruct (node (Console Stderr (message e)) w); reflexivity].
  destruct (Json.parseEther (Http.amountIn req)) as [amt|e];
    cbn [bind_result Eff.bind run log_error trigger];
    [|destruct (node (Console Stderr (message e)) w); reflexivity].
  rewrite !run_bind. cbv zeta.
  pose proof (getBestQuote_app_selection node tin tout amt AppV1.feeTiers w) as Hsel.
  fold (AppV1.getBestQuote tin tout amt) in Hsel.
  destruct (run node (AppV1.getBestQuote tin tout amt) w) as [[q|e] w1 tr].
  - reflexivity.
  - destruct Hsel as (_ & _ & He & _). cbn [returned] in He.
    cbn [returned world trace run Eff.bind trigger log_error].
    destruct (node (Console Stderr (message e)) w1).
    split; [rewrite He; reflexivity|reflexivity].
Qed.

(** The two guards at the head of POST /swap. *)
Lemma post_swap_guards (tokenMap : token_map) (req : request) (w : W) :
  let r := returned (run node (AppV1.post_swap tokenMap req) w) in
  if AppV1.header_missing (authorization req)
  then r = mkResponse 401 (ErrorBody (str "Private key required in Authorization header"))
  else if missing_parameters req then r = missing_parameters_response
  else True.
Proof.
  cbv zeta. unfold AppV1.post_swap.
  cbn [Eff.bind run log trigger].
  destruct (node (Console Stdout _) w) as [u w1].
  destruct (AppV1.header_missing (authorization req)); [reflexivity|].
  destruct (missing_parameters req); [reflexivity|exact I].
Qed.

End HttpFacts.

(** C7, as the code has it.  For every POST /quote request, on every
    node: a body with a missing (falsy) field is answered 400; every
    exception raised while the request is processed (a token string the
    mapping does not resolve, an amount that does not parse, the
    exhaustion of all fee tiers) is answered 500; a request that
    succeeds is answered 200 with {feeTier, amountOut}; every failure
    carries a JSON error object.  POST /swap answers 401 without a
    credential and 400 on a missing field. *)
Theorem post_quote_status (W : Type) (node : forall X, rpcE X -> W -> X * W) (w : W)
        (tokenMap : token_map) (req : request) :
  (let r := returned (run node (AppV1.post_quote tokenMap req) w) in
   if missing_parameters req then r = missing_parameters_response
   else
     match validated tokenMap req with
     | Err e => r = mkResponse 500 (ErrorBody (message e))
     | Ok (tokenInAddress, tokenOutAddress, amountInWei) =>
         match returned (run node (AppV1.getBestQuote tokenInAddress tokenOutAddress
                                     amountInWei) w) with
         | Ok q =>
             r = mkResponse 200 (QuoteBody (quote_fee q)
                                   (Units.formatUnits (quote_amountOut q) 18))
         | Err e =>
             kind e = NoLiquidityAvailable
             /\ r = mkResponse 500 (ErrorBody (message e))
         end
     end)
  /\ (let r := returned (run node (AppV1.post_swap tokenMap req) w) in
      if AppV1.header_missing (authorization req)
      then r = mkResponse 401 (ErrorBody (str "Private key required in Authorization header"))
      else if missing_parameters req then r = missing_parameters_response
      else True).
Proof.
  split.
  - apply post_quote_response.
  - apply post_swap_guards.
Qed.

(** Against C7 as stated: two requests that fail validation, one on a
    token the mapping does not know and one on an amount that is no
    number, are answered 500, not with a client error. *)
Lemma quote_validation_failure_is_server_error :
  missing_parameters unknown_token_request = false
  /\ validated sample_map unknown_token_request
     = Err (mkError TokenNotFound (str "Token not found: doge"))
  /\ returned (run dead_node (AppV1.post_quote sample_map unknown_token_request) tt)
     = mkResponse 500 (ErrorBody (str "Token not found: doge"))
  /\ is_client_error
       (returned (run dead_node (AppV1.post_quote sample_map unknown_token_request) tt))
     = false
  /\ missing_parameters malformed_amount_request = false
  /\ validated sample_map malformed_amount_request
     = throw InvalidArgument "invalid decimal value"
  /\ returned (run dead_node (AppV1.post_quote sample_map malformed_amount_request) tt)
     = mkResponse 500 (ErrorBody (str "invalid decimal value"))
  /\ is_client_error
       (returned (run dead_node (AppV1.post_quote sample_map malformed_amount_request) tt))
     = false
  /\ is_server_error
       (returned (run dead_node (AppV1.post_quote sample_map malformed_amount_request) tt))
     = true.
Proof. vm_compute. repeat split; reflexivity. Qed.

Example post_quote_success :
  returned (run (tier_3000_node 0) (AppV1.post_quote sample_map good_request) 0)
  = mkResponse 200 (QuoteBody 3000 (str "2.0")).
Proof. vm_compute. reflexivity. Qed.

Example post_quote_no_liquidity :
  returned (run dead_node (AppV1.post_quote sample_map good_request) tt)
  = mkResponse 500 (ErrorBody (str "No valid liquidity pool found.")).
Proof. vm_compute. reflexivity. Qed.

(** ** Approval before swap *)

Section SwapOrder.

Variable W : Type.
Variable node : forall X, rpcE X -> W -> X * W.

Lemma is_prefix_nil {A} (full : list A) : is_prefix [] full.
Proof. exists full. reflexivity. Qed.

Lemma is_prefix_refl {A} (l : list A) : is_prefix l l.
Proof. exists []. symmetry. apply app_nil_r. Qed.

Lemma is_prefix_cons {A} (a : A) (l full : list A) :
  is_prefix l full -> is_prefix (a :: l) (a :: full).
Proof. intros [rest ->]. exists rest. reflexivity. Qed.

Lemma is_prefix_app {A} (front l full : list A) :
  is_prefix l full -> is_prefix (front ++ l) (front ++ full).
Proof. intros [rest ->]. exists rest. now rewrite app_assoc. Qed.

Ltac run_event :=
  cbn [run Eff.bind Eff.bind_throw Eff.try_catch trigger log log_error];
  match goal with
  | |- context [node ?e ?w] => destruct (node e w) as [? ?]
  end;
  cbn [returned world trace chain_ops chain_op_of app].

(** Closes a goal [exists p swapTx, _ /\ _ /\ is_prefix _ _] once the swap
    has been sent: the prefix fixes [p]. *)
Ltac sent_prefix swapTx tac :=
  eexists; exists swapTx; (split; [|split]); [ | |tac]; reflexivity.

(** The second half of the script: after the quote, the swap is sent and
    its confirmation awaited, and nothing else reaches the chain. *)
Lemma script_quote_and_swap_ops (walletAddress : jsstring) (deadline : Z)
      (amountIn tokenIn tokenOut tokenInAddress tokenOutAddress : jsstring)
      (amountInWei : Z) (w : W) :
  exists p swapTx,
    Chain.tokenIn p = tokenInAddress /\ Chain.amountIn p = amountInWei
    /\ is_prefix
         (chain_ops (trace (run node
            (SwapFromMapping.quote_and_swap walletAddress deadline amountIn tokenIn
               tokenOut tokenInAddress tokenOutAddress amountInWei) w)))
         [SwapSent p 0; Confirmed swapTx].
Proof.
  pose (p0 := mkParams tokenInAddress tokenOutAddress 0 walletAddress deadline
                       amountInWei 0 0).
  unfold SwapFromMapping.quote_and_swap.
  run_event.
  unfold bind_throw at 1. rewrite run_bind. cbv zeta.
  pose proof (getBestQuote_script_selection node tokenInAddress tokenOutAddress
                amountInWei SwapFromMapping.feeTiers w0) as (_ & Hops & _).
  fold (SwapFromMapping.getBestQuote tokenInAddress tokenOutAddress amountInWei) in Hops.
  cbn [trace]. rewrite chain_ops_app, Hops. cbn [app].
  destruct (run node (SwapFromMapping.getBestQuote _ _ _) w0) as [[q|e] w1 tr];
    cbn [returned world];
    [|exists p0, (mkTx []); repeat split; apply is_prefix_nil].
  destruct (SwapFromMapping.amountOutMinimum_of _ _) as [amountOutMinimum|e];
    [|exists p0, (mkTx []); repeat split; apply is_prefix_nil].
  run_event. run_event. run_event.
  destruct r as [swapTx|e];
    [|sent_prefix (mkTx []) ltac:(apply is_prefix_cons, is_prefix_nil)].
  run_event. run_event.
  destruct r as [rcpt|e];
    [|sent_prefix (mkTx []) ltac:(apply is_prefix_cons, is_prefix_nil)].
  run_event. run_event. run_event.
  sent_prefix swapTx ltac:(apply is_prefix_refl).
Qed.

Lemma is_prefix_extend {A} (l full more : list A) :
  is_prefix l full -> is_prefix l (full ++ more).
Proof. intros [rest ->]. exists (rest ++ more). now rewrite app_assoc. Qed.

Lemma erc20_swap_order_nil : erc20_swap_order [].
Proof.
  exists [], 0%Z, (mkTx []), (mkParams [] [] 0 [] 0 0 0 0), 0%Z, (mkTx []).
  left. split; [cbn; lia|apply is_prefix_nil].
Qed.

(** The first half of the script: the allowance is read; when it does not
    suffice the approval is submitted and its confirmation awaited, and
    only then does the script go on. *)
Lemma script_ensure_allowance_ops (walletAddress tokenIn tokenInAddress : jsstring)
      (amountInWei : Z) (w : W) :
  let o := run node (SwapFromMapping.ensure_allowance walletAddress tokenIn
                       tokenInAddress amountInWei) w in
  exists allowance approveTx,
    match returned o with
    | Ok _ =>
        ((amountInWei <= allowance)%Z
         /\ chain_ops (trace o)
            = [AllowanceRead tokenInAddress walletAddress UNISWAP_V3_ROUTER_ADDRESS
                             allowance])
        \/ ((allowance < amountInWei)%Z
            /\ chain_ops (trace o)
               = [AllowanceRead tokenInAddress walletAddress UNISWAP_V3_ROUTER_ADDRESS
                                allowance;
                  ApprovalSubmitted tokenInAddress UNISWAP_V3_ROUTER_ADDRESS MaxUint256
                                    approveTx;
                  Confirmed approveTx])
    | Err _ =>
        (allowance < amountInWei)%Z
        /\ is_prefix (chain_ops (trace o))
             [AllowanceRead tokenInAddress walletAddress UNISWAP_V3_ROUTER_ADDRESS
                            allowance;
              ApprovalSubmitted tokenInAddress UNISWAP_V3_ROUTER_ADDRESS MaxUint256
                                approveTx]
    end.
Proof.
  cbv zeta. unfold SwapFromMapping.ensure_allowance.
  run_event.
  destruct r as [balance|e];
    [|exists (amountInWei - 1)%Z, (mkTx []); split; [lia|apply is_prefix_nil]].
  run_event.
  destruct (balance <? amountInWei)%Z;
    [exists (amountInWei - 1)%Z, (mkTx []); split; [lia|apply is_prefix_nil]|].
  run_event.
  destruct r as [allowance|e];
    [|exists (amountInWei - 1)%Z, (mkTx []); split; [lia|apply is_prefix_nil]].
  run_event.
  destruct (allowance <? amountInWei)%Z eqn:Hcmp.
  - apply Z.ltb_lt in Hcmp.
    run_event. run_event.
    destruct r as [approveTx|e];
      [|exists allowance, (mkTx []); split;
        [exact Hcmp|apply is_prefix_cons, is_prefix_nil]].
    run_event.
    destruct r as [rcpt|e];
      [|exists allowance, approveTx; split; [exact Hcmp|apply is_prefix_refl]].
    run_event.
    exists allowance, approveTx. right. split; [exact Hcmp|reflexivity].
  - apply Z.ltb_ge in Hcmp.
    exists allowance, (mkTx []). left. split; [exact Hcmp|reflexivity].
Qed.

(** The whole script, whatever the query and the node. *)
Lemma script_swap_order (tokenMap : token_map) (walletAddress : jsstring) (deadline : Z)
      (userQuery : jsstring) (w : W) :
  erc20_swap_order
    (chain_ops (trace (run node
       (SwapFromMapping.main_of tokenMap walletAddress deadline userQuery) w))).
Proof.
  unfold SwapFromMapping.main_of.
  destruct (SwapFromMapping.parseUserQuery userQuery) as [[[amountIn tokenIn] tokenOut]|e];
    [|apply erc20_swap_order_nil].
  cbn [Eff.bind_throw Eff.bind].
  destruct (SwapFromMapping.findTokenAddress tokenMap tokenIn) as [tokenInAddress|e];
    [|apply erc20_swap_order_nil].
  destruct (SwapFromMapping.findTokenAddress tokenMap tokenOut) as [tokenOutAddress|e];
    [|apply erc20_swap_order_nil].
  run_event. run_event.
  destruct (Units.parseEther amountIn) as [amountInWei|e];
    [|apply erc20_swap_order_nil].
  cbn [Eff.bind_throw Eff.bind]. unfold bind_throw at 1.
  rewrite run_bind. cbv zeta. cbn [trace]. rewrite chain_ops_app.
  destruct (script_ensure_allowance_ops walletAddress tokenIn tokenInAddress amountInWei w1)
    as (allowance & approveTx & Hensure).
  destruct (run node (SwapFromMapping.ensure_allowance _ _ _ _) w1) as [[[]|e] w2 tr];
    cbn [returned world trace] in *.
  - destruct (script_quote_and_swap_ops walletAddress deadline amountIn tokenIn tokenOut
                tokenInAddress tokenOutAddress amountInWei w2)
      as (p & swapTx & <- & <- & Hswap).
    exists walletAddress, allowance, approveTx, p, 0%Z, swapTx.
    destruct Hensure as [[Hal ->]|[Hal ->]]; [left|right]; (split; [exact Hal|]).
    + apply (is_prefix_app [_] Hswap).
    + apply (is_prefix_app [_; _; _] Hswap).
  - destruct Hensure as [Hal Hpre]. cbn [run trace]. rewrite app_nil_r.
    exists walletAddress, allowance, approveTx,
      (mkParams tokenInAddress tokenOutAddress 0 walletAddress deadline amountInWei 0 0),
      0%Z, (mkTx []).
    right. split; [exact Hal|].
    apply (is_prefix_extend [_; _; _] Hpre).
Qed.

(** The same two halves in POST /swap of the service. *)
Lemma service_quote_and_swap_ops
      (walletAddress tokenInAddress tokenOutAddress tokenInStr tokenOutStr : jsstring)
      (amountInWei valueToSend : Z) (w : W) :
  exists p swapTx,
    Chain.tokenIn p = tokenInAddress /\ Chain.amountIn p = amountInWei
    /\ is_prefix
         (chain_ops (trace (run node
            (AppV2.quote_and_swap walletAddress tokenInAddress tokenOutAddress
               tokenInStr tokenOutStr amountInWei valueToSend) w)))
         [SwapSent p valueToSend; Confirmed swapTx].
Proof.
  pose (p0 := mkParams tokenInAddress tokenOutAddress 0 walletAddress 0 amountInWei 0 0).
  unfold AppV2.quote_and_swap.
  unfold bind_throw at 1. rewrite run_bind. cbv zeta.
  pose proof (getBestQuote_v2_selection node tokenInAddress tokenOutAddress
                amountInWei AppV2.feeTiers w) as (_ & Hops & _).
  fold (AppV2.getBestQuote tokenInAddress tokenOutAddress amountInWei) in Hops.
  cbn [trace]. rewrite chain_ops_app, Hops. cbn [app].
  destruct (run node (AppV2.getBestQuote _ _ _) w) as [[q|e] w1 tr];
    cbn [returned world];
    [|exists p0, (mkTx []); repeat split; apply is_prefix_nil].
  destruct (AppV2.amountOutMinimum_of _ _) as [amountOutMinimum|e];
    [|exists p0, (mkTx []); repeat split; apply is_prefix_nil].
  run_event. run_event.
  destruct r as [swapTx|e];
    [|sent_prefix (mkTx []) ltac:(apply is_prefix_cons, is_prefix_nil)].
  run_event.
  destruct r as [rcpt|e];
    [|sent_prefix (mkTx []) ltac:(apply is_prefix_cons, is_prefix_nil)].
  sent_prefix swapTx ltac:(apply is_prefix_refl).
Qed.

Lemma service_erc20_checks_ops (tokenInAddress walletAddress : jsstring)
      (amountInWei : Z) (w : W) :
  let o := run node (AppV2.erc20_checks tokenInAddress walletAddress amountInWei) w in
  exists allowance approveTx,
    match returned o with
    | Ok None =>
        ((amountInWei <= allowance)%Z
         /\ chain_ops (trace o)
            = [AllowanceRead tokenInAddress walletAddress UNISWAP_V3_ROUTER_ADDRESS
                             allowance])
        \/ ((allowance < amountInWei)%Z
            /\ chain_ops (trace o)
               = [AllowanceRead tokenInAddress walletAddress UNISWAP_V3_ROUTER_ADDRESS
                                allowance;
                  ApprovalSubmitted tokenInAddress UNISWAP_V3_ROUTER_ADDRESS MaxUint256
                                    approveTx;
                  Confirmed approveTx])
    | Ok (Some _) => chain_ops (trace o) = []
    | Err _ =>
        (allowance < amountInWei)%Z
        /\ is_prefix (chain_ops (trace o))
             [AllowanceRead tokenInAddress walletAddress UNISWAP_V3_ROUTER_ADDRESS
                            allowance;
              ApprovalSubmitted tokenInAddress UNISWAP_V3_ROUTER_ADDRESS MaxUint256
                                approveTx]
    end.
Proof.
  cbv zeta. unfold AppV2.erc20_checks.
  run_event.
  destruct r as [balance|e];
    [|exists (amountInWei - 1)%Z, (mkTx []); split; [lia|apply is_prefix_nil]].
  cbn [Eff.bind_throw Eff.bind].
  destruct (balance <? amountInWei)%Z;
    [exists 0%Z, (mkTx []); reflexivity|].
  run_event.
  destruct r as [allowance|e];
    [|exists (amountInWei - 1)%Z, (mkTx []); split; [lia|apply is_prefix_nil]].
  cbn [Eff.bind_throw Eff.bind].
  destruct (allowance <? amountInWei)%Z eqn:Hcmp.
  - apply Z.ltb_lt in Hcmp.
    run_event.
    destruct r as [approveTx|e];
      [|exists allowance, (mkTx []); split;
        [exact Hcmp|apply is_prefix_cons, is_prefix_nil]].
    run_event.
    destruct r as [rcpt|e];
      [|exists allowance, approveTx; split; [exact Hcmp|apply is_prefix_refl]].
    run_event.
    exists allowance, approveTx. right. split; [exact Hcmp|reflexivity].
  - apply Z.ltb_ge in Hcmp.
    exists allowance, (mkTx []). left. split; [exact Hcmp|reflexivity].
Qed.

(** Catching an exception to print it and answer 500 adds nothing to the
    chain. *)
Lemma catch_and_report_ops (p : program (result response))
      (report : error -> jsstring) (w : W) :
  chain_ops (trace (run node
     (try_catch p (fun error =>
        _ <- log_error (report error) ;;
        Ret (mkResponse 500 (ErrorBody (message error))))) w))
  = chain_ops (trace (run node p w)).
Proof.
  unfold try_catch. rewrite run_bind. cbv zeta. cbn [trace].
  rewrite chain_ops_app.
  destruct (run node p w) as [[r|e] w1 tr]; cbn [returned world trace].
  - cbn. apply app_nil_r.
  - run_event. apply app_nil_r.
Qed.

(** POST /swap of the service, whatever the request and the node: either
    the input is ETH itself and only the swap reaches the chain, or the
    input is an ERC-20 and the order is that of [erc20_swap_order]. *)
Lemma service_swap_order (tokenMap : token_map) (req : request) (w : W) :
  let ops := chain_ops (trace (run node (AppV2.post_swap tokenMap req) w)) in
  erc20_swap_order ops
  \/ (exists tokenInStr p swapTx,
         Http.tokenIn req = JString tokenInStr
         /\ toLowerCase tokenInStr = str "eth"
         /\ is_prefix ops (eth_swap p swapTx)).
Proof.
  cbv zeta. unfold AppV2.post_swap.
  destruct (AppV1.header_missing (authorization req));
    [left; apply erc20_swap_order_nil|].
  destruct (missing_parameters req); [left; apply erc20_swap_order_nil|].
  rewrite catch_and_report_ops.
  unfold AppV2.swap_try.
  run_event.
  destruct r as [walletAddress|e]; [|left; apply erc20_swap_order_nil].
  cbn [Eff.bind_throw Eff.bind].
  destruct (AppV2.findTokenAddress_of tokenMap (Http.tokenIn req)) as [tokenInAddress|e];
    [|left; apply erc20_swap_order_nil].
  destruct (AppV2.findTokenAddress_of tokenMap (Http.tokenOut req)) as [tokenOutAddress|e];
    [|left; apply erc20_swap_order_nil].
  destruct (Json.parseEther (Http.amountIn req)) as [amountInWei|e];
    [|left; apply erc20_swap_order_nil].
  destruct (Http.tokenIn req) as [| | | |tokenInStr|] eqn:HtokenIn;
    try (left; apply erc20_swap_order_nil).
  cbn [string_receiver Eff.bind_throw Eff.bind].
  destruct (Js.eqb (toLowerCase tokenInStr) (str "eth")) eqn:Heth.
  - (* ETH: the amount is the value of the swap transaction *)
    apply eqb_eq in Heth.
    destruct (string_receiver (Http.tokenOut req)) as [tokenOutStr|e];
      [|left; apply erc20_swap_order_nil].
    cbn [Eff.bind_throw Eff.bind].
    destruct (service_quote_and_swap_ops walletAddress tokenInAddress tokenOutAddress
                tokenInStr tokenOutStr amountInWei amountInWei w0)
      as (p & swapTx & _ & Hamount & Hswap).
    right. exists tokenInStr, p, swapTx. repeat split; [exact Heth|].
    unfold eth_swap. rewrite Hamount. exact Hswap.
  - (* ERC-20 *)
    left. unfold bind_throw at 1.
    rewrite run_bind. cbv zeta. cbn [trace]. rewrite chain_ops_app.
    destruct (service_erc20_checks_ops tokenInAddress walletAddress amountInWei w0)
      as (allowance & approveTx & Hchecks).
    destruct (run node (AppV2.erc20_checks _ _ _) w0) as [[[early|]|e] w1 tr];
      cbn [returned world trace] in *.
    + cbn [run trace]. rewrite Hchecks. apply erc20_swap_order_nil.
    + destruct (string_receiver (Http.tokenOut req)) as [tokenOutStr|e].
      * cbn [Eff.bind_throw Eff.bind].
        destruct (service_quote_and_swap_ops walletAddress tokenInAddress tokenOutAddress
                    tokenInStr tokenOutStr amountInWei 0 w1)
          as (p & swapTx & <- & <- & Hswap).
        exists walletAddress, allowance, approveTx, p, 0%Z, swapTx.
        destruct Hchecks as [[Hal ->]|[Hal ->]]; [left|right]; (split; [exact Hal|]).
        -- apply (is_prefix_app [_] Hswap).
        -- apply (is_prefix_app [_; _; _] Hswap).
      * cbn [Eff.bind_throw Eff.bind run trace]. rewrite app_nil_r.
        exists walletAddress, allowance, approveTx,
          (mkParams tokenInAddress tokenOutAddress 0 walletAddress 0 amountInWei 0 0),
          0%Z, (mkTx []).
        destruct Hchecks as [[Hal ->]|[Hal ->]]; [left|right]; (split; [exact Hal|]).
        -- eexists. reflexivity.
        -- eexists. reflexivity.
    + destruct Hchecks as [Hal Hpre]. cbn [run trace]. rewrite app_nil_r.
      exists walletAddress, allowance, approveTx,
        (mkParams tokenInAddress tokenOutAddress 0 walletAddress 0 amountInWei 0 0),
        0%Z, (mkTx []).
      right. split; [exact Hal|].
      apply (is_prefix_extend [_; _; _] Hpre).
Qed.

(** The service of d_swap_from_mapping.js: the same two halves. *)
Lemma address_service_quote_and_swap_ops
      (walletAddress tokenInAddress tokenOutAddress tokenInStr tokenOutStr : jsstring)
      (amountInWei valueToSend : Z) (w : W) :
  exists p swapTx,
    Chain.tokenIn p = tokenInAddress /\ Chain.amountIn p = amountInWei
    /\ is_prefix
         (chain_ops (trace (run node
            (AppV3.quote_and_swap walletAddress tokenInAddress tokenOutAddress
               tokenInStr tokenOutStr amountInWei valueToSend) w)))
         [SwapSent p valueToSend; Confirmed swapTx].
Proof.
  pose (p0 := mkParams tokenInAddress tokenOutAddress 0 walletAddress 0 amountInWei 0 0).
  unfold AppV3.quote_and_swap.
  unfold bind_throw at 1. rewrite run_bind. cbv zeta.
  pose proof (getBestQuote_v3_selection node tokenInAddress tokenOutAddress
                amountInWei AppV3.feeTiers w) as (_ & Hops & _).
  fold (AppV3.getBestQuote tokenInAddress tokenOutAddress amountInWei) in Hops.
  cbn [trace]. rewrite chain_ops_app, Hops. cbn [app].
  destruct (run node (AppV3.getBestQuote _ _ _) w) as [[q|e] w1 tr];
    cbn [returned world];
    [|exists p0, (mkTx []); repeat split; apply is_prefix_nil].
  destruct (AppV3.amountOutMinimum_of _ _) as [amountOutMinimum|e];
    [|exists p0, (mkTx []); repeat split; apply is_prefix_nil].
  run_event. run_event.
  destruct r as [swapTx|e];
    [|sent_prefix (mkTx []) ltac:(apply is_prefix_cons, is_prefix_nil)].
  run_event.
  destruct r as [rcpt|e];
    [|sent_prefix (mkTx []) ltac:(apply is_prefix_cons, is_prefix_nil)].
  sent_prefix swapTx ltac:(apply is_prefix_refl).
Qed.

(** POST /swap of that service, whatever the request and the node. *)
Lemma address_service_swap_order (req : request) (w : W) :
  let ops := chain_ops (trace (run node (AppV3.post_swap req) w)) in
  erc20_swap_order ops
  \/ (exists tokenInStr p swapTx,
         Http.tokenIn req = JString tokenInStr
         /\ toLowerCase tokenInStr = str "eth"
         /\ is_prefix ops (eth_swap p swapTx)).
Proof.
  cbv zeta. unfold AppV3.post_swap.
  destruct (AppV1.header_missing (authorization req));
    [left; apply erc20_swap_order_nil|].
  destruct (missing_parameters req); [left; apply erc20_swap_order_nil|].
  rewrite catch_and_report_ops.
  unfold AppV3.swap_try.
  run_event.
  destruct r as [walletAddress|e]; [|left; apply erc20_swap_order_nil].
  cbn [Eff.bind_throw Eff.bind].
  destruct (AppV3.findTokenAddress_of (Http.tokenIn req)) as [tokenInAddress|e];
    [|left; apply erc20_swap_order_nil].
  destruct (AppV3.findTokenAddress_of (Http.tokenOut req)) as [tokenOutAddress|e];
    [|left; apply erc20_swap_order_nil].
  destruct (Json.parseEther (Http.amountIn req)) as [amountInWei|e];
    [|left; apply erc20_swap_order_nil].
  destruct (Http.tokenIn req) as [| | | |tokenInStr|] eqn:HtokenIn;
    try (left; apply erc20_swap_order_nil).
  cbn [string_receiver Eff.bind_throw Eff.bind].
  destruct (Js.eqb (toLowerCase tokenInStr) (str "eth")) eqn:Heth.
  - (* ETH: the amount is the value of the swap transaction *)
    apply eqb_eq in Heth.
    destruct (string_receiver (Http.tokenOut req)) as [tokenOutStr|e];
      [|left; apply erc20_swap_order_nil].
    cbn [Eff.bind_throw Eff.bind].
    destruct (address_service_quote_and_swap_ops walletAddress tokenInAddress
                tokenOutAddress tokenInStr tokenOutStr amountInWei amountInWei w0)
      as (p & swapTx & _ & Hamount & Hswap).
    right. exists tokenInStr, p, swapTx. repeat split; [exact Heth|].
    unfold eth_swap. rewrite Hamount. exact Hswap.
  - (* ERC-20 *)
    left. unfold bind_throw at 1.
    rewrite run_bind. cbv zeta. cbn [trace]. rewrite chain_ops_app.
    destruct (service_erc20_checks_ops tokenInAddress walletAddress amountInWei w0)
      as (allowance & approveTx & Hchecks).
    destruct (run node (AppV2.erc20_checks _ _ _) w0) as [[[early|]|e] w1 tr];
      cbn [returned world trace] in *.
    + cbn [run trace]. rewrite Hchecks. apply erc20_swap_order_nil.
    + destruct (string_receiver (Http.tokenOut req)) as [tokenOutStr|e].
      * cbn [Eff.bind_throw Eff.bind].
        destruct (address_service_quote_and_swap_ops walletAddress tokenInAddress
                    tokenOutAddress tokenInStr tokenOutStr amountInWei 0 w1)
          as (p & swapTx & <- & <- & Hswap).
        exists walletAddress, allowance, approveTx, p, 0%Z, swapTx.
        destruct Hchecks as [[Hal ->]|[Hal ->]]; [left|right]; (split; [exact Hal|]).
        -- apply (is_prefix_app [_] Hswap).
        -- apply (is_prefix_app [_; _; _] Hswap).
      * cbn [Eff.bind_throw Eff.bind run trace]. rewrite app_nil_r.
        exists walletAddress, allowance, approveTx,
          (mkParams tokenInAddress tokenOutAddress 0 walletAddress 0 amountInWei 0 0),
          0%Z, (mkTx []).
        destruct Hchecks as [[Hal ->]|[Hal ->]]; [left|right]; (split; [exact Hal|]).
        -- eexists. reflexivity.
        -- eexists. reflexivity.
    + destruct Hchecks as [Hal Hpre]. cbn [run trace]. rewrite app_nil_r.
      exists walletAddress, allowance, approveTx,
        (mkParams tokenInAddress tokenOutAddress 0 walletAddress 0 amountInWei 0 0),
        0%Z, (mkTx []).
      right. split; [exact Hal|].
      apply (is_prefix_extend [_; _; _] Hpre).
Qed.

(** POST /swap of the first app.js, whatever the request and the node:
    the swap and its confirmation are all that reaches the chain.  No
    allowance is read and no approval is submitted before the swap, and
    no value travels with it. *)
Lemma first_service_swap_ops (tokenMap : token_map) (req : request) (w : W) :
  exists p swapTx,
    is_prefix (chain_ops (trace (run node (AppV1.post_swap tokenMap req) w)))
              [SwapSent p 0; Confirmed swapTx].
Proof.
  pose (p0 := mkParams [] [] 0 [] 0 0 0 0).
  unfold AppV1.post_swap.
  cbn [Eff.bind run log trigger].
  destruct (node (Console Stdout _) w) as [u w0].
  cbn [trace chain_ops chain_op_of].
  destruct (AppV1.header_missing (authorization req));
    [exists p0, (mkTx []); apply is_prefix_nil|].
  destruct (missing_parameters req); [exists p0, (mkTx []); apply is_prefix_nil|].
  rewrite catch_and_report_ops.
  unfold AppV1.swap_try.
  run_event.
  destruct r as [walletAddress|e]; [|exists p0, (mkTx []); apply is_prefix_nil].
  cbn [Eff.bind_throw Eff.bind].
  destruct (AppV1.findTokenAddress_of tokenMap (Http.tokenIn req)) as [tokenInAddress|e];
    [|exists p0, (mkTx []); apply is_prefix_nil].
  destruct (AppV1.findTokenAddress_of tokenMap (Http.tokenOut req)) as [tokenOutAddress|e];
    [|exists p0, (mkTx []); apply is_prefix_nil].
  destruct (Json.parseEther (Http.amountIn req)) as [amountInWei|e];
    [|exists p0, (mkTx []); apply is_prefix_nil].
  cbn [Eff.bind_throw Eff.bind].
  unfold bind_throw at 1. rewrite run_bind. cbv zeta.
  pose proof (getBestQuote_app_selection node tokenInAddress tokenOutAddress
                amountInWei AppV1.feeTiers w1) as (_ & Hops & _).
  fold (AppV1.getBestQuote tokenInAddress tokenOutAddress amountInWei) in Hops.
  cbn [trace]. rewrite chain_ops_app, Hops. cbn [app].
  destruct (run node (AppV1.getBestQuote _ _ _) w1) as [[q|e] w2 tr];
    cbn [returned world];
    [|exists p0, (mkTx []); apply is_prefix_nil].
  run_event. run_event.
  destruct r as [estimatedGas|e]; [|exists p0, (mkTx []); apply is_prefix_nil].
  run_event. run_event.
  destruct r as [swapTx|e];
    [|eexists; exists (mkTx []); apply is_prefix_cons, is_prefix_nil].
  run_event.
  destruct r as [rcpt|e];
    [|eexists; exists (mkTx []); apply is_prefix_cons, is_prefix_nil].
  eexists; exists swapTx; apply is_prefix_refl.
Qed.

Ltac list_eq :=
  repeat match goal with
         | H : _ :: _ = _ :: _ |- _ => injection H as ? ?
         | H : [] = _ :: _ |- _ => discriminate H
         | H : _ :: _ = [] |- _ => discriminate H
         | H : [] = _ ++ _ :: _ |- _ => destruct (app_cons_not_nil _ _ _ H)
         end.

(** The order of [erc20_swap_order], read from the swap backwards. *)
Lemma erc20_swap_order_follows (ops : list chain_op) :
  erc20_swap_order ops -> swap_follows_approval ops.
Proof.
  intros (owner & allowance & approveTx & p & value & swapTx & Hshape)
         before p' value' after Hsplit.
  destruct Hshape as [[Hal [rest Hfull]]|[Hal [rest Hfull]]];
    subst ops; rewrite <- app_assoc in Hfull; cbn [app] in Hfull.
  - unfold direct_swap in Hfull.
    destruct before as [|b1 [|b2 [|b3 before]]]; cbn [app] in Hfull;
      list_eq; try discriminate.
    subst. left. exists owner, allowance. split; [exact Hal|reflexivity].
  - unfold approved_swap in Hfull.
    destruct before as [|b1 [|b2 [|b3 [|b4 [|b5 before]]]]]; cbn [app] in Hfull;
      list_eq; try discriminate.
    subst. right. exists owner, allowance, approveTx. split; [exact Hal|reflexivity].
Qed.

End SwapOrder.

(** C8, as the code has it.  On every node and for every input, the
    operations that reach the chain from the three flows that hold an
    approval step (the command-line script, POST /swap of the second
    app.js, POST /swap of the service of d_swap_from_mapping.js) follow,
    when the input token is an ERC-20, one of two orders: the allowance
    is read and suffices, then the swap is sent; or the allowance is read
    and does not suffice, then the approval is submitted, its
    confirmation is awaited and arrives, and only then is the swap sent.
    When the input of POST /swap is ETH itself there is nothing to
    approve and only the swap is sent.  POST /swap of the first app.js
    holds no approval step: on every node and for every request only the
    swap and its confirmation reach the chain. *)
Theorem approval_before_swap (W : Type) (node : forall X, rpcE X -> W -> X * W) (w : W)
        (tokenMap : token_map) (walletAddress : jsstring) (deadline : Z)
        (userQuery : jsstring) (req : request) :
  let ordered (ops : list chain_op) := erc20_swap_order ops /\ swap_follows_approval ops in
  let eth_only (ops : list chain_op) :=
    exists tokenInStr p swapTx,
      Http.tokenIn req = JString tokenInStr
      /\ toLowerCase tokenInStr = str "eth"
      /\ is_prefix ops (eth_swap p swapTx) in
  let ops_of {R} (flow : program R) := chain_ops (trace (run node flow w)) in
  ordered (ops_of (SwapFromMapping.main_of tokenMap walletAddress deadline userQuery))
  /\ (ordered (ops_of (AppV2.post_swap tokenMap req))
      \/ eth_only (ops_of (AppV2.post_swap tokenMap req)))
  /\ (ordered (ops_of (AppV3.post_swap req))
      \/ eth_only (ops_of (AppV3.post_swap req)))
  /\ (exists p swapTx,
         is_prefix (ops_of (AppV1.post_swap tokenMap req))
                   [SwapSent p 0; Confirmed swapTx]).
Proof.
  cbv zeta. repeat apply conj.
  - apply script_swap_order.
  - apply erc20_swap_order_follows, script_swap_order.
  - destruct (service_swap_order node tokenMap req w) as [H|H].
    + left. split; [exact H|apply erc20_swap_order_follows; exact H].
    + right. exact H.
  - destruct (address_service_swap_order node req w) as [H|H].
    + left. split; [exact H|apply erc20_swap_order_follows; exact H].
    + right. exact H.
  - apply first_service_swap_ops.
Qed.

(** C8 as the specification words it, for every swap flow, fails on POST
    /swap of the first app.js.  The request swaps 1 DAI, an ERC-20, for
    WETH; the node answers every allowance with 0, so the router's
    allowance is short of the amount; the swap is sent all the same and
    the request answered 200: no allowance was read, no approval was
    submitted or confirmed before it. *)
Lemma first_service_swaps_without_approval :
  let node := tier_3000_node 0 in
  let o := run node (AppV1.post_swap sample_map dai_request) 0 in
  let p := mkParams (str "0x6B175474E89094C44Da98b954EedeAC495271d0F")
                    (str "0xC02aaA39b223FE8D0A0e5C4F27eAD9083C756Cc2")
                    3000 (str "0x00000000000000000000000000000000000000AA")
                    1700000300 (10 ^ 18) 1960000000000000000 0 in
  Http.tokenIn dai_request = JString (str "dai")
  /\ returned o = mkResponse 200 (SwapBody (str "0xb2"))
  /\ chain_ops (trace o) = [SwapSent p 0; Confirmed (mkTx (str "0xb2"))]
  /\ (forall w, fst (node _ (Allowance (Chain.tokenIn p) (recipient p)
                                       UNISWAP_V3_ROUTER_ADDRESS) w) = Ok 0%Z)
  /\ (0 < Chain.amountIn p)%Z
  /\ ~ swap_follows_approval (chain_ops (trace o))
  /\ ~ erc20_swap_order (chain_ops (trace o)).
Proof.
  cbv zeta.
  assert (Hops : chain_ops (trace (run (tier_3000_node 0)
                                       (AppV1.post_swap sample_map dai_request) 0))
                 = [SwapSent
                      (mkParams (str "0x6B175474E89094C44Da98b954EedeAC495271d0F")
                                (str "0xC02aaA39b223FE8D0A0e5C4F27eAD9083C756Cc2")
                                3000 (str "0x00000000000000000000000000000000000000AA")
                                1700000300 (10 ^ 18) 1960000000000000000 0) 0;
                    Confirmed (mkTx (str "0xb2"))])
    by (vm_compute; reflexivity).
  assert (Hnot : ~ swap_follows_approval
                     (chain_ops (trace (run (tier_3000_node 0)
                                            (AppV1.post_swap sample_map dai_request) 0)))).
  { rewrite Hops. intro Hfollows.
    destruct (Hfollows [] _ _ _ eq_refl)
      as [(owner & allowance & _ & Hbefore)|(owner & allowance & approveTx & _ & Hbefore)];
      discriminate Hbefore. }
  split; [reflexivity|].
  split; [vm_compute; reflexivity|].
  split; [exact Hops|].
  split; [intro w; reflexivity|].
  split; [vm_compute; reflexivity|].
  split; [exact Hnot|].
  intro Horder. apply Hnot, erc20_swap_order_follows, Horder.
Qed.

(** The script on a node where the router has no allowance yet: the
    approval is submitted and confirmed, then the swap is sent and
    confirmed. *)
Example script_approves_then_swaps :
  chain_ops (trace (run (tier_3000_node 0)
     (SwapFromMapping.main_of sample_map (str "0xAA") 1700000300
        (str "swap 0.0005 WETH with DAI")) 0))
  = approved_swap (str "0xAA") 0 (mkTx (str "0xa1"))
      (mkParams (str "0xC02aaA39b223FE8D0A0e5C4F27eAD9083C756Cc2")
                (str "0x6B175474E89094C44Da98b954EedeAC495271d0F")
                3000 (str "0xAA") 1700000300 500000000000000 990000000000000 0)
      0 (mkTx (str "0xb2")).
Proof. vm_compute. reflexivity. Qed.

(** The script when the allowance suffices: no approval, the swap
    directly. *)
Example script_swaps_directly :
  chain_ops (trace (run (tier_3000_node (10 ^ 18))
     (SwapFromMapping.main_of sample_map (str "0xAA") 1700000300
        (str "swap 0.0005 WETH with DAI")) 0))
  = direct_swap (str "0xAA") (10 ^ 18)
      (mkParams (str "0xC02aaA39b223FE8D0A0e5C4F27eAD9083C756Cc2")
                (str "0x6B175474E89094C44Da98b954EedeAC495271d0F")
                3000 (str "0xAA") 1700000300 500000000000000 990000000000000 0)
      0 (mkTx (str "0xb2")).
Proof. vm_compute. reflexivity. Qed.

(** * Further properties of the code *)

(** ** The pool locator: fees outside [uint24], spellings of an address *)

Section LocatorEdges.

Import Bytes Solidity.

Lemma length_be_bytes (n : N) : length (be_bytes n) = byte_length n.
Proof. unfold be_bytes. rewrite length_map, length_seq. reflexivity. Qed.

(** A number of 2^24 or more does not fit three bytes. *)
Lemma zeroPad3_overflow (n : N) :
  (2 ^ 24 <= n)%N ->
  zeroPad (be_bytes n) 3 = throw InvalidArgument "value out of range".
Proof.
  intro Hn. unfold zeroPad. rewrite length_be_bytes. unfold byte_length.
  assert (Hlog : (24 <= N.log2 n)%N) by (apply N.log2_le_pow2; lia).
  assert (Hq : (3 <= N.log2 n / 8)%N).
  { change 3%N with (24 / 8)%N. apply N.Div0.div_le_mono. exact Hlog. }
  replace (Nat.ltb 3 (S (N.to_nat (N.log2 n / 8)))) with true; [reflexivity|].
  symmetry. apply Nat.ltb_lt. lia.
Qed.

(** The low 24 bits of the lowest word, complemented. *)
Lemma residue24 (m : N) :
  N.land (N.lxor (N.land m 0x3ffffff) 0x3ffffff) 0xffffff
  = (N.ones 24 - m mod 2 ^ 24)%N.
Proof.
  rewrite <- N.land_ones.
  rewrite <- (N.lnot_sub_low (N.land m (N.ones 24)) 24).
  - unfold N.lnot. apply N.bits_inj. intro i.
    rewrite !N.land_spec, !N.lxor_spec, !N.land_spec.
    change 0x3ffffff%N with (N.ones 26). change 0xffffff%N with (N.ones 24).
    destruct (N.lt_ge_cases i 24) as [Hlow|Hhigh].
    + rewrite (N.ones_spec_low 24 i Hlow), (N.ones_spec_low 26 i) by lia.
      rewrite !andb_true_r. reflexivity.
    + rewrite (N.ones_spec_high 24 i Hhigh). rewrite !andb_false_r. reflexivity.
  - destruct (N.eq_dec (N.land m (N.ones 24)) 0) as [->|Hnz]; [reflexivity|].
    apply N.log2_lt_pow2; [lia|]. rewrite N.land_ones. apply N.mod_lt. discriminate.
Qed.

(** [inotn(24)]: the low 24 bits are complemented, bits 24 and 25 are
    cleared, the words above the lowest are kept. *)
Lemma inotn24 (m : N) :
  inotn m 24 = (N.ones 24 - m mod 2 ^ 24 + 2 ^ 26 * (m / 2 ^ 26))%N.
Proof.
  unfold inotn.
  change ((24 + 25) / 26)%N with 1%N. change (24 mod 26)%N with 24%N.
  change (0 <? 24)%N with true. cbv iota zeta.
  change (1 - 1)%N with 0%N. change (26 * 0)%N with 0%N.
  change (26 * (0 + 1))%N with 26%N. change (26 - 24)%N with 2%N.
  change (N.ones 0) with 0%N. rewrite N.land_0_r, N.lxor_0_r.
  rewrite N.shiftr_0_r, N.shiftl_0_r.
  change (N.shiftr 0x3ffffff 2) with 0xffffff%N.
  rewrite residue24, N.shiftl_mul_pow2, N.shiftr_div_pow2. lia.
Qed.

(** [toTwos(24)] of a negative number. *)
Lemma toTwos24_negative (fee : Z) :
  (fee < 0)%Z ->
  toTwos fee 24
  = (2 ^ 24 - Z.to_N (- fee) mod 2 ^ 24 + 2 ^ 26 * (Z.to_N (- fee) / 2 ^ 26))%N.
Proof.
  intro Hfee. unfold toTwos.
  replace (fee <? 0)%Z with true by (symmetry; apply Z.ltb_lt; exact Hfee).
  rewrite inotn24.
  pose proof (N.mod_lt (Z.to_N (- fee)) (2 ^ 24) ltac:(discriminate)) as Hmod.
  change (N.ones 24) with 16777215%N. change (2 ^ 24)%N with 16777216%N in *.
  lia.
Qed.

(** Below -2^24 the bits 24 and 25 of the magnitude are dropped, not
    kept: -16777217 becomes 0xffffff. *)
Example toTwos_masks_lowest_word :
  toTwos (-1) 24 = 0xffffff%N
  /\ toTwos (-16777217) 24 = 0xffffff%N
  /\ toTwos (-16777216) 24 = 0x1000000%N
  /\ toTwos (-67108865) 24 = 0x4ffffff%N.
Proof. vm_compute. repeat split. Qed.

(** The magnitude of a negative fee, in integers. *)
Lemma magnitude_parts (fee : Z) :
  (fee < 0)%Z ->
  Z.of_N (Z.to_N (- fee) mod 2 ^ 24) = ((- fee) mod 2 ^ 24)%Z
  /\ Z.of_N (Z.to_N (- fee) / 2 ^ 26) = ((- fee) / 2 ^ 26)%Z.
Proof.
  intro Hfee. rewrite N2Z.inj_mod, N2Z.inj_div, Z2N.id by lia. split; reflexivity.
Qed.

(** The two's complement of an accepted negative fee. *)
Lemma toTwos_accepted (fee : Z) :
  (- 2 ^ 26 < fee < 0)%Z -> (fee mod 2 ^ 24 <> 0)%Z ->
  toTwos fee 24 = Z.to_N (fee mod 2 ^ 24).
Proof.
  intros Hfee Hmod. rewrite toTwos24_negative by lia.
  destruct (@magnitude_parts fee ltac:(lia)) as [Hlow Hhigh].
  apply N2Z.inj. rewrite Z2N.id by (apply Z.mod_pos_bound; lia).
  pose proof (N.mod_lt (Z.to_N (- fee)) (2 ^ 24) ltac:(discriminate)) as Hbound.
  rewrite N2Z.inj_add, N2Z.inj_mul, N2Z.inj_sub, Hlow, Hhigh by lia.
  change (Z.of_N (2 ^ 24)) with (2 ^ 24)%Z. change (Z.of_N (2 ^ 26)) with (2 ^ 26)%Z.
  pose proof (Z.div_mod fee (2 ^ 24) ltac:(lia)) as H1.
  pose proof (Z.mod_pos_bound fee (2 ^ 24) ltac:(lia)) as H2.
  pose proof (Z.div_mod (- fee) (2 ^ 24) ltac:(lia)) as H3.
  pose proof (Z.mod_pos_bound (- fee) (2 ^ 24) ltac:(lia)) as H4.
  assert (H5 : ((- fee) / 2 ^ 26 = 0)%Z) by (apply Z.div_small; lia).
  rewrite H5.
  change (2 ^ 24)%Z with 16777216%Z in *. change (2 ^ 26)%Z with 67108864%Z in *.
  lia.
Qed.

(** The two's complement of a small negative fee. *)
Lemma toTwos_negative (fee : Z) :
  (- 2 ^ 24 < fee < 0)%Z -> toTwos fee 24 = Z.to_N (fee + 2 ^ 24).
Proof.
  intro Hfee.
  assert (Hmod : (fee mod 2 ^ 24 = fee + 2 ^ 24)%Z).
  { symmetry. apply Z.mod_unique with (-1)%Z; lia. }
  rewrite toTwos_accepted; [rewrite Hmod; reflexivity| |rewrite Hmod; lia].
  change (2 ^ 24)%Z with 16777216%Z in *. change (2 ^ 26)%Z with 67108864%Z. lia.
Qed.

(** The two's complement of a negative fee that is not accepted does not
    fit 24 bits. *)
Lemma toTwos_rejected (fee : Z) :
  (fee < 0)%Z -> (fee <= - 2 ^ 26 \/ fee mod 2 ^ 24 = 0)%Z -> (2 ^ 24 <= toTwos fee 24)%N.
Proof.
  intros Hfee Hcases. rewrite toTwos24_negative by exact Hfee.
  destruct (@magnitude_parts fee Hfee) as [Hlow Hhigh].
  pose proof (N.mod_lt (Z.to_N (- fee)) (2 ^ 24) ltac:(discriminate)) as Hbound.
  apply N2Z.inj_le.
  rewrite N2Z.inj_add, N2Z.inj_mul, N2Z.inj_sub, Hlow, Hhigh by lia.
  change (Z.of_N (2 ^ 24)) with (2 ^ 24)%Z. change (Z.of_N (2 ^ 26)) with (2 ^ 26)%Z.
  pose proof (Z.div_mod fee (2 ^ 24) ltac:(lia)) as H1.
  pose proof (Z.mod_pos_bound fee (2 ^ 24) ltac:(lia)) as H2.
  pose proof (Z.div_mod (- fee) (2 ^ 24) ltac:(lia)) as H3.
  pose proof (Z.mod_pos_bound (- fee) (2 ^ 24) ltac:(lia)) as H4.
  pose proof (Z.div_mod (- fee) (2 ^ 26) ltac:(lia)) as H5.
  pose proof (Z.mod_pos_bound (- fee) (2 ^ 26) ltac:(lia)) as H6.
  change (2 ^ 24)%Z with 16777216%Z in *. change (2 ^ 26)%Z with 67108864%Z in *.
  destruct Hcases as [Hlarge|Hmultiple]; lia.
Qed.

(** Which fees [pack] accepts as [uint24]. *)
Lemma pack_uint24_range (fee : Z) :
  match _pack (Uint 24 fee) with
  | Ok _ => accepted_fee fee
  | Err e => ~ accepted_fee fee /\ kind e <> InvalidAddress
  end.
Proof.
  unfold accepted_fee.
  destruct (Z_lt_le_dec fee 0) as [Hneg|Hpos].
  - unfold _pack.
    change (Nat.eqb (24 mod 8) 0 && negb (Nat.eqb 24 0) && Nat.leb 24 256) with true.
    change (24 / 8) with 3. cbv iota.
    change (N.of_nat 24) with 24%N.
    destruct (Z_lt_le_dec (- 2 ^ 26) fee) as [Hsmall|Hlarge];
      [destruct (Z.eq_dec (fee mod 2 ^ 24) 0) as [Hmultiple|Hmod]|].
    + destruct (0x1fffffffffffff <=? Z.abs fee)%Z; [split; [lia|discriminate]|].
      rewrite zeroPad3_overflow by (apply toTwos_rejected; [exact Hneg|now right]).
      split; [lia|discriminate].
    + replace (0x1fffffffffffff <=? Z.abs fee)%Z with false
        by (symmetry; apply Z.leb_gt; change (2 ^ 26)%Z with 67108864%Z in *; lia).
      rewrite toTwos_accepted by (try exact Hmod; lia).
      rewrite be_bytes_pad3; [right; split; [lia|exact Hmod]|].
      change (2 ^ 24)%N with (Z.to_N (2 ^ 24)).
      apply Z2N.inj_lt; try apply Z.mod_pos_bound; lia.
    + destruct (0x1fffffffffffff <=? Z.abs fee)%Z; [split; [lia|discriminate]|].
      rewrite zeroPad3_overflow by (apply toTwos_rejected; [exact Hneg|now left]).
      split; [lia|discriminate].
  - destruct (Z_lt_le_dec fee (2 ^ 24)) as [Hlt|Hge].
    + rewrite pack_uint24 by lia. left. lia.
    + unfold _pack.
      change (Nat.eqb (24 mod 8) 0 && negb (Nat.eqb 24 0) && Nat.leb 24 256) with true.
      change (24 / 8) with 3. cbv iota.
      destruct (0x1fffffffffffff <=? Z.abs fee)%Z; [split; [lia|discriminate]|].
      change (N.of_nat 24) with 24%N.
      rewrite zeroPad3_overflow.
      * split; [lia|discriminate].
      * unfold toTwos.
        replace (fee <? 0)%Z with false
          by (symmetry; apply Z.ltb_ge; change (2 ^ 24)%Z with 16777216%Z in *; lia).
        change (2 ^ 24)%N with (Z.to_N (2 ^ 24)). apply Z2N.inj_le; lia.
Qed.

(** An accepted fee is packed as its residue modulo 2^24. *)
Lemma pack_uint24_residue (fee : Z) :
  accepted_fee fee -> _pack (Uint 24 fee) = _pack (Uint 24 (fee mod 2 ^ 24)).
Proof.
  intros [Hfee|[Hfee Hmod]].
  - rewrite Z.mod_small by exact Hfee. reflexivity.
  - pose proof (Z.mod_pos_bound fee (2 ^ 24) ltac:(lia)) as Hbound.
    unfold _pack.
    change (Nat.eqb (24 mod 8) 0 && negb (Nat.eqb 24 0) && Nat.leb 24 256) with true.
    cbv iota.
    replace (0x1fffffffffffff <=? Z.abs fee)%Z with false
      by (symmetry; apply Z.leb_gt; change (2 ^ 26)%Z with 67108864%Z in *; lia).
    replace (0x1fffffffffffff <=? Z.abs (fee mod 2 ^ 24))%Z with false
      by (symmetry; apply Z.leb_gt; change (2 ^ 24)%Z with 16777216%Z in *; lia).
    change (N.of_nat 24) with 24%N.
    rewrite toTwos_accepted by assumption.
    unfold toTwos.
    replace (fee mod 2 ^ 24 <? 0)%Z with false by (symmetry; apply Z.ltb_ge; lia).
    reflexivity.
Qed.

(** A negative fee is packed as the fee 2^24 above it. *)
Lemma pack_uint24_wraps (fee : Z) :
  (- 2 ^ 24 < fee < 0)%Z -> _pack (Uint 24 fee) = _pack (Uint 24 (fee + 2 ^ 24)).
Proof.
  intro Hfee.
  assert (Hmod : (fee mod 2 ^ 24 = fee + 2 ^ 24)%Z).
  { symmetry. apply Z.mod_unique with (-1)%Z; lia. }
  rewrite <- Hmod. apply pack_uint24_residue.
  right. split; [|rewrite Hmod; lia].
  change (2 ^ 24)%Z with 16777216%Z in *. change (2 ^ 26)%Z with 67108864%Z. lia.
Qed.

End LocatorEdges.

Section LocatorSpellings.

Import Bytes Address Solidity.

(** The hashing steps of [getPoolAddress] for any fee [pack] accepts. *)
Lemma ordered_pool_address_packed (token0 token1 : jsstring) (fee : Z)
      (feeBytes : list byte) :
  canonical token0 -> canonical token1 -> _pack (Uint 24 fee) = Ok feeBytes ->
  exists pool,
    (salt <-? Solidity.keccak256 [Address token0; Address token1; Uint 24 fee] ;;
     create2Hash <-?
       Solidity.keccak256 [BytesDyn (str "0xff"); Address PoolLocator.FACTORY_ADDRESS;
                           BytesN 32 salt; BytesN 32 PoolLocator.POOL_INIT_CODE_HASH] ;;
     Address.getAddress (str "0x" ++ slice_last 40 create2Hash))
    = Ok pool.
Proof.
  intros H0 H1 Hfee.
  destruct (canonical_arrayify H0) as [Ha0 _].
  destruct (canonical_arrayify H1) as [Ha1 _].
  rewrite (@keccak256_of_packed _
             (LocatorSpec.address_bytes token0 ++ LocatorSpec.address_bytes token1
                ++ feeBytes)).
  2:{ cbn [concat_packed]. rewrite Hfee. cbn [_pack]. rewrite Ha0, Ha1.
      cbn [bind_result]. rewrite app_nil_r. reflexivity. }
  cbn [bind_result].
  rewrite (@keccak256_of_packed _
             ([xff] ++ LocatorSpec.factory_bytes ++ Keccak.digest
                (LocatorSpec.address_bytes token0 ++ LocatorSpec.address_bytes token1
                   ++ feeBytes) ++ LocatorSpec.init_code_hash_bytes)).
  2:{ cbn [concat_packed].
      rewrite pack_marker, pack_factory, pack_digest, pack_init_code_hash.
      cbn [bind_result]. rewrite app_nil_r. reflexivity. }
  cbn [bind_result].
  rewrite slice_digest, getAddress_hexdigits by apply length_low20_digest.
  eexists. reflexivity.
Qed.

Lemma salt_fails_with_fee (token0 token1 : jsstring) (fee : Z) (e : error) :
  canonical token0 -> canonical token1 -> _pack (Uint 24 fee) = Err e ->
  Solidity.keccak256 [Address token0; Address token1; Uint 24 fee] = Err e.
Proof.
  intros H0 H1 Hfee.
  destruct (canonical_arrayify H0) as [Ha0 _].
  destruct (canonical_arrayify H1) as [Ha1 _].
  unfold Solidity.keccak256, pack. cbn [concat_packed]. rewrite Hfee.
  cbn [_pack]. rewrite Ha0, Ha1. reflexivity.
Qed.

Lemma salt_wraps (token0 token1 : jsstring) (fee : Z) :
  (- 2 ^ 24 < fee < 0)%Z ->
  Solidity.keccak256 [Address token0; Address token1; Uint 24 fee]
  = Solidity.keccak256 [Address token0; Address token1; Uint 24 (fee + 2 ^ 24)].
Proof.
  intro Hfee. unfold Solidity.keccak256, pack. cbn [concat_packed].
  rewrite (pack_uint24_wraps Hfee). reflexivity.
Qed.

Lemma salt_residue (token0 token1 : jsstring) (fee : Z) :
  accepted_fee fee ->
  Solidity.keccak256 [Address token0; Address token1; Uint 24 fee]
  = Solidity.keccak256 [Address token0; Address token1; Uint 24 (fee mod 2 ^ 24)].
Proof.
  intro Hfee. unfold Solidity.keccak256, pack. cbn [concat_packed].
  rewrite (pack_uint24_residue Hfee). reflexivity.
Qed.

(** [getAddress] leaves a canonical address as it is. *)
Lemma getAddress_idempotent (a : jsstring) : canonical a -> getAddress a = Ok a.
Proof.
  intros (chars & -> & Hlen & Hhex & Hlow).
  assert (Hsum_hex : forallb is_hexchar (checksum_chars chars) = true)
    by (unfold checksum_chars; rewrite hex_apply_checksum; exact Hhex).
  assert (Hsum_len : length (checksum_chars chars) = 40)
    by (unfold checksum_chars; rewrite length_apply_checksum; exact Hlen).
  assert (Hsum_low : toLowerCase (checksum_chars chars) = chars)
    by (unfold checksum_chars; rewrite lower_apply_checksum; exact Hlow).
  unfold getAddress, matches_hex_address.
  cbn [has_0x_prefix skipn]. rewrite Hsum_len, Hsum_hex. cbn [Nat.eqb andb].
  unfold getChecksumAddress, isHexStringLen, isHexString.
  cbn [length]. rewrite Hsum_len, Hsum_hex. cbn [Nat.eqb Nat.mul Nat.add andb].
  cbn [toLowerCase map skipn]. fold (toLowerCase (checksum_chars chars)).
  rewrite Hsum_low. cbn [bind_result str list_ascii_of_string app].
  rewrite eqb_refl. cbn [negb]. rewrite andb_false_r. reflexivity.
Qed.

Lemma lower_hexchar_not_x (c : ascii) :
  is_hexchar c = true -> lower_char c <> "x"%char.
Proof. destruct c as [[] [] [] [] [] [] [] []]; cbv; congruence. Qed.

Lemma no_upper_hex_lower (s : jsstring) :
  existsb is_upper_hex (toLowerCase s) = false.
Proof.
  induction s as [|c s IH]; [reflexivity|].
  cbn [toLowerCase map existsb]. fold (toLowerCase s). rewrite IH.
  destruct c as [[] [] [] [] [] [] [] []]; reflexivity.
Qed.

(** The lowercase spelling of an accepted hexadecimal address is accepted
    as the same address. *)
Lemma getAddress_lower (A a : jsstring) :
  matches_hex_address A = true -> getAddress A = Ok a ->
  getAddress (toLowerCase A) = Ok a.
Proof.
  intros Hmatch HA.
  unfold getAddress in HA. rewrite Hmatch in HA.
  unfold matches_hex_address in Hmatch.
  destruct (has_0x_prefix A) eqn:Hprefix.
  - (* "0x" and forty digits *)
    destruct A as [|c0 [|c1 ds]]; try discriminate.
    assert (c0 = "0"%char /\ c1 = "x"%char) as [-> ->].
    { cbn [has_0x_prefix] in Hprefix.
      destruct c0 as [[] [] [] [] [] [] [] []]; try discriminate.
      destruct c1 as [[] [] [] [] [] [] [] []]; try discriminate.
      split; reflexivity. }
    cbn [skipn] in Hmatch. apply andb_true_iff in Hmatch. destruct Hmatch as [Hlen Hhex].
    apply Nat.eqb_eq in Hlen.
    unfold getChecksumAddress, isHexStringLen, isHexString in HA.
    cbn [length] in HA. rewrite Hlen, Hhex in HA.
    cbn [Nat.eqb Nat.mul Nat.add andb toLowerCase map skipn bind_result] in HA.
    fold (toLowerCase ds) in HA.
    destruct (has_mixed_case _ && negb (Js.eqb _ _)) in HA; [discriminate|].
    injection HA as <-.
    unfold getAddress, matches_hex_address.
    cbn [toLowerCase map]. fold (toLowerCase ds).
    change (lower_char "0") with "0"%char. change (lower_char "x") with "x"%char.
    cbn [has_0x_prefix skipn].
    assert (Hlen' : length (toLowerCase ds) = 40)
      by (unfold toLowerCase; rewrite length_map; exact Hlen).
    rewrite Hlen', hex_toLowerCase, Hhex. cbn [Nat.eqb andb].
    unfold getChecksumAddress, isHexStringLen, isHexString.
    cbn [length]. rewrite Hlen', hex_toLowerCase, Hhex.
    cbn [Nat.eqb Nat.mul Nat.add andb toLowerCase map skipn bind_result].
    fold (toLowerCase ds). fold (toLowerCase (toLowerCase ds)).
    change (lower_char "0") with "0"%char. change (lower_char "x") with "x"%char.
    cbn [skipn]. rewrite toLowerCase_idempotent.
    unfold has_mixed_case. cbn [existsb].
    rewrite no_upper_hex_lower. reflexivity.
  - (* forty digits without prefix *)
    apply andb_true_iff in Hmatch. destruct Hmatch as [Hlen Hhex].
    apply Nat.eqb_eq in Hlen.
    cbn [str list_ascii_of_string app] in HA.
    unfold getChecksumAddress, isHexStringLen, isHexString in HA.
    cbn [length] in HA. rewrite Hlen, Hhex in HA.
    cbn [Nat.eqb Nat.mul Nat.add andb toLowerCase map skipn bind_result] in HA.
    fold (toLowerCase A) in HA.
    destruct (has_mixed_case _ && negb (Js.eqb _ _)) in HA; [discriminate|].
    injection HA as <-.
    assert (Hlen' : length (toLowerCase A) = 40)
      by (unfold toLowerCase; rewrite length_map; exact Hlen).
    assert (Hprefix' : has_0x_prefix (toLowerCase A) = false).
    { destruct A as [|c0 [|c1 ds]]; try discriminate.
      cbn [forallb] in Hhex.
      apply andb_true_iff in Hhex. destruct Hhex as [_ Hhex].
      apply andb_true_iff in Hhex. destruct Hhex as [Hc1 _].
      pose proof (lower_hexchar_not_x _ Hc1) as Hx.
      cbn [toLowerCase map has_0x_prefix].
      destruct (lower_char c0) as [[] [] [] [] [] [] [] []]; try reflexivity.
      destruct (lower_char c1) as [[] [] [] [] [] [] [] []]; try reflexivity.
      exfalso. apply Hx. reflexivity. }
    unfold getAddress, matches_hex_address. rewrite Hprefix'.
    rewrite Hlen', hex_toLowerCase, Hhex. cbn [Nat.eqb andb].
    cbn [str list_ascii_of_string app].
    unfold getChecksumAddress, isHexStringLen, isHexString.
    cbn [length]. rewrite Hlen', hex_toLowerCase, Hhex.
    cbn [Nat.eqb Nat.mul Nat.add andb toLowerCase map skipn bind_result].
    fold (toLowerCase (toLowerCase A)). rewrite toLowerCase_idempotent.
    unfold has_mixed_case. cbn [existsb].
    rewrite no_upper_hex_lower. reflexivity.
Qed.

End LocatorSpellings.

(** X1. For two well-formed addresses, [getPoolAddress] returns an address
    exactly for the fees from 0 to 2^24 - 1 and for the negative fees
    above -2^26 that are no multiple of 2^24; any other fee makes it raise
    an error that is not an invalid-address error.  An accepted fee gives
    the address of its residue modulo 2^24. *)
Theorem getPoolAddress_fee_range (A B a b : jsstring) (fee : Z)
        (HA : Address.getAddress A = Ok a) (HB : Address.getAddress B = Ok b) :
  match PoolLocator.getPoolAddress A B fee with
  | Ok pool =>
      accepted_fee fee
      /\ PoolLocator.getPoolAddress A B (fee mod 2 ^ 24) = Ok pool
  | Err e => ~ accepted_fee fee /\ kind e <> InvalidAddress
  end.
Proof.
  pose proof (getAddress_canonical _ HA) as Ha.
  pose proof (getAddress_canonical _ HB) as Hb.
  assert (Hrange : match PoolLocator.getPoolAddress A B fee with
                   | Ok _ => accepted_fee fee
                   | Err e => ~ accepted_fee fee /\ kind e <> InvalidAddress
                   end).
  { pose proof (pack_uint24_range fee) as Hpack.
    unfold PoolLocator.getPoolAddress. rewrite HA, HB. cbn [bind_result].
    destruct (Solidity._pack (Solidity.Uint 24 fee)) as [feeBytes|e] eqn:Hfee.
    - destruct (Js.ltb (toLowerCase a) (toLowerCase b)).
      + destruct (@ordered_pool_address_packed a b fee feeBytes Ha Hb Hfee) as [pool ->].
        exact Hpack.
      + destruct (@ordered_pool_address_packed b a fee feeBytes Hb Ha Hfee) as [pool ->].
        exact Hpack.
    - destruct (Js.ltb (toLowerCase a) (toLowerCase b)).
      + rewrite (@salt_fails_with_fee a b fee e Ha Hb Hfee). exact Hpack.
      + rewrite (@salt_fails_with_fee b a fee e Hb Ha Hfee). exact Hpack. }
  destruct (PoolLocator.getPoolAddress A B fee) as [pool|e] eqn:Hpool; [|exact Hrange].
  split; [exact Hrange|].
  rewrite <- Hpool. unfold PoolLocator.getPoolAddress. rewrite HA, HB. cbn [bind_result].
  destruct (Js.ltb (toLowerCase a) (toLowerCase b));
    [rewrite (@salt_residue a b fee Hrange)|rewrite (@salt_residue b a fee Hrange)];
    reflexivity.
Qed.

Lemma getPoolAddress_fee_range_witness :
  accepted_fee (-16777217)
  /\ exists pool,
      PoolLocator.getPoolAddress PoolLocator.tokenA PoolLocator.tokenB (-16777217) = Ok pool
      /\ PoolLocator.getPoolAddress PoolLocator.tokenA PoolLocator.tokenB 16777215 = Ok pool.
Proof.
  assert (Haccepted : accepted_fee (-16777217))
    by (right; split; [lia|vm_compute; discriminate]).
  split; [exact Haccepted|].
  generalize (@getPoolAddress_fee_range
                PoolLocator.tokenA PoolLocator.tokenB PoolLocator.tokenA PoolLocator.tokenB
                (-16777217) ltac:(vm_compute; reflexivity) ltac:(vm_compute; reflexivity)).
  destruct (PoolLocator.getPoolAddress PoolLocator.tokenA PoolLocator.tokenB (-16777217))
    as [pool|e].
  - intros [_ Hresidue]. exists pool. split; [reflexivity|exact Hresidue].
  - intros [Hrejected _]. destruct (Hrejected Haccepted).
Defined.

(** X2. A negative fee above -2^24 is not rejected: it is hashed as its
    two's complement on 24 bits, so [getPoolAddress] returns for it what
    it returns for the fee 2^24 higher. *)
Theorem getPoolAddress_negative_fee_wraps (A B : jsstring) (fee : Z)
        (Hfee : (- 2 ^ 24 < fee < 0)%Z) :
  PoolLocator.getPoolAddress A B fee = PoolLocator.getPoolAddress A B (fee + 2 ^ 24).
Proof.
  unfold PoolLocator.getPoolAddress.
  destruct (Address.getAddress A) as [a|e]; [|reflexivity].
  destruct (Address.getAddress B) as [b|e]; [|reflexivity].
  cbn [bind_result].
  destruct (Js.ltb (toLowerCase a) (toLowerCase b));
    [rewrite (@salt_wraps a b fee Hfee)|rewrite (@salt_wraps b a fee Hfee)];
    reflexivity.
Qed.

Lemma getPoolAddress_negative_fee_wraps_witness :
  (- 2 ^ 24 < -1 < 0)%Z
  /\ PoolLocator.getPoolAddress PoolLocator.tokenA PoolLocator.tokenB (-1)
     = PoolLocator.getPoolAddress PoolLocator.tokenA PoolLocator.tokenB 16777215.
Proof.
  split; [lia|].
  apply (@getPoolAddress_negative_fee_wraps PoolLocator.tokenA PoolLocator.tokenB (-1)).
  lia.
Defined.

(** X3. Whatever [getPoolAddress] returns is an address in canonical
    checksummed form, of 42 characters, which [getAddress] accepts and
    returns unchanged. *)
Theorem getPoolAddress_result_is_address (A B pool : jsstring) (fee : Z)
        (Hpool : PoolLocator.getPoolAddress A B fee = Ok pool) :
  canonical pool /\ length pool = 42 /\ Address.getAddress pool = Ok pool.
Proof.
  assert (Hcanon : canonical pool).
  { unfold PoolLocator.getPoolAddress in Hpool.
    destruct (Address.getAddress A) as [a|e]; [|discriminate].
    destruct (Address.getAddress B) as [b|e]; [|discriminate].
    cbn [bind_result] in Hpool.
    destruct (Js.ltb (toLowerCase a) (toLowerCase b));
      (destruct (Solidity.keccak256 _) as [salt|e]; [|discriminate]);
      cbn [bind_result] in Hpool;
      (destruct (Solidity.keccak256 _) as [create2Hash|e]; [|discriminate]);
      cbn [bind_result] in Hpool;
      exact (getAddress_canonical _ Hpool). }
  split; [exact Hcanon|]. split; [|exact (getAddress_idempotent Hcanon)].
  destruct Hcanon as (chars & -> & Hlen & _).
  cbn [length]. unfold Address.checksum_chars.
  rewrite length_apply_checksum, Hlen. reflexivity.
Qed.

Lemma getPoolAddress_result_is_address_witness :
  Address.getAddress (str "0x924E7C7344906dE8A5d89D81295Ab32484D097FA")
  = Ok (str "0x924E7C7344906dE8A5d89D81295Ab32484D097FA").
Proof.
  refine (proj2 (proj2 (@getPoolAddress_result_is_address
            PoolLocator.tokenA PoolLocator.tokenB _ 3000 _))).
  vm_compute. reflexivity.
Defined.

(** X4. The spelling of a token address does not matter: an accepted
    hexadecimal address, its all-lowercase spelling and its checksummed
    form give the same pool address, in either argument position. *)
Theorem getPoolAddress_spelling (A a B : jsstring) (fee : Z)
        (Hhex : Address.matches_hex_address A = true)
        (HA : Address.getAddress A = Ok a) :
  PoolLocator.getPoolAddress (toLowerCase A) B fee = PoolLocator.getPoolAddress A B fee
  /\ PoolLocator.getPoolAddress a B fee = PoolLocator.getPoolAddress A B fee
  /\ PoolLocator.getPoolAddress B (toLowerCase A) fee = PoolLocator.getPoolAddress B A fee
  /\ PoolLocator.getPoolAddress B a fee = PoolLocator.getPoolAddress B A fee.
Proof.
  pose proof (getAddress_lower _ Hhex HA) as Hlower.
  pose proof (getAddress_idempotent (getAddress_canonical _ HA)) as Hcanon.
  unfold PoolLocator.getPoolAddress.
  rewrite Hlower, Hcanon, HA. repeat split.
Qed.

Lemma getPoolAddress_spelling_witness :
  PoolLocator.getPoolAddress (str "0xc02aaa39b223fe8d0a0e5c4f27ead9083c756cc2")
                             PoolLocator.tokenB 3000
  = PoolLocator.getPoolAddress PoolLocator.tokenA PoolLocator.tokenB 3000.
Proof.
  refine (proj1 (@getPoolAddress_spelling
            PoolLocator.tokenA PoolLocator.tokenA PoolLocator.tokenB 3000 _ _));
    vm_compute; reflexivity.
Defined.

(** ** The query of the command-line script *)

Section QueryFacts.

Variable sep : ascii.

Lemma split_on_nonempty (s : jsstring) : Units.split_on sep s <> [].
Proof.
  destruct s as [|c s]; cbn [Units.split_on]; [discriminate|].
  destruct (Ascii.eqb c sep); [discriminate|].
  destruct (Units.split_on sep s); discriminate.
Qed.

Lemma split_on_single (w : jsstring) : ~ In sep w -> Units.split_on sep w = [w].
Proof.
  induction w as [|c w IH]; intro Hw; [reflexivity|].
  cbn [Units.split_on].
  destruct (Ascii.eqb c sep) eqn:Hc.
  - apply Ascii.eqb_eq in Hc. exfalso. apply Hw. left. exact Hc.
  - rewrite IH; [reflexivity|]. intro Hin. apply Hw. right. exact Hin.
Qed.

Lemma split_on_app (w rest : jsstring) :
  ~ In sep w -> Units.split_on sep (w ++ sep :: rest) = w :: Units.split_on sep rest.
Proof.
  induction w as [|c w IH]; intro Hw.
  - cbn [app Units.split_on]. rewrite Ascii.eqb_refl. reflexivity.
  - cbn [app Units.split_on].
    destruct (Ascii.eqb c sep) eqn:Hc.
    + apply Ascii.eqb_eq in Hc. exfalso. apply Hw. left. exact Hc.
    + rewrite IH; [reflexivity|]. intro Hin. apply Hw. right. exact Hin.
Qed.

(** The first piece has no separator; either it is the whole string or
    the string goes on after a separator. *)
Lemma split_on_inv (s w : jsstring) (ws : list jsstring) :
  Units.split_on sep s = w :: ws ->
  ~ In sep w
  /\ ((ws = [] /\ s = w)
      \/ exists rest, s = w ++ sep :: rest /\ ws = Units.split_on sep rest).
Proof.
  revert w ws. induction s as [|c s IH]; intros w ws Hsplit.
  - injection Hsplit as <- <-. split; [intros []|left; split; reflexivity].
  - cbn [Units.split_on] in Hsplit.
    destruct (Ascii.eqb c sep) eqn:Hc.
    + apply Ascii.eqb_eq in Hc. subst c. injection Hsplit as <- <-.
      split; [intros []|]. right. exists s. split; reflexivity.
    + apply Ascii.eqb_neq in Hc.
      destruct (Units.split_on sep s) as [|w0 ws0] eqn:Hs;
        [exfalso; exact (split_on_nonempty s Hs)|].
      injection Hsplit as <- <-.
      destruct (IH w0 ws0 eq_refl) as [Hw0 Hcases].
      split.
      * intros [Heq|Hin]; [apply Hc; exact Heq|exact (Hw0 Hin)].
      * destruct Hcases as [[-> ->]|(rest & -> & ->)].
        -- left. split; reflexivity.
        -- right. exists rest. split; reflexivity.
Qed.

(** Splitting into exactly five pieces. *)
Lemma split_on_five (s p0 p1 p2 p3 p4 : jsstring) :
  Units.split_on sep s = [p0; p1; p2; p3; p4]
  <-> (s = p0 ++ sep :: p1 ++ sep :: p2 ++ sep :: p3 ++ sep :: p4
       /\ ~ In sep p0 /\ ~ In sep p1 /\ ~ In sep p2 /\ ~ In sep p3 /\ ~ In sep p4).
Proof.
  split.
  - intro H.
    destruct (split_on_inv _ H) as [H0 [[Habs _]|(r0 & -> & H')]]; [discriminate Habs|].
    symmetry in H'.
    destruct (split_on_inv _ H') as [H1 [[Habs _]|(r1 & -> & H'')]]; [discriminate Habs|].
    symmetry in H''.
    destruct (split_on_inv _ H'') as [H2 [[Habs _]|(r2 & -> & H3')]]; [discriminate Habs|].
    symmetry in H3'.
    destruct (split_on_inv _ H3') as [H3 [[Habs _]|(r3 & -> & H4')]]; [discriminate Habs|].
    symmetry in H4'.
    destruct (split_on_inv _ H4') as [H4 [[_ ->]|(r4 & _ & Habs)]];
      [|exfalso; exact (split_on_nonempty r4 (eq_sym Habs))].
    repeat split; assumption.
  - intros (-> & H0 & H1 & H2 & H3 & H4).
    rewrite !split_on_app by assumption.
    rewrite split_on_single by assumption. reflexivity.
Qed.

End QueryFacts.

Lemma map_app_fixed {A} (f : A -> A) (l1 l2 k1 k2 : list A) :
  length l1 = length k1 -> map f (l1 ++ l2) = k1 ++ k2 ->
  map f l1 = k1 /\ map f l2 = k2.
Proof.
  revert k1. induction l1 as [|x l1 IH]; intros [|y k1] Hlen Heq; try discriminate.
  - split; [reflexivity|exact Heq].
  - cbn [app map] in Heq. injection Heq as Hx Heq.
    destruct (IH k1) as [H1 H2]; [cbn in Hlen; lia|exact Heq|].
    split; [cbn [map]; congruence|exact H2].
Qed.

(** X5. [parseUserQuery] accepts exactly the queries that, once
    lowercased, read "swap AMOUNT TOKENIN with TOKENOUT" with single
    spaces and no space inside the three fields (an empty field is
    accepted), and it returns the three fields of the lowercased query;
    so the token strings it returns are always lowercase. *)
Theorem parseUserQuery_format (query amountIn tokenIn tokenOut : jsstring) :
  (SwapFromMapping.parseUserQuery query = Ok (amountIn, tokenIn, tokenOut)
   <-> (toLowerCase query
        = str "swap " ++ amountIn ++ " "%char :: tokenIn ++ str " with " ++ tokenOut
        /\ ~ In " "%char amountIn /\ ~ In " "%char tokenIn /\ ~ In " "%char tokenOut))
  /\ (SwapFromMapping.parseUserQuery query = Ok (amountIn, tokenIn, tokenOut) ->
      toLowerCase amountIn = amountIn /\ toLowerCase tokenIn = tokenIn
      /\ toLowerCase tokenOut = tokenOut).
Proof.
  assert (Hswap : ~ In " "%char (str "swap")) by (cbv; intuition discriminate).
  assert (Hwith : ~ In " "%char (str "with")) by (cbv; intuition discriminate).
  assert (Hiff :
    SwapFromMapping.parseUserQuery query = Ok (amountIn, tokenIn, tokenOut)
    <-> (toLowerCase query
         = str "swap " ++ amountIn ++ " "%char :: tokenIn ++ str " with " ++ tokenOut
         /\ ~ In " "%char amountIn /\ ~ In " "%char tokenIn /\ ~ In " "%char tokenOut)).
  { unfold SwapFromMapping.parseUserQuery. split.
    - destruct (Units.split_on " " (toLowerCase query))
        as [|p0 [|p1 [|p2 [|p3 [|p4 [|p5 parts]]]]]] eqn:Hparts;
        cbn [length Nat.eqb negb orb nth]; try discriminate.
      destruct (Js.eqb p0 (str "swap")) eqn:H0; cbn [negb orb]; [|discriminate].
      destruct (Js.eqb p3 (str "with")) eqn:H3; cbn [negb orb]; [|discriminate].
      intros [= <- <- <-].
      apply eqb_eq in H0. apply eqb_eq in H3. subst p0 p3.
      apply split_on_five in Hparts.
      destruct Hparts as (Hq & _ & H1 & H2 & _ & H4).
      repeat split; assumption.
    - intros (Hq & H1 & H2 & H4).
      assert (Hparts : Units.split_on " " (toLowerCase query)
                       = [str "swap"; amountIn; tokenIn; str "with"; tokenOut]).
      { apply split_on_five. repeat split; assumption. }
      rewrite Hparts. reflexivity. }
  split; [exact Hiff|].
  intro Hok. apply Hiff in Hok. destruct Hok as (Hq & _).
  pose proof (toLowerCase_idempotent query) as Hidem.
  rewrite Hq in Hidem. unfold toLowerCase in Hidem.
  change (str "swap " ++ amountIn ++ " "%char :: tokenIn ++ str " with " ++ tokenOut)
    with (str "swap " ++ (amountIn ++ " "%char :: (tokenIn ++ str " with " ++ tokenOut)))
    in Hidem.
  apply map_app_fixed in Hidem; [|reflexivity]. destruct Hidem as [_ Hidem].
  apply map_app_fixed in Hidem; [|reflexivity]. destruct Hidem as [Ha Hidem].
  cbn [map] in Hidem. injection Hidem as Hidem.
  apply map_app_fixed in Hidem; [|reflexivity]. destruct Hidem as [Hin Hidem].
  apply (@map_app_fixed _ lower_char (str " with ") tokenOut (str " with ") tokenOut
           eq_refl) in Hidem.
  destruct Hidem as [_ Hout].
  repeat split; assumption.
Qed.

Lemma parseUserQuery_format_witness :
  SwapFromMapping.parseUserQuery (str "Swap 0.5 WETH with Dai")
  = Ok (str "0.5", str "weth", str "dai").
Proof.
  apply (proj1 (@parseUserQuery_format (str "Swap 0.5 WETH with Dai")
                  (str "0.5") (str "weth") (str "dai"))).
  repeat split; cbv; intuition discriminate.
Defined.

(** ** Slippage, in integers *)

(** X6. The minimum output the service and the script derive from a quote
    is the quote times 99 over 100 when WETH is on either side, times 97
    over 100 otherwise, rounded towards zero; for the pair weth to usdt
    it is never derived (the factor 99.5 raises a numeric fault).  A
    derived minimum of a non-negative quote is at least 97% of it, less
    rounding. *)
Theorem amountOutMinimum_exact (tokenIn tokenOut : jsstring) (amountOut : Z) :
  let exact (calculateSlippage : jsstring -> jsstring -> JsNumber.number)
            (amountOutMinimum_of : Z -> JsNumber.number -> result Z) :=
    amountOutMinimum_of amountOut (calculateSlippage tokenIn tokenOut)
    = minimum_for tokenIn tokenOut amountOut in
  exact AppV2.calculateSlippage AppV2.amountOutMinimum_of
  /\ exact SwapFromMapping.calculateSlippage SwapFromMapping.amountOutMinimum_of
  /\ ((0 <= amountOut)%Z ->
      forall amountOutMinimum,
        minimum_for tokenIn tokenOut amountOut = Ok amountOutMinimum ->
        (97 * amountOut <= 100 * amountOutMinimum + 99)%Z).
Proof.
  cbv zeta.
  unfold AppV2.calculateSlippage, SwapFromMapping.calculateSlippage,
    AppV2.amountOutMinimum_of, SwapFromMapping.amountOutMinimum_of,
    SwapFromMapping.BASE_SLIPPAGE, SwapFromMapping.MAX_SLIPPAGE, minimum_for.
  rewrite doubled_base_is_one_percent.
  destruct (Js.eqb tokenIn (str "weth") && Js.eqb tokenOut (str "usdt"));
    [|destruct (Js.eqb tokenIn (str "weth") || Js.eqb tokenOut (str "weth"))].
  - rewrite factor_half_percent. repeat split. intros _ m Hm. discriminate Hm.
  - rewrite factor_one_percent. repeat split.
    intros Hpos m [= <-]. rewrite Z.quot_div_nonneg by lia.
    pose proof (Z.div_mod (amountOut * 99) 100 ltac:(lia)).
    pose proof (Z.mod_pos_bound (amountOut * 99) 100 ltac:(lia)). lia.
  - rewrite factor_three_percent. repeat split.
    intros Hpos m [= <-]. rewrite Z.quot_div_nonneg by lia.
    pose proof (Z.div_mod (amountOut * 97) 100 ltac:(lia)).
    pose proof (Z.mod_pos_bound (amountOut * 97) 100 ltac:(lia)). lia.
Qed.

Lemma amountOutMinimum_exact_witness :
  (0 <= 1000)%Z /\ (97 * 1000 <= 100 * 970 + 99)%Z.
Proof.
  split; [lia|].
  apply (proj2 (proj2 (amountOutMinimum_exact (str "dai") (str "usdc") 1000)));
    [lia|reflexivity].
Defined.

(** ** What reaches the router *)

Section Projections.

Lemma pick_app {A} (f : event -> option A) (t1 t2 : list event) :
  pick f (t1 ++ t2) = pick f t1 ++ pick f t2.
Proof.
  induction t1 as [|ev t1 IH]; [reflexivity|].
  cbn [app pick]. destruct (f ev); rewrite IH; reflexivity.
Qed.

Lemma pick_blind {A} (f : event -> option A) (tokenIn tokenOut : jsstring) (amountIn : Z)
      (tiers : list Z) (tr : list event) :
  blind_to_quotes f ->
  Forall (reads_quote tokenIn tokenOut amountIn tiers) tr ->
  pick f tr = [].
Proof.
  intros Hblind Hall. induction Hall as [|ev tr Hev _ IH]; [reflexivity|].
  cbn [pick]. rewrite (Hblind _ _ _ _ _ Hev). exact IH.
Qed.

Lemma blind_swap_call : blind_to_quotes swap_call.
Proof. intros [X e x] tin tout amt tiers H. destruct e; try reflexivity; destruct H. Qed.

Lemma blind_gas_estimate : blind_to_quotes gas_estimate.
Proof. intros [X e x] tin tout amt tiers H. destruct e; try reflexivity; destruct H. Qed.

Lemma blind_wait_of : blind_to_quotes wait_of.
Proof. intros [X e x] tin tout amt tiers H. destruct e; try reflexivity; destruct H. Qed.

Lemma blind_clock_reading : blind_to_quotes clock_reading.
Proof. intros [X e x] tin tout amt tiers H. destruct e; try reflexivity; destruct H. Qed.

Lemma blind_wallet_of : blind_to_quotes wallet_of.
Proof. intros [X e x] tin tout amt tiers H. destruct e; try reflexivity; destruct H. Qed.

Lemma blind_balance_read : blind_to_quotes balance_read.
Proof. intros [X e x] tin tout amt tiers H. destruct e; try reflexivity; destruct H. Qed.

Lemma reads_quote_tail (tokenIn tokenOut : jsstring) (amountIn fee : Z) (tiers : list Z)
      (tr : list event) :
  Forall (reads_quote tokenIn tokenOut amountIn tiers) tr ->
  Forall (reads_quote tokenIn tokenOut amountIn (fee :: tiers)) tr.
Proof.
  apply Forall_impl. intros [X e x] H. destruct e; try exact H.
  destruct H as (? & ? & ? & ? & ?). repeat split; try assumption. now right.
Qed.

End Projections.

Section QuoteReads.

Variable W : Type.
Variable node : forall X, rpcE X -> W -> X * W.

Lemma getBestQuote_app_reads (tokenIn tokenOut : jsstring) (amountInWei : Z)
      (tiers : list Z) (w : W) :
  Forall (reads_quote tokenIn tokenOut amountInWei tiers)
    (trace (run node (AppV1.getBestQuote_loop tokenIn tokenOut amountInWei tiers) w)).
Proof.
  revert w. induction tiers as [|fee tiers IH]; intro w; [constructor|].
  cbn [AppV1.getBestQuote_loop Eff.bind trigger run log_error].
  destruct (node (QuoteExactInputSingle tokenIn tokenOut fee amountInWei 0) w)
    as [[amountOut|err] w1].
  - cbn. repeat constructor.
  - cbn [Eff.bind run].
    destruct (node (Console Stderr _) w1) as [u w2].
    cbn [trace]. repeat constructor. apply reads_quote_tail, IH.
Qed.

Lemma getBestQuote_v2_reads (tokenIn tokenOut : jsstring) (amountInWei : Z)
      (tiers : list Z) (w : W) :
  Forall (reads_quote tokenIn tokenOut amountInWei tiers)
    (trace (run node (AppV2.getBestQuote_loop tokenIn tokenOut amountInWei tiers) w)).
Proof.
  revert w. induction tiers as [|fee tiers IH]; intro w; [constructor|].
  cbn [AppV2.getBestQuote_loop Eff.bind trigger run log log_error].
  destruct (node (QuoteExactInputSingle tokenIn tokenOut fee amountInWei 0) w)
    as [[amountOut|err] w1].
  - cbn [Eff.bind run].
    destruct (node (Console Stdout _) w1) as [u w2].
    cbn. repeat constructor.
  - cbn [Eff.bind run].
    destruct (node (Console Stderr _) w1) as [u w2].
    cbn [trace]. repeat constructor. apply reads_quote_tail, IH.
Qed.

Lemma getBestQuote_script_reads (tokenIn tokenOut : jsstring) (amountInWei : Z)
      (tiers : list Z) (w : W) :
  Forall (reads_quote tokenIn tokenOut amountInWei tiers)
    (trace (run node (SwapFromMapping.getBestQuote_loop tokenIn tokenOut amountInWei tiers) w)).
Proof.
  revert w. induction tiers as [|fee tiers IH]; intro w; [constructor|].
  cbn [SwapFromMapping.getBestQuote_loop Eff.bind trigger run log].
  destruct (node (QuoteExactInputSingle tokenIn tokenOut fee amountInWei 0) w)
    as [[amountOut|err] w1].
  - cbn [Eff.bind run].
    destruct (node (Console Stdout _) w1) as [u w2].
    cbn. repeat constructor.
  - cbn [Eff.bind run].
    destruct (node (Console Stdout _) w1) as [u w2].
    cbn [trace]. repeat constructor. apply reads_quote_tail, IH.
Qed.

Lemma first_success_length (tiers : list Z) (answers : list (Z * result Z)) (q : quote) :
  first_success tiers answers q -> length answers <= length tiers.
Proof.
  intros (failed & errors & later & -> & Hlen & ->).
  rewrite !length_app, length_combine, length_map, Hlen. cbn [length]. lia.
Qed.

Lemma all_failed_length (tiers : list Z) (answers : list (Z * result Z)) :
  all_failed tiers answers -> length answers = length tiers.
Proof.
  intros (errors & Hlen & ->). rewrite length_combine, length_map, Hlen. lia.
Qed.

End QuoteReads.

Section SwapFlows.

Variable W : Type.
Variable node : forall X, rpcE X -> W -> X * W.

Ltac run_event :=
  cbn [run Eff.bind Eff.bind_throw Eff.try_catch trigger log log_error];
  match goal with
  | |- context [node ?e ?w] => destruct (node e w) as [? ?]
  end;
  cbn [returned world trace chain_ops chain_op_of app pick swap_call gas_estimate wait_of
       clock_reading wallet_of balance_read quote_answers quote_answer].

Ltac run_end :=
  cbn [run returned world trace chain_ops chain_op_of app pick swap_call gas_estimate wait_of
       clock_reading wallet_of balance_read quote_answers quote_answer];
  rewrite ?app_nil_r.

(** Catching an exception to print it and answer 500 changes nothing
    that a projection blind to printed lines sees. *)
Lemma catch_and_report_returned (p : program (result response))
      (report : error -> jsstring) (w : W) :
  returned (run node
     (try_catch p (fun error =>
        _ <- log_error (report error) ;;
        Ret (mkResponse 500 (ErrorBody (message error))))) w)
  = match returned (run node p w) with
    | Ok r => r
    | Err e => mkResponse 500 (ErrorBody (message e))
    end.
Proof.
  unfold try_catch. rewrite run_bind. cbv zeta. cbn [returned].
  destruct (run node p w) as [[r|e] w1 tr]; cbn [returned world trace].
  - reflexivity.
  - run_event. reflexivity.
Qed.

Lemma catch_and_report_pick {A} (f : event -> option A) (p : program (result response))
      (report : error -> jsstring) (w : W) :
  blind_to_quotes f ->
  pick f (trace (run node
     (try_catch p (fun error =>
        _ <- log_error (report error) ;;
        Ret (mkResponse 500 (ErrorBody (message error))))) w))
  = pick f (trace (run node p w)).
Proof.
  intro Hblind.
  unfold try_catch. rewrite run_bind. cbv zeta. cbn [trace].
  rewrite pick_app.
  destruct (run node p w) as [[r|e] w1 tr]; cbn [returned world trace].
  - cbn. apply app_nil_r.
  - cbn [run Eff.bind trigger log_error].
    destruct (node (Console Stderr (report e)) w1) as [u w2].
    cbn [trace run pick].
    rewrite (Hblind (Event (Console Stderr (report e)) u) [] [] 0%Z [] I).
    apply app_nil_r.
Qed.

Lemma catch_and_report_quotes (p : program (result response))
      (report : error -> jsstring) (w : W) :
  quote_answers (trace (run node
     (try_catch p (fun error =>
        _ <- log_error (report error) ;;
        Ret (mkResponse 500 (ErrorBody (message error))))) w))
  = quote_answers (trace (run node p w)).
Proof.
  unfold try_catch. rewrite run_bind. cbv zeta. cbn [trace].
  rewrite quote_answers_app.
  destruct (run node p w) as [[r|e] w1 tr]; cbn [returned world trace].
  - cbn. apply app_nil_r.
  - run_event. apply app_nil_r.
Qed.

Lemma capped_gas (gasLimitWithBuffer cap : Z) :
  (if (gasLimitWithBuffer <? cap)%Z then gasLimitWithBuffer else cap)
  = Z.min gasLimitWithBuffer cap.
Proof. destruct (Z.ltb_spec gasLimitWithBuffer cap); lia. Qed.

(** The [try] block of POST /swap, first variant. *)
Lemma v1_swap_try_flow (tokenMap : token_map) (key : jsstring) (req : request) (w : W) :
  let o := run node (AppV1.swap_try tokenMap key req) w in
  let tr := trace o in
  match pick swap_call tr with
  | [] => is_err (returned o) /\ pick wait_of tr = []
  | [(p, gasLimit, value, sent)] =>
      exists walletAddress tokenInAddress tokenOutAddress amountInWei q now estimatedGas,
        pick wallet_of tr = [(key, Ok walletAddress)]
        /\ validated tokenMap req = Ok (tokenInAddress, tokenOutAddress, amountInWei)
        /\ first_success AppV1.feeTiers (quote_answers tr) q
        /\ pick clock_reading tr = [now]
        /\ p = mkParams tokenInAddress tokenOutAddress (quote_fee q) walletAddress
                        (now + 300) amountInWei (Z.quot (quote_amountOut q * 98) 100) 0
        /\ pick gas_estimate tr = [(p, Ok estimatedGas)]
        /\ gasLimit = Z.min (Z.quot (estimatedGas * 120) 100) AppV1.MAX_GAS_LIMIT
        /\ value = 0%Z
        /\ match sent with
           | Err e => pick wait_of tr = [] /\ returned o = Err e
           | Ok swapTx =>
               exists confirmation,
                 pick wait_of tr = [(swapTx, confirmation)]
                 /\ returned o
                    = (rcpt <-? confirmation ;;
                       Ok (mkResponse 200 (SwapBody (transactionHash rcpt))))
           end
  | _ => False
  end.
Proof.
  cbv zeta. unfold AppV1.swap_try, validated.
  run_event.
  destruct r as [walletAddress|e]; [|cbn; split; [exact I|reflexivity]].
  cbn [Eff.bind_throw Eff.bind].
  destruct (AppV1.findTokenAddress_of tokenMap (Http.tokenIn req)) as [tokenInAddress|e];
    [|cbn; split; [exact I|reflexivity]].
  destruct (AppV1.findTokenAddress_of tokenMap (Http.tokenOut req)) as [tokenOutAddress|e];
    [|cbn; split; [exact I|reflexivity]].
  destruct (Json.parseEther (Http.amountIn req)) as [amountInWei|e];
    [|cbn; split; [exact I|reflexivity]].
  cbn [bind_result].
  unfold bind_throw. rewrite run_bind. cbv zeta. cbn [returned trace].
  pose proof (getBestQuote_app_selection node tokenInAddress tokenOutAddress
                amountInWei AppV1.feeTiers w0) as (_ & _ & Hsel).
  pose proof (getBestQuote_app_reads node tokenInAddress tokenOutAddress
                amountInWei AppV1.feeTiers w0) as Hreads.
  fold (AppV1.getBestQuote tokenInAddress tokenOutAddress amountInWei) in Hsel, Hreads.
  rewrite !pick_app, quote_answers_app.
  rewrite (pick_blind blind_swap_call Hreads), (pick_blind blind_wait_of Hreads),
    (pick_blind blind_gas_estimate Hreads), (pick_blind blind_clock_reading Hreads),
    (pick_blind blind_wallet_of Hreads).
  cbn [app].
  destruct (run node (AppV1.getBestQuote _ _ _) w0) as [[q|e] w1 tr];
    cbn [returned world trace] in *;
    [|cbn; split; [exact I|reflexivity]].
  run_event. run_event.
  destruct r as [estimatedGas|e]; [|cbn; split; [exact I|reflexivity]].
  run_event. run_event.
  destruct r as [swapTx|e]; [run_event; destruct r as [rcpt|e]|]; run_end;
    exists walletAddress, tokenInAddress, tokenOutAddress, amountInWei, q, z, estimatedGas;
    repeat (split; [first [reflexivity|exact Hsel|apply capped_gas]|]).
  - exists (Ok rcpt). split; reflexivity.
  - exists (Err e). split; reflexivity.
  - split; reflexivity.
Qed.


Lemma service_minimum (tokenIn tokenOut : jsstring) (amountOut : Z) :
  AppV2.amountOutMinimum_of amountOut (AppV2.calculateSlippage tokenIn tokenOut)
  = minimum_for tokenIn tokenOut amountOut.
Proof.
  unfold AppV2.calculateSlippage, AppV2.amountOutMinimum_of, minimum_for.
  rewrite doubled_base_is_one_percent.
  destruct (Js.eqb tokenIn (str "weth") && Js.eqb tokenOut (str "usdt"));
    [|destruct (Js.eqb tokenIn (str "weth") || Js.eqb tokenOut (str "weth"))].
  - rewrite factor_half_percent. reflexivity.
  - rewrite factor_one_percent. reflexivity.
  - rewrite factor_three_percent. reflexivity.
Qed.

Lemma script_minimum (tokenIn tokenOut : jsstring) (amountOut : Z) :
  SwapFromMapping.amountOutMinimum_of amountOut
    (SwapFromMapping.calculateSlippage tokenIn tokenOut)
  = minimum_for tokenIn tokenOut amountOut.
Proof.
  unfold SwapFromMapping.calculateSlippage, SwapFromMapping.amountOutMinimum_of,
    SwapFromMapping.BASE_SLIPPAGE, SwapFromMapping.MAX_SLIPPAGE, minimum_for.
  rewrite doubled_base_is_one_percent.
  destruct (Js.eqb tokenIn (str "weth") && Js.eqb tokenOut (str "usdt"));
    [|destruct (Js.eqb tokenIn (str "weth") || Js.eqb tokenOut (str "weth"))].
  - rewrite factor_half_percent. reflexivity.
  - rewrite factor_one_percent. reflexivity.
  - rewrite factor_three_percent. reflexivity.
Qed.

Lemma address_service_minimum (tokenIn tokenOut : jsstring) (amountOut : Z) :
  AppV3.amountOutMinimum_of amountOut (AppV3.calculateSlippage tokenIn tokenOut)
  = Ok (minimum_by_address tokenIn tokenOut amountOut).
Proof.
  unfold AppV3.calculateSlippage, AppV3.amountOutMinimum_of, minimum_by_address.
  cbv zeta.
  destruct (Js.eqb (toLowerCase tokenIn) (str "eth")
            && Js.eqb (toLowerCase tokenOut) (str "usdt"));
    [|destruct (Js.eqb (toLowerCase tokenIn) (str "eth")
                || Js.eqb (toLowerCase tokenOut) (str "eth"))].
  - change (JsNumber.to_BigNumber _) with (Ok 99%Z). reflexivity.
  - change (JsNumber.to_BigNumber _) with (Ok 98%Z). reflexivity.
  - change (JsNumber.to_BigNumber _) with (Ok 90%Z). reflexivity.
Qed.

(** The balance and allowance block of an ERC-20 input. *)
Lemma service_erc20_checks_flow (tokenInAddress walletAddress : jsstring)
      (amountInWei : Z) (w : W) :
  let o := run node (AppV2.erc20_checks tokenInAddress walletAddress amountInWei) w in
  let tr := trace o in
  pick swap_call tr = [] /\ quote_answers tr = [] /\ pick clock_reading tr = []
  /\ pick wallet_of tr = [] /\ pick gas_estimate tr = []
  /\ exists answer,
       pick balance_read tr = [(tokenInAddress, walletAddress, answer)]
       /\ match answer with
          | Err e => returned o = Err e /\ chain_ops tr = [] /\ pick wait_of tr = []
          | Ok balance =>
              if (balance <? amountInWei)%Z
              then returned o = Ok (Some insufficient_balance_response)
                   /\ chain_ops tr = [] /\ pick wait_of tr = []
              else match returned o with
                   | Ok (Some _) => False
                   | _ => True
                   end
          end.
Proof.
  cbv zeta. unfold AppV2.erc20_checks.
  run_event.
  destruct r as [balance|e]; [|run_end; repeat split; exists (Err e); repeat split].
  cbn [Eff.bind_throw Eff.bind].
  destruct (balance <? amountInWei)%Z eqn:Hbalance;
    [run_end; repeat split; exists (Ok balance); rewrite Hbalance; repeat split|].
  run_event.
  destruct r as [allowance|e];
    [|run_end; repeat split; exists (Ok balance); rewrite Hbalance; repeat split].
  cbn [Eff.bind_throw Eff.bind].
  destruct (allowance <? amountInWei)%Z;
    [|run_end; repeat split; exists (Ok balance); rewrite Hbalance; repeat split].
  run_event.
  destruct r as [approveTx|e];
    [|run_end; repeat split; exists (Ok balance); rewrite Hbalance; repeat split].
  run_event.
  destruct r as [rcpt|e];
    [|run_end; repeat split; exists (Ok balance); rewrite Hbalance; repeat split].
  run_event. run_end.
  repeat split; exists (Ok balance); rewrite Hbalance; repeat split.
Qed.


(** From "Get the best quote" on, in app.js. *)
Lemma service_quote_and_swap_flow
      (walletAddress tokenInAddress tokenOutAddress tokenInStr tokenOutStr : jsstring)
      (amountInWei valueToSend : Z) (w : W) :
  let o := run node (AppV2.quote_and_swap walletAddress tokenInAddress tokenOutAddress
                       tokenInStr tokenOutStr amountInWei valueToSend) w in
  let tr := trace o in
  pick wallet_of tr = [] /\ pick balance_read tr = []
  /\ match pick swap_call tr with
     | [] => is_err (returned o) /\ pick wait_of tr = []
     | [(p, gasLimit, value, sent)] =>
         exists q now amountOutMinimum,
           first_success AppV2.feeTiers (quote_answers tr) q
           /\ pick clock_reading tr = [now]
           /\ minimum_for (toLowerCase tokenInStr) (toLowerCase tokenOutStr)
                          (quote_amountOut q) = Ok amountOutMinimum
           /\ p = mkParams tokenInAddress tokenOutAddress (quote_fee q) walletAddress
                           (now + 300) amountInWei amountOutMinimum 0
           /\ gasLimit = AppV2.MAX_GAS_LIMIT
           /\ value = valueToSend
           /\ match sent with
              | Err e => pick wait_of tr = [] /\ returned o = Err e
              | Ok swapTx =>
                  exists confirmation,
                    pick wait_of tr = [(swapTx, confirmation)]
                    /\ returned o
                       = (rcpt <-? confirmation ;;
                          Ok (mkResponse 200 (SwapBody (transactionHash rcpt))))
              end
     | _ => False
     end.
Proof.
  cbv zeta. unfold AppV2.quote_and_swap.
  unfold bind_throw. rewrite run_bind. cbv zeta. cbn [returned trace].
  pose proof (getBestQuote_v2_selection node tokenInAddress tokenOutAddress
                amountInWei AppV2.feeTiers w) as (_ & _ & Hsel).
  pose proof (getBestQuote_v2_reads node tokenInAddress tokenOutAddress
                amountInWei AppV2.feeTiers w) as Hreads.
  fold (AppV2.getBestQuote tokenInAddress tokenOutAddress amountInWei) in Hsel, Hreads.
  rewrite !pick_app, quote_answers_app.
  rewrite (pick_blind blind_swap_call Hreads), (pick_blind blind_wait_of Hreads),
    (pick_blind blind_clock_reading Hreads), (pick_blind blind_wallet_of Hreads),
    (pick_blind blind_balance_read Hreads).
  cbn [app].
  destruct (run node (AppV2.getBestQuote _ _ _) w) as [[q|e] w1 tr];
    cbn [returned world trace] in *;
    [|cbn; repeat split].
  rewrite service_minimum.
  destruct (minimum_for _ _ _) as [amountOutMinimum|e] eqn:Hminimum;
    [|cbn; repeat split].
  run_event. run_event.
  destruct r as [swapTx|e]; [run_event; destruct r as [rcpt|e]|]; run_end;
    (split; [reflexivity|]); (split; [reflexivity|]);
    exists q, z, amountOutMinimum;
    repeat (split; [first [reflexivity|exact Hsel|exact Hminimum]|]).
  - exists (Ok rcpt). split; reflexivity.
  - exists (Err e). split; reflexivity.
  - split; reflexivity.
Qed.


(** The [try] block of POST /swap in app.js: the swap it sends. *)
Lemma service_swap_try_flow (tokenMap : token_map) (key : jsstring) (req : request) (w : W) :
  let o := run node (AppV2.swap_try tokenMap key req) w in
  let tr := trace o in
  match pick swap_call tr with
  | [] =>
      match returned o with
      | Ok r => r = insufficient_balance_response
      | Err _ => True
      end
  | [(p, gasLimit, value, sent)] =>
      exists walletAddress tokenInStr tokenOutStr tokenInAddress tokenOutAddress
             amountInWei q now amountOutMinimum,
        pick wallet_of tr = [(key, Ok walletAddress)]
        /\ Http.tokenIn req = JString tokenInStr
        /\ Http.tokenOut req = JString tokenOutStr
        /\ AppV2.findTokenAddress tokenMap tokenInStr = Ok tokenInAddress
        /\ AppV2.findTokenAddress tokenMap tokenOutStr = Ok tokenOutAddress
        /\ Json.parseEther (Http.amountIn req) = Ok amountInWei
        /\ first_success AppV2.feeTiers (quote_answers tr) q
        /\ pick clock_reading tr = [now]
        /\ minimum_for (toLowerCase tokenInStr) (toLowerCase tokenOutStr)
                       (quote_amountOut q) = Ok amountOutMinimum
        /\ p = mkParams tokenInAddress tokenOutAddress (quote_fee q) walletAddress
                        (now + 300) amountInWei amountOutMinimum 0
        /\ gasLimit = AppV2.MAX_GAS_LIMIT
        /\ value = (if Js.eqb (toLowerCase tokenInStr) (str "eth")
                    then amountInWei else 0%Z)
        /\ (if Js.eqb (toLowerCase tokenInStr) (str "eth")
            then pick balance_read tr = []
            else exists balance,
                pick balance_read tr = [(tokenInAddress, walletAddress, Ok balance)]
                /\ (amountInWei <= balance)%Z)
        /\ match sent with
           | Err e => returned o = Err e
           | Ok swapTx =>
               exists earlier confirmation,
                 pick wait_of tr = earlier ++ [(swapTx, confirmation)]
                 /\ returned o
                    = (rcpt <-? confirmation ;;
                       Ok (mkResponse 200 (SwapBody (transactionHash rcpt))))
           end
  | _ => False
  end.
Proof.
  cbv zeta. unfold AppV2.swap_try.
  run_event.
  destruct r as [walletAddress|e]; [|run_end; exact I].
  cbn [Eff.bind_throw Eff.bind]. unfold AppV2.findTokenAddress_of.
  destruct (Http.tokenIn req) as [| | | |tokenInStr|] eqn:HtokenIn;
    try (run_end; exact I).
  cbn [string_receiver bind_result].
  destruct (AppV2.findTokenAddress tokenMap tokenInStr) as [tokenInAddress|e] eqn:Hin;
    [|run_end; exact I].
  destruct (Http.tokenOut req) as [| | | |tokenOutStr|] eqn:HtokenOut;
    try (run_end; exact I).
  cbn [string_receiver bind_result].
  destruct (AppV2.findTokenAddress tokenMap tokenOutStr) as [tokenOutAddress|e] eqn:Hout;
    [|run_end; exact I].
  destruct (Json.parseEther (Http.amountIn req)) as [amountInWei|e] eqn:Hamount;
    [|run_end; exact I].
  destruct (Js.eqb (toLowerCase tokenInStr) (str "eth")) eqn:Heth.
  - (* ETH: no balance is read *)
    pose proof (service_quote_and_swap_flow walletAddress tokenInAddress tokenOutAddress
                  tokenInStr tokenOutStr amountInWei amountInWei w0) as Hflow.
    cbv zeta in Hflow.
    set (o := run node (AppV2.quote_and_swap _ _ _ _ _ _ _) w0) in *.
    destruct Hflow as (Hwallet & Hbalance & Hflow).
    rewrite Hwallet, Hbalance.
    destruct (pick swap_call (trace o)) as [|[[[p gasLimit] value] sent] [|]];
      [destruct Hflow as [Herr _]; destruct (returned o); [destruct Herr|exact I]
      | |exact Hflow].
    destruct Hflow as (q & now & amountOutMinimum & Hsel & Hclock & Hminimum & Hp & Hgas
                       & Hvalue & Hsent).
    exists walletAddress, tokenInStr, tokenOutStr, tokenInAddress, tokenOutAddress,
      amountInWei, q, now, amountOutMinimum.
    rewrite Heth.
    repeat (split; [first [reflexivity|assumption]|]).
    destruct sent as [swapTx|e]; [|apply Hsent].
    destruct Hsent as (confirmation & Hwait & Hreturned).
    exists [], confirmation. split; assumption.
  - (* ERC-20 *)
    unfold bind_throw. rewrite run_bind. cbv zeta. cbn [returned trace].
    rewrite !pick_app, quote_answers_app.
    pose proof (service_erc20_checks_flow tokenInAddress walletAddress amountInWei w0)
      as Hchecks.
    cbv zeta in Hchecks.
    destruct Hchecks as (Hswap & Hquotes & Hclock & Hwallet & _ & answer & Hbalance & Hanswer).
    rewrite Hswap, Hquotes, Hclock, Hwallet, Hbalance. cbn [app].
    destruct (run node (AppV2.erc20_checks _ _ _) w0) as [[[early|]|e] w1 tr1];
      cbn [returned world trace] in *; [| |run_end; exact I].
    + (* the early answer *)
      run_end.
      destruct answer as [balance|e]; [|destruct Hanswer as [Habs _]; discriminate Habs].
      destruct (balance <? amountInWei)%Z; [|destruct Hanswer].
      destruct Hanswer as [[= ->] _]. reflexivity.
    + pose proof (service_quote_and_swap_flow walletAddress tokenInAddress tokenOutAddress
                    tokenInStr tokenOutStr amountInWei 0 w1) as Hflow.
      cbv zeta in Hflow.
      set (o := run node (AppV2.quote_and_swap _ _ _ _ _ _ _) w1) in *.
      destruct Hflow as (Hwallet2 & Hbalance2 & Hflow).
      rewrite Hwallet2, Hbalance2.
      destruct (pick swap_call (trace o)) as [|[[[p gasLimit] value] sent] [|]];
        [destruct Hflow as [Herr _]; destruct (returned o); [destruct Herr|exact I]
        | |exact Hflow].
      destruct Hflow as (q & now & amountOutMinimum & Hsel & Hnow & Hminimum & Hp & Hgas
                         & Hvalue & Hsent).
      exists walletAddress, tokenInStr, tokenOutStr, tokenInAddress, tokenOutAddress,
        amountInWei, q, now, amountOutMinimum.
      rewrite Heth.
      repeat (split; [first [reflexivity|assumption]|]).
      split.
      * destruct answer as [balance|e]; [|destruct Hanswer as [Habs _]; discriminate Habs].
        exists balance. split; [reflexivity|].
        destruct (Z.ltb_spec balance amountInWei) as [Hlt|Hge]; [|exact Hge].
        destruct Hanswer as [Habs _]. discriminate Habs.
      * destruct sent as [swapTx|e]; [|apply Hsent].
        destruct Hsent as (confirmation & Hwait & Hreturned).
        exists (pick wait_of tr1), confirmation. rewrite Hwait. split; [reflexivity|assumption].
Qed.


(** The [try] block of POST /swap in app.js: the balance it reads. *)
Lemma service_swap_try_balance (tokenMap : token_map) (key : jsstring) (req : request)
      (w : W) :
  let o := run node (AppV2.swap_try tokenMap key req) w in
  let tr := trace o in
  match pick balance_read tr with
  | [] => True
  | [(token, owner, answer)] =>
      exists walletAddress tokenInStr tokenInAddress amountInWei,
        pick wallet_of tr = [(key, Ok walletAddress)]
        /\ Http.tokenIn req = JString tokenInStr
        /\ Js.eqb (toLowerCase tokenInStr) (str "eth") = false
        /\ AppV2.findTokenAddress tokenMap tokenInStr = Ok tokenInAddress
        /\ Json.parseEther (Http.amountIn req) = Ok amountInWei
        /\ token = tokenInAddress
        /\ owner = walletAddress
        /\ match answer with
           | Ok balance =>
               (balance < amountInWei)%Z ->
               returned o = Ok insufficient_balance_response
               /\ chain_ops tr = [] /\ quote_answers tr = [] /\ pick swap_call tr = []
           | Err e =>
               returned o = Err e
               /\ chain_ops tr = [] /\ quote_answers tr = [] /\ pick swap_call tr = []
           end
  | _ => False
  end.
Proof.
  cbv zeta. unfold AppV2.swap_try.
  run_event.
  destruct r as [walletAddress|e]; [|run_end; exact I].
  cbn [Eff.bind_throw Eff.bind]. unfold AppV2.findTokenAddress_of.
  destruct (Http.tokenIn req) as [| | | |tokenInStr|] eqn:HtokenIn;
    try (run_end; exact I).
  cbn [string_receiver bind_result].
  destruct (AppV2.findTokenAddress tokenMap tokenInStr) as [tokenInAddress|e] eqn:Hin;
    [|run_end; exact I].
  destruct (Http.tokenOut req) as [| | | |tokenOutStr|] eqn:HtokenOut;
    try (run_end; exact I).
  cbn [string_receiver bind_result].
  destruct (AppV2.findTokenAddress tokenMap tokenOutStr) as [tokenOutAddress|e] eqn:Hout;
    [|run_end; exact I].
  destruct (Json.parseEther (Http.amountIn req)) as [amountInWei|e] eqn:Hamount;
    [|run_end; exact I].
  destruct (Js.eqb (toLowerCase tokenInStr) (str "eth")) eqn:Heth.
  - pose proof (service_quote_and_swap_flow walletAddress tokenInAddress tokenOutAddress
                  tokenInStr tokenOutStr amountInWei amountInWei w0) as (_ & Hbalance & _).
    cbv zeta in Hbalance. rewrite Hbalance. exact I.
  - unfold bind_throw. rewrite run_bind. cbv zeta. cbn [returned trace].
    rewrite !pick_app, quote_answers_app, chain_ops_app.
    pose proof (service_erc20_checks_flow tokenInAddress walletAddress amountInWei w0)
      as Hchecks.
    cbv zeta in Hchecks.
    destruct Hchecks as (Hswap & Hquotes & _ & Hwallet & _ & answer & Hbalance & Hanswer).
    rewrite Hswap, Hquotes, Hwallet, Hbalance. cbn [app].
    destruct (run node (AppV2.erc20_checks _ _ _) w0) as [[[early|]|e0] w1 tr1];
      cbn [returned world trace] in *.
    1, 3: run_end.
    3: { cbn [Eff.bind].
         pose proof (service_quote_and_swap_flow walletAddress tokenInAddress
                       tokenOutAddress tokenInStr tokenOutStr amountInWei 0 w1)
           as (Hwallet2 & Hbalance2 & _).
         cbv zeta in Hwallet2, Hbalance2. rewrite Hwallet2, Hbalance2.
         exists walletAddress, tokenInStr, tokenInAddress, amountInWei.
         repeat (split; [first [reflexivity|assumption]|]).
         destruct answer as [balance|e].
         - intro Hlow. apply Z.ltb_lt in Hlow. rewrite Hlow in Hanswer.
           destruct Hanswer as [Habs _]. discriminate Habs.
         - destruct Hanswer as [Habs _]. discriminate Habs. }
    all: exists walletAddress, tokenInStr, tokenInAddress, amountInWei;
      repeat (split; [first [reflexivity|assumption]|]);
      destruct answer as [balance|e];
      [intro Hlow; apply Z.ltb_lt in Hlow; rewrite Hlow in Hanswer|];
      destruct Hanswer as (Hreturned & Hops & _);
      try discriminate Hreturned;
      injection Hreturned as Hreturned; try subst early; try subst e0;
      rewrite Hops; repeat split.
Qed.

End SwapFlows.

Section ServiceSwap.

Variable W : Type.
Variable node : forall X, rpcE X -> W -> X * W.

(** Past its two guards POST /swap of app.js is its [try] block, with
    every exception turned into a 500. *)
Lemma service_post_swap_run (tokenMap : token_map) (req : request) (w : W) :
  AppV1.header_missing (authorization req) = false ->
  missing_parameters req = false ->
  let o := run node (AppV2.post_swap tokenMap req) w in
  let o' := run node (AppV2.swap_try tokenMap (AppV1.print_header (authorization req))
                        req) w in
  returned o = match returned o' with
               | Ok r => r
               | Err e => mkResponse 500 (ErrorBody (message e))
               end
  /\ (forall A (f : event -> option A),
         blind_to_quotes f -> pick f (trace o) = pick f (trace o'))
  /\ quote_answers (trace o) = quote_answers (trace o')
  /\ chain_ops (trace o) = chain_ops (trace o').
Proof.
  intros Hheader Hmissing. cbv zeta. unfold AppV2.post_swap.
  rewrite Hheader, Hmissing.
  split; [apply catch_and_report_returned|].
  split; [intros A f Hblind; apply catch_and_report_pick; exact Hblind|].
  split; [apply catch_and_report_quotes|apply catch_and_report_ops].
Qed.

Lemma service_post_swap_guarded (tokenMap : token_map) (req : request) (w : W) :
  AppV1.header_missing (authorization req) = true \/ missing_parameters req = true ->
  let o := run node (AppV2.post_swap tokenMap req) w in
  trace o = [] /\ (status (returned o) = 401 \/ status (returned o) = 400)%Z.
Proof.
  intros Hguard. cbv zeta. unfold AppV2.post_swap.
  destruct (AppV1.header_missing (authorization req)); [split; [reflexivity|now left]|].
  destruct (missing_parameters req); [split; [reflexivity|now right]|].
  destruct Hguard as [H|H]; discriminate H.
Qed.

End ServiceSwap.

(** ** POST /swap of app.js (second variant) *)

(** X7. POST /swap of app.js sends at most one swap.  The swap it sends
    is built from the request and from the first fee tier that could be
    quoted: the two resolved token addresses, that tier's fee, the wallet
    as recipient, a deadline 300 seconds after the clock reading, the
    parsed amount, the minimum the slippage heuristic derives from the
    quoted amount, the gas limit 300000, and as value the amount when the
    input is "eth" and zero otherwise.  For an ERC-20 input the balance
    read before was at least the amount. *)
Theorem post_swap_builds_swap_from_quote (W : Type) (node : forall X, rpcE X -> W -> X * W)
        (w : W) (tokenMap : token_map) (req : request) :
  let tr := trace (run node (AppV2.post_swap tokenMap req) w) in
  match pick swap_call tr with
  | [] => True
  | [(p, gasLimit, value, sent)] =>
      exists walletAddress tokenInStr tokenOutStr tokenInAddress tokenOutAddress
             amountInWei q now amountOutMinimum,
        pick wallet_of tr = [(AppV1.print_header (authorization req), Ok walletAddress)]
        /\ Http.tokenIn req = JString tokenInStr
        /\ Http.tokenOut req = JString tokenOutStr
        /\ AppV2.findTokenAddress tokenMap tokenInStr = Ok tokenInAddress
        /\ AppV2.findTokenAddress tokenMap tokenOutStr = Ok tokenOutAddress
        /\ Json.parseEther (Http.amountIn req) = Ok amountInWei
        /\ first_success AppV2.feeTiers (quote_answers tr) q
        /\ pick clock_reading tr = [now]
        /\ minimum_for (toLowerCase tokenInStr) (toLowerCase tokenOutStr)
                       (quote_amountOut q) = Ok amountOutMinimum
        /\ p = mkParams tokenInAddress tokenOutAddress (quote_fee q) walletAddress
                        (now + 300) amountInWei amountOutMinimum 0
        /\ gasLimit = 300000%Z
        /\ value = (if Js.eqb (toLowerCase tokenInStr) (str "eth")
                    then amountInWei else 0%Z)
        /\ (if Js.eqb (toLowerCase tokenInStr) (str "eth")
            then pick balance_read tr = []
            else exists balance,
                pick balance_read tr = [(tokenInAddress, walletAddress, Ok balance)]
                /\ (amountInWei <= balance)%Z)
  | _ => False
  end.
Proof.
  cbv zeta.
  destruct (AppV1.header_missing (authorization req)) eqn:Hheader;
    [rewrite (proj1 (service_post_swap_guarded node tokenMap req w (or_introl Hheader)));
     exact I|].
  destruct (missing_parameters req) eqn:Hmissing;
    [rewrite (proj1 (service_post_swap_guarded node tokenMap req w (or_intror Hmissing)));
     exact I|].
  destruct (service_post_swap_run node tokenMap req w Hheader Hmissing)
    as (_ & Hpick & Hquotes & _).
  rewrite !Hpick, Hquotes
    by first [apply blind_swap_call|apply blind_wallet_of|apply blind_clock_reading
             |apply blind_balance_read].
  pose proof (service_swap_try_flow node tokenMap (AppV1.print_header (authorization req))
                req w) as Hflow.
  cbv zeta in Hflow.
  destruct (pick swap_call _) as [|[[[p gasLimit] value] sent] [|]];
    [exact I| |exact Hflow].
  destruct Hflow as (walletAddress & tokenInStr & tokenOutStr & tokenInAddress
                     & tokenOutAddress & amountInWei & q & now & amountOutMinimum & Hflow).
  exists walletAddress, tokenInStr, tokenOutStr, tokenInAddress, tokenOutAddress,
    amountInWei, q, now, amountOutMinimum.
  repeat (split; [apply Hflow|]). apply Hflow.
Qed.

Example post_swap_sends_weth_for_dai :
  pick swap_call (trace (run (tier_3000_node 0) (AppV2.post_swap sample_map good_request) 0))
  = [(mkParams (str "0xC02aaA39b223FE8D0A0e5C4F27eAD9083C756Cc2")
               (str "0x6B175474E89094C44Da98b954EedeAC495271d0F")
               3000 (str "0x00000000000000000000000000000000000000AA") 1700000300
               (10 ^ 18) (198 * 10 ^ 16) 0,
      300000%Z, 0%Z, Ok (mkTx (str "0xb2")))].
Proof. vm_compute. reflexivity. Qed.

(** X8. POST /swap of app.js answers 200 exactly for a confirmed swap: when
    the one swap it sent was accepted and the confirmation awaited last
    arrived, the answer is 200 with the hash of that receipt; and 200 is
    answered in no other case. *)
Theorem post_swap_success_is_confirmed_swap (W : Type)
        (node : forall X, rpcE X -> W -> X * W) (w : W) (tokenMap : token_map)
        (req : request) :
  let o := run node (AppV2.post_swap tokenMap req) w in
  (forall rcpt,
      confirmed_swap (trace o) rcpt ->
      returned o = mkResponse 200 (SwapBody (transactionHash rcpt)))
  /\ (status (returned o) = 200%Z -> exists rcpt, confirmed_swap (trace o) rcpt).
Proof.
  cbv zeta. unfold confirmed_swap.
  destruct (AppV1.header_missing (authorization req)) eqn:Hheader;
    [destruct (service_post_swap_guarded node tokenMap req w (or_introl Hheader))
       as [-> Hstatus];
     split; [intros rcpt (? & ? & ? & ? & ? & Habs & _); discriminate Habs
            |intro H200; rewrite H200 in Hstatus; destruct Hstatus; discriminate]|].
  destruct (missing_parameters req) eqn:Hmissing;
    [destruct (service_post_swap_guarded node tokenMap req w (or_intror Hmissing))
       as [-> Hstatus];
     split; [intros rcpt (? & ? & ? & ? & ? & Habs & _); discriminate Habs
            |intro H200; rewrite H200 in Hstatus; destruct Hstatus; discriminate]|].
  destruct (service_post_swap_run node tokenMap req w Hheader Hmissing)
    as (-> & Hpick & _).
  rewrite !Hpick by first [apply blind_swap_call|apply blind_wait_of].
  pose proof (service_swap_try_flow node tokenMap (AppV1.print_header (authorization req))
                req w) as Hflow.
  cbv zeta in Hflow.
  destruct (pick swap_call _) as [|[[[p gasLimit] value] sent] [|]];
    [| |destruct Hflow].
  - split; [intros rcpt (? & ? & ? & ? & ? & Habs & _); discriminate Habs|].
    destruct (returned _) as [r|e]; [subst r|]; intro Habs; discriminate Habs.
  - destruct Hflow as (? & ? & ? & ? & ? & ? & ? & ? & ? & _ & _ & _ & _ & _ & _ & _ & _
                       & _ & _ & _ & _ & _ & Hsent).
    destruct sent as [swapTx|e].
    + destruct Hsent as (earlier & confirmation & Hwait & ->). rewrite Hwait. split.
      * intros rcpt (? & ? & ? & ? & earlier' & [= _ _ _ <-] & Hlast).
        apply app_inj_tail in Hlast. destruct Hlast as [_ [= ->]]. reflexivity.
      * destruct confirmation as [rcpt|e]; [|intro Habs; discriminate Habs].
        intros _. exists rcpt, p, gasLimit, value, swapTx, earlier. split; reflexivity.
    + rewrite Hsent. split.
      * intros rcpt (? & ? & ? & ? & ? & Habs & _). discriminate Habs.
      * intro Habs. discriminate Habs.
Qed.

Lemma post_swap_success_is_confirmed_swap_witness :
  let o := run (tier_3000_node 0) (AppV2.post_swap sample_map good_request) 0 in
  confirmed_swap (trace o) (mkReceipt (str "0xb2") 1)
  /\ returned o = mkResponse 200 (SwapBody (str "0xb2")).
Proof.
  assert (Hconfirmed :
            confirmed_swap
              (trace (run (tier_3000_node 0) (AppV2.post_swap sample_map good_request) 0))
              (mkReceipt (str "0xb2") 1)).
  { eexists _, _, _, _, [_]. vm_compute. split; reflexivity. }
  split; [exact Hconfirmed|].
  exact (proj1 (post_swap_success_is_confirmed_swap (tier_3000_node 0) 0 sample_map
                  good_request) _ Hconfirmed).
Defined.

(** X9. Insufficient balance in POST /swap of app.js: when the balance
    read is below the requested amount the answer is 400, and nothing
    else happened on the chain: no allowance was read, nothing was
    approved, no quote was asked, no swap was sent.  The balance read is
    that of the wallet in the resolved input token, and it is the only
    one read. *)
Theorem post_swap_insufficient_balance (W : Type) (node : forall X, rpcE X -> W -> X * W)
        (w : W) (tokenMap : token_map) (req : request)
        (token owner : jsstring) (balance amountInWei : Z) :
  let o := run node (AppV2.post_swap tokenMap req) w in
  let tr := trace o in
  Json.parseEther (Http.amountIn req) = Ok amountInWei ->
  In (token, owner, Ok balance) (pick balance_read tr) ->
  (balance < amountInWei)%Z ->
  returned o = insufficient_balance_response
  /\ chain_ops tr = [] /\ quote_answers tr = [] /\ pick swap_call tr = []
  /\ pick balance_read tr = [(token, owner, Ok balance)]
  /\ AppV2.findTokenAddress_of tokenMap (Http.tokenIn req) = Ok token
  /\ pick wallet_of tr = [(AppV1.print_header (authorization req), Ok owner)].
Proof.
  cbv zeta. intros Hamount Hread Hlow.
  destruct (AppV1.header_missing (authorization req)) eqn:Hheader;
    [rewrite (proj1 (service_post_swap_guarded node tokenMap req w (or_introl Hheader)))
       in Hread; destruct Hread|].
  destruct (missing_parameters req) eqn:Hmissing;
    [rewrite (proj1 (service_post_swap_guarded node tokenMap req w (or_intror Hmissing)))
       in Hread; destruct Hread|].
  destruct (service_post_swap_run node tokenMap req w Hheader Hmissing)
    as (-> & Hpick & -> & ->).
  rewrite !Hpick in *
    by first [apply blind_swap_call|apply blind_wallet_of|apply blind_balance_read].
  pose proof (service_swap_try_balance node tokenMap
                (AppV1.print_header (authorization req)) req w) as Hflow.
  cbv zeta in Hflow.
  destruct (pick balance_read _) as [|[[token' owner'] answer] [|]];
    [destruct Hread| |destruct Hflow].
  destruct Hread as [[= -> -> ->]|[]].
  destruct Hflow as (walletAddress & tokenInStr & tokenInAddress & amountInWei' & Hwallet
                     & HtokenIn & _ & Hfind & Hamount' & -> & -> & Hanswer).
  rewrite Hamount in Hamount'. injection Hamount' as <-.
  destruct (Hanswer Hlow) as (-> & -> & -> & ->).
  repeat split; [|exact Hwallet].
  rewrite HtokenIn. exact Hfind.
Qed.

Lemma post_swap_insufficient_balance_witness :
  let o := run (tier_3000_node 0) (AppV2.post_swap sample_map large_dai_request) 0 in
  returned o = insufficient_balance_response /\ chain_ops (trace o) = [].
Proof.
  cbv zeta.
  refine ((fun H => conj (proj1 H) (proj1 (proj2 H)))
            (@post_swap_insufficient_balance _ (tier_3000_node 0) 0 sample_map
               large_dai_request (str "0x6B175474E89094C44Da98b954EedeAC495271d0F")
               (str "0x00000000000000000000000000000000000000AA") (10 ^ 18)%Z
               (2 * 10 ^ 18)%Z _ _ _)).
  - vm_compute. reflexivity.
  - vm_compute. left. reflexivity.
  - vm_compute. reflexivity.
Defined.



(** On a node that quotes the pair the request ends in the numeric
    fault, after the quote. *)
Example post_swap_weth_usdt_faults :
  let o := run (tier_3000_node (10 ^ 18)) (AppV2.post_swap stable_map weth_usdt_request) 0 in
  status (returned o) = 500%Z
  /\ quote_answers (trace o) = [(500%Z, rejected); (3000%Z, Ok (2 * 10 ^ 18)%Z)].
Proof. vm_compute. split; reflexivity. Qed.

(** ** POST /swap of app.js (first variant) *)

Section FirstServiceSwap.

Variable W : Type.
Variable node : forall X, rpcE X -> W -> X * W.

(** Past the printed header and its two guards, POST /swap is its [try]
    block with every exception turned into a 500. *)
Lemma first_post_swap_run (tokenMap : token_map) (req : request) (w : W) :
  AppV1.header_missing (authorization req) = false ->
  missing_parameters req = false ->
  let o := run node (AppV1.post_swap tokenMap req) w in
  let w1 := snd (node (Console Stdout (str "Authorization Header Received: "
                                           ++ AppV1.print_header (authorization req))) w) in
  let o' := run node (AppV1.swap_try tokenMap (AppV1.print_header (authorization req))
                        req) w1 in
  returned o = match returned o' with
               | Ok r => r
               | Err e => mkResponse 500 (ErrorBody (message e))
               end
  /\ (forall A (f : event -> option A),
         blind_to_quotes f -> pick f (trace o) = pick f (trace o'))
  /\ quote_answers (trace o) = quote_answers (trace o').
Proof.
  intros Hheader Hmissing. cbv zeta. unfold AppV1.post_swap.
  cbn [Eff.bind run log trigger].
  destruct (node (Console Stdout _) w) as [u w1] eqn:Hlog.
  rewrite Hheader, Hmissing. cbn [returned trace snd].
  split; [apply catch_and_report_returned|].
  split.
  - intros A f Hblind. cbn [pick].
    rewrite (Hblind (Event (Console Stdout _) u) [] [] 0%Z [] I).
    apply catch_and_report_pick. exact Hblind.
  - cbn [quote_answers quote_answer]. apply catch_and_report_quotes.
Qed.

Lemma first_post_swap_guarded (tokenMap : token_map) (req : request) (w : W) :
  AppV1.header_missing (authorization req) = true \/ missing_parameters req = true ->
  let o := run node (AppV1.post_swap tokenMap req) w in
  (forall A (f : event -> option A), blind_to_quotes f -> pick f (trace o) = [])
  /\ (status (returned o) = 401 \/ status (returned o) = 400)%Z.
Proof.
  intros Hguard. cbv zeta. unfold AppV1.post_swap.
  cbn [Eff.bind run log trigger].
  destruct (node (Console Stdout _) w) as [u w1].
  assert (Hquiet : forall A (f : event -> option A),
             blind_to_quotes f ->
             pick f [Event (Console Stdout (str "Authorization Header Received: "
                                              ++ AppV1.print_header (authorization req))) u]
             = []).
  { intros A f Hblind. cbn [pick].
    rewrite (Hblind (Event (Console Stdout _) u) [] [] 0%Z [] I). reflexivity. }
  destruct (AppV1.header_missing (authorization req)); [split; [exact Hquiet|now left]|].
  destruct (missing_parameters req); [split; [exact Hquiet|now right]|].
  destruct Hguard as [H|H]; discriminate H.
Qed.

End FirstServiceSwap.

(** X11. POST /swap of the first app.js sends at most one swap, and only
    after the router estimated the gas of exactly that call.  The swap is
    built from the request and the first fee tier that could be quoted,
    asks for at least 98% of the quoted amount, carries no value, and its
    gas limit is the estimate plus 20%, capped at 300000. *)
Theorem first_post_swap_estimates_then_swaps (W : Type)
        (node : forall X, rpcE X -> W -> X * W) (w : W) (tokenMap : token_map)
        (req : request) :
  let tr := trace (run node (AppV1.post_swap tokenMap req) w) in
  match pick swap_call tr with
  | [] => True
  | [(p, gasLimit, value, sent)] =>
      exists walletAddress tokenInAddress tokenOutAddress amountInWei q now estimatedGas,
        pick wallet_of tr = [(AppV1.print_header (authorization req), Ok walletAddress)]
        /\ validated tokenMap req = Ok (tokenInAddress, tokenOutAddress, amountInWei)
        /\ first_success AppV1.feeTiers (quote_answers tr) q
        /\ pick clock_reading tr = [now]
        /\ p = mkParams tokenInAddress tokenOutAddress (quote_fee q) walletAddress
                        (now + 300) amountInWei (Z.quot (quote_amountOut q * 98) 100) 0
        /\ pick gas_estimate tr = [(p, Ok estimatedGas)]
        /\ gasLimit = Z.min (Z.quot (estimatedGas * 120) 100) 300000
        /\ value = 0%Z
  | _ => False
  end.
Proof.
  cbv zeta.
  destruct (AppV1.header_missing (authorization req)) eqn:Hheader;
    [rewrite (proj1 (first_post_swap_guarded node tokenMap req w (or_introl Hheader)))
       by apply blind_swap_call; exact I|].
  destruct (missing_parameters req) eqn:Hmissing;
    [rewrite (proj1 (first_post_swap_guarded node tokenMap req w (or_intror Hmissing)))
       by apply blind_swap_call; exact I|].
  destruct (first_post_swap_run node tokenMap req w Hheader Hmissing)
    as (_ & Hpick & Hquotes).
  rewrite !Hpick, Hquotes
    by first [apply blind_swap_call|apply blind_wallet_of|apply blind_clock_reading
             |apply blind_gas_estimate].
  pose proof (v1_swap_try_flow node tokenMap (AppV1.print_header (authorization req)) req
                (snd (node _ (Console Stdout (str "Authorization Header Received: "
                                                ++ AppV1.print_header (authorization req)))
                           w))) as Hflow.
  cbv zeta in Hflow.
  destruct (pick swap_call _) as [|[[[p gasLimit] value] sent] [|]];
    [exact I| |exact Hflow].
  destruct Hflow as (walletAddress & tokenInAddress & tokenOutAddress & amountInWei & q
                     & now & estimatedGas & Hflow).
  exists walletAddress, tokenInAddress, tokenOutAddress, amountInWei, q, now, estimatedGas.
  repeat (split; [apply Hflow|]). apply Hflow.
Qed.

Example first_post_swap_caps_gas :
  map (fun call => snd (fst (fst call)))
      (pick swap_call (trace (run (tier_3000_node 0)
                                (AppV1.post_swap sample_map good_request) 0)))
  = [120000%Z].
Proof. vm_compute. reflexivity. Qed.

(** X12. POST /swap of the first app.js answers 200 exactly for a confirmed
    swap, with the hash of its receipt. *)
Theorem first_post_swap_success_is_confirmed_swap (W : Type)
        (node : forall X, rpcE X -> W -> X * W) (w : W) (tokenMap : token_map)
        (req : request) :
  let o := run node (AppV1.post_swap tokenMap req) w in
  (forall rcpt,
      confirmed_swap (trace o) rcpt ->
      returned o = mkResponse 200 (SwapBody (transactionHash rcpt)))
  /\ (status (returned o) = 200%Z -> exists rcpt, confirmed_swap (trace o) rcpt).
Proof.
  cbv zeta. unfold confirmed_swap.
  destruct (AppV1.header_missing (authorization req)) eqn:Hheader;
    [destruct (first_post_swap_guarded node tokenMap req w (or_introl Hheader))
       as [Hquiet Hstatus];
     rewrite (Hquiet _ swap_call blind_swap_call);
     split; [intros rcpt (? & ? & ? & ? & ? & Habs & _); discriminate Habs
            |intro H200; rewrite H200 in Hstatus; destruct Hstatus; discriminate]|].
  destruct (missing_parameters req) eqn:Hmissing;
    [destruct (first_post_swap_guarded node tokenMap req w (or_intror Hmissing))
       as [Hquiet Hstatus];
     rewrite (Hquiet _ swap_call blind_swap_call);
     split; [intros rcpt (? & ? & ? & ? & ? & Habs & _); discriminate Habs
            |intro H200; rewrite H200 in Hstatus; destruct Hstatus; discriminate]|].
  destruct (first_post_swap_run node tokenMap req w Hheader Hmissing)
    as (-> & Hpick & _).
  rewrite !Hpick by first [apply blind_swap_call|apply blind_wait_of].
  pose proof (v1_swap_try_flow node tokenMap (AppV1.print_header (authorization req)) req
                (snd (node _ (Console Stdout (str "Authorization Header Received: "
                                                ++ AppV1.print_header (authorization req)))
                           w))) as Hflow.
  cbv zeta in Hflow.
  destruct (pick swap_call _) as [|[[[p gasLimit] value] sent] [|]];
    [| |destruct Hflow].
  - split; [intros rcpt (? & ? & ? & ? & ? & Habs & _); discriminate Habs|].
    destruct Hflow as [Herr _].
    destruct (returned _) as [r|e]; [destruct Herr|]. intro Habs. discriminate Habs.
  - destruct Hflow as (? & ? & ? & ? & ? & ? & ? & _ & _ & _ & _ & _ & _ & _ & _ & Hsent).
    destruct sent as [swapTx|e].
    + destruct Hsent as (confirmation & Hwait & ->). rewrite Hwait. split.
      * intros rcpt (? & ? & ? & ? & earlier' & [= _ _ _ <-] & Hlast).
        apply (app_inj_tail []) in Hlast. destruct Hlast as [_ [= ->]]. reflexivity.
      * destruct confirmation as [rcpt|e]; [|intro Habs; discriminate Habs].
        intros _. exists rcpt, p, gasLimit, value, swapTx, []. split; reflexivity.
    + destruct Hsent as [_ ->]. split.
      * intros rcpt (? & ? & ? & ? & ? & Habs & _). discriminate Habs.
      * intro Habs. discriminate Habs.
Qed.

Lemma first_post_swap_success_is_confirmed_swap_witness :
  let o := run (tier_3000_node 0) (AppV1.post_swap sample_map good_request) 0 in
  confirmed_swap (trace o) (mkReceipt (str "0xb2") 1)
  /\ returned o = mkResponse 200 (SwapBody (str "0xb2")).
Proof.
  assert (Hconfirmed :
            confirmed_swap
              (trace (run (tier_3000_node 0) (AppV1.post_swap sample_map good_request) 0))
              (mkReceipt (str "0xb2") 1)).
  { eexists _, _, _, _, []. vm_compute. split; reflexivity. }
  split; [exact Hconfirmed|].
  exact (proj1 (first_post_swap_success_is_confirmed_swap (tier_3000_node 0) 0 sample_map
                  good_request) _ Hconfirmed).
Defined.

(** ** The command-line script *)

Section ScriptFlows.

Variable W : Type.
Variable node : forall X, rpcE X -> W -> X * W.
Variable tokenMap : token_map.
Variable walletAddress : jsstring.
Variable deadline : Z.

Ltac run_event :=
  cbn [run Eff.bind Eff.bind_throw Eff.try_catch trigger log log_error];
  match goal with
  | |- context [node ?e ?w] => destruct (node e w) as [? ?]
  end;
  cbn [returned world trace chain_ops chain_op_of app pick swap_call gas_estimate wait_of
       clock_reading wallet_of balance_read quote_answers quote_answer].

Ltac run_end :=
  cbn [run returned world trace chain_ops chain_op_of app pick swap_call gas_estimate wait_of
       clock_reading wallet_of balance_read quote_answers quote_answer];
  rewrite ?app_nil_r.

(** The balance and allowance part of [main]. *)
Lemma script_ensure_allowance_flow (tokenIn tokenInAddress : jsstring) (amountInWei : Z)
      (w : W) :
  let o := run node (SwapFromMapping.ensure_allowance walletAddress tokenIn tokenInAddress
                       amountInWei) w in
  let tr := trace o in
  pick swap_call tr = [] /\ quote_answers tr = [] /\ pick clock_reading tr = []
  /\ pick wallet_of tr = [] /\ pick gas_estimate tr = []
  /\ exists answer,
       pick balance_read tr = [(tokenInAddress, walletAddress, answer)]
       /\ match answer with
          | Err e => returned o = Err e /\ chain_ops tr = [] /\ pick wait_of tr = []
          | Ok balance =>
              if (balance <? amountInWei)%Z
              then returned o = throw PlainError "Insufficient token balance."
                   /\ chain_ops tr = [] /\ pick wait_of tr = []
              else True
          end.
Proof.
  cbv zeta. unfold SwapFromMapping.ensure_allowance.
  run_event.
  destruct r as [balance|e]; [|run_end; repeat split; exists (Err e); repeat split].
  run_event.
  destruct (balance <? amountInWei)%Z eqn:Hbalance;
    [run_end; repeat split; exists (Ok balance); rewrite Hbalance; repeat split|].
  run_event.
  destruct r as [allowance|e];
    [|run_end; repeat split; exists (Ok balance); rewrite Hbalance; repeat split].
  run_event.
  destruct (allowance <? amountInWei)%Z;
    [|run_end; repeat split; exists (Ok balance); rewrite Hbalance; repeat split].
  run_event. run_event.
  destruct r as [approveTx|e];
    [|run_end; repeat split; exists (Ok balance); rewrite Hbalance; repeat split].
  run_event.
  destruct r as [rcpt|e];
    [|run_end; repeat split; exists (Ok balance); rewrite Hbalance; repeat split].
  run_event. run_end.
  repeat split; exists (Ok balance); rewrite Hbalance; repeat split.
Qed.

(** The rest of [main], from "Finding the best quote" on. *)
Lemma script_quote_and_swap_flow
      (amountIn tokenIn tokenOut tokenInAddress tokenOutAddress : jsstring)
      (amountInWei : Z) (w : W) :
  let o := run node (SwapFromMapping.quote_and_swap walletAddress deadline amountIn tokenIn
                       tokenOut tokenInAddress tokenOutAddress amountInWei) w in
  let tr := trace o in
  pick wallet_of tr = [] /\ pick balance_read tr = [] /\ pick clock_reading tr = []
  /\ match pick swap_call tr with
     | [] => is_err (returned o) /\ pick wait_of tr = []
     | [(p, gasLimit, value, sent)] =>
         exists q amountOutMinimum,
           first_success SwapFromMapping.feeTiers (quote_answers tr) q
           /\ minimum_for tokenIn tokenOut (quote_amountOut q) = Ok amountOutMinimum
           /\ p = mkParams tokenInAddress tokenOutAddress (quote_fee q) walletAddress
                           deadline amountInWei amountOutMinimum 0
           /\ gasLimit = 300000%Z
           /\ value = 0%Z
           /\ match sent with
              | Err e => pick wait_of tr = [] /\ returned o = Err e
              | Ok swapTx =>
                  exists confirmation,
                    pick wait_of tr = [(swapTx, confirmation)]
                    /\ returned o = (rcpt <-? confirmation ;; Ok tt)
              end
     | _ => False
     end.
Proof.
  cbv zeta. unfold SwapFromMapping.quote_and_swap.
  run_event.
  unfold bind_throw. rewrite run_bind. cbv zeta. cbn [returned trace].
  pose proof (getBestQuote_script_selection node tokenInAddress tokenOutAddress
                amountInWei SwapFromMapping.feeTiers w0) as (_ & _ & Hsel).
  pose proof (getBestQuote_script_reads node tokenInAddress tokenOutAddress
                amountInWei SwapFromMapping.feeTiers w0) as Hreads.
  fold (SwapFromMapping.getBestQuote tokenInAddress tokenOutAddress amountInWei)
    in Hsel, Hreads.
  rewrite !pick_app, quote_answers_app.
  rewrite (pick_blind blind_swap_call Hreads), (pick_blind blind_wait_of Hreads),
    (pick_blind blind_clock_reading Hreads), (pick_blind blind_wallet_of Hreads),
    (pick_blind blind_balance_read Hreads).
  cbn [app].
  destruct (run node (SwapFromMapping.getBestQuote _ _ _) w0) as [[q|e] w1 tr];
    cbn [returned world trace] in *;
    [|cbn; repeat split].
  rewrite script_minimum.
  destruct (minimum_for _ _ _) as [amountOutMinimum|e] eqn:Hminimum;
    [|cbn; repeat split].
  run_event. run_event. run_event.
  destruct r as [swapTx|e];
    [run_event; run_event;
     destruct r as [rcpt|e]; [run_event; run_event; run_event|]|];
    run_end;
    (split; [reflexivity|]); (split; [reflexivity|]); (split; [reflexivity|]);
    exists q, amountOutMinimum;
    repeat (split; [first [reflexivity|exact Hsel|exact Hminimum]|]).
  - exists (Ok rcpt). split; reflexivity.
  - exists (Err e). split; reflexivity.
  - split; reflexivity.
Qed.

(** The whole of [main], for any query. *)
Lemma script_main_flow (userQuery : jsstring) (w : W) :
  let o := run node (SwapFromMapping.main_of tokenMap walletAddress deadline userQuery) w in
  let tr := trace o in
  pick wallet_of tr = [] /\ pick clock_reading tr = []
  /\ match pick swap_call tr with
     | [] => is_err (returned o)
     | [(p, gasLimit, value, sent)] =>
         exists amountIn tokenIn tokenOut tokenInAddress tokenOutAddress amountInWei q
                amountOutMinimum balance,
           SwapFromMapping.parseUserQuery userQuery = Ok (amountIn, tokenIn, tokenOut)
           /\ SwapFromMapping.findTokenAddress tokenMap tokenIn = Ok tokenInAddress
           /\ SwapFromMapping.findTokenAddress tokenMap tokenOut = Ok tokenOutAddress
           /\ Units.parseEther amountIn = Ok amountInWei
           /\ first_success SwapFromMapping.feeTiers (quote_answers tr) q
           /\ minimum_for tokenIn tokenOut (quote_amountOut q) = Ok amountOutMinimum
           /\ p = mkParams tokenInAddress tokenOutAddress (quote_fee q) walletAddress
                           deadline amountInWei amountOutMinimum 0
           /\ gasLimit = 300000%Z
           /\ value = 0%Z
           /\ pick balance_read tr = [(tokenInAddress, walletAddress, Ok balance)]
           /\ (amountInWei <= balance)%Z
           /\ match sent with
              | Err e => returned o = Err e
              | Ok swapTx =>
                  exists earlier confirmation,
                    pick wait_of tr = earlier ++ [(swapTx, confirmation)]
                    /\ returned o = (rcpt <-? confirmation ;; Ok tt)
              end
     | _ => False
     end.
Proof.
  cbv zeta. unfold SwapFromMapping.main_of.
  destruct (SwapFromMapping.parseUserQuery userQuery)
    as [[[amountIn tokenIn] tokenOut]|e] eqn:Hquery; [|run_end; repeat split].
  cbn [Eff.bind_throw Eff.bind].
  destruct (SwapFromMapping.findTokenAddress tokenMap tokenIn) as [tokenInAddress|e] eqn:Hin;
    [|run_end; repeat split].
  destruct (SwapFromMapping.findTokenAddress tokenMap tokenOut)
    as [tokenOutAddress|e] eqn:Hout; [|run_end; repeat split].
  run_event. run_event.
  destruct (Units.parseEther amountIn) as [amountInWei|e] eqn:Hamount;
    [|run_end; repeat split].
  cbn [Eff.bind_throw Eff.bind].
  unfold bind_throw. rewrite run_bind. cbv zeta. cbn [returned trace].
  rewrite !pick_app, quote_answers_app.
  pose proof (script_ensure_allowance_flow tokenIn tokenInAddress amountInWei w1) as Hchecks.
  cbv zeta in Hchecks.
  destruct Hchecks as (Hswap & Hquotes & Hclock & Hwallet & _ & answer & Hbalance & Hanswer).
  rewrite Hswap, Hquotes, Hclock, Hwallet, Hbalance. cbn [app].
  destruct (run node (SwapFromMapping.ensure_allowance _ _ _ _) w1) as [[[]|e] w2 tr1];
    cbn [returned world trace] in *; [|run_end; repeat split].
  pose proof (script_quote_and_swap_flow amountIn tokenIn tokenOut tokenInAddress
                tokenOutAddress amountInWei w2) as Hflow.
  cbv zeta in Hflow.
  set (o := run node (SwapFromMapping.quote_and_swap _ _ _ _ _ _ _ _) w2) in *.
  destruct Hflow as (Hwallet2 & Hbalance2 & Hclock2 & Hflow).
  rewrite Hwallet2, Hbalance2, Hclock2.
  split; [reflexivity|]. split; [reflexivity|].
  destruct (pick swap_call (trace o)) as [|[[[p gasLimit] value] sent] [|]];
    [apply Hflow| |exact Hflow].
  destruct Hflow as (q & amountOutMinimum & Hsel & Hminimum & Hp & Hgas & Hvalue & Hsent).
  destruct answer as [balance|e]; [|destruct Hanswer as [Habs _]; discriminate Habs].
  exists amountIn, tokenIn, tokenOut, tokenInAddress, tokenOutAddress, amountInWei, q,
    amountOutMinimum, balance.
  repeat (split; [first [reflexivity|assumption]|]).
  split.
  - destruct (Z.ltb_spec balance amountInWei) as [Hlt|Hge]; [|exact Hge].
    destruct Hanswer as [Habs _]. discriminate Habs.
  - destruct sent as [swapTx|e]; [|apply Hsent].
    destruct Hsent as (confirmation & Hwait & Hreturned).
    exists (pick wait_of tr1), confirmation. rewrite Hwait. split; [reflexivity|assumption].
Qed.

(** The balance [main] reads. *)
Lemma script_main_balance (userQuery : jsstring) (w : W) :
  let o := run node (SwapFromMapping.main_of tokenMap walletAddress deadline userQuery) w in
  let tr := trace o in
  match pick balance_read tr with
  | [] => True
  | [(token, owner, answer)] =>
      exists amountIn tokenIn tokenOut amountInWei,
        SwapFromMapping.parseUserQuery userQuery = Ok (amountIn, tokenIn, tokenOut)
        /\ SwapFromMapping.findTokenAddress tokenMap tokenIn = Ok token
        /\ Units.parseEther amountIn = Ok amountInWei
        /\ owner = walletAddress
        /\ match answer with
           | Ok balance =>
               (balance < amountInWei)%Z ->
               returned o = throw PlainError "Insufficient token balance."
               /\ chain_ops tr = [] /\ quote_answers tr = [] /\ pick swap_call tr = []
           | Err e =>
               returned o = Err e
               /\ chain_ops tr = [] /\ quote_answers tr = [] /\ pick swap_call tr = []
           end
  | _ => False
  end.
Proof.
  cbv zeta. unfold SwapFromMapping.main_of.
  destruct (SwapFromMapping.parseUserQuery userQuery)
    as [[[amountIn tokenIn] tokenOut]|e] eqn:Hquery; [|run_end; exact I].
  cbn [Eff.bind_throw Eff.bind].
  destruct (SwapFromMapping.findTokenAddress tokenMap tokenIn) as [tokenInAddress|e] eqn:Hin;
    [|run_end; exact I].
  destruct (SwapFromMapping.findTokenAddress tokenMap tokenOut)
    as [tokenOutAddress|e] eqn:Hout; [|run_end; exact I].
  run_event. run_event.
  destruct (Units.parseEther amountIn) as [amountInWei|e] eqn:Hamount;
    [|run_end; exact I].
  cbn [Eff.bind_throw Eff.bind].
  unfold bind_throw. rewrite run_bind. cbv zeta. cbn [returned trace].
  rewrite !pick_app, quote_answers_app, chain_ops_app.
  pose proof (script_ensure_allowance_flow tokenIn tokenInAddress amountInWei w1) as Hchecks.
  cbv zeta in Hchecks.
  destruct Hchecks as (Hswap & Hquotes & _ & _ & _ & answer & Hbalance & Hanswer).
  rewrite Hswap, Hquotes, Hbalance. cbn [app].
  destruct (run node (SwapFromMapping.ensure_allowance _ _ _ _) w1) as [[[]|e0] w2 tr1];
    cbn [returned world trace] in *.
  - pose proof (script_quote_and_swap_flow amountIn tokenIn tokenOut tokenInAddress
                  tokenOutAddress amountInWei w2) as (_ & Hbalance2 & _).
    cbv zeta in Hbalance2. rewrite Hbalance2.
    exists amountIn, tokenIn, tokenOut, amountInWei.
    repeat (split; [first [reflexivity|assumption]|]).
    destruct answer as [balance|e].
    + intro Hlow. apply Z.ltb_lt in Hlow. rewrite Hlow in Hanswer.
      destruct Hanswer as [Habs _]. discriminate Habs.
    + destruct Hanswer as [Habs _]. discriminate Habs.
  - run_end.
    exists amountIn, tokenIn, tokenOut, amountInWei.
    repeat (split; [first [reflexivity|assumption]|]).
    destruct answer as [balance|e];
      [intro Hlow; apply Z.ltb_lt in Hlow; rewrite Hlow in Hanswer|];
      destruct Hanswer as (Hreturned & Hops & _);
      injection Hreturned as ->; rewrite Hops; repeat split.
Qed.

End ScriptFlows.

(** X13. The script sends at most one swap.  The swap it sends is built
    from the query and the first fee tier that could be quoted: the
    addresses the mapping file gives for the two tokens of the query, that
    tier's fee, the wallet as recipient, the deadline of the script, the
    parsed amount, the minimum the slippage heuristic derives from the
    quoted amount, the gas limit 300000 and no value; the balance read
    before was at least the amount. *)
Theorem main_builds_swap_from_quote (W : Type) (node : forall X, rpcE X -> W -> X * W)
        (w : W) (tokenMap : token_map) (walletAddress : jsstring) (deadline : Z)
        (userQuery : jsstring) :
  let tr := trace (run node
                     (SwapFromMapping.main_of tokenMap walletAddress deadline userQuery) w) in
  match pick swap_call tr with
  | [] => True
  | [(p, gasLimit, value, sent)] =>
      exists amountIn tokenIn tokenOut tokenInAddress tokenOutAddress amountInWei q
             amountOutMinimum balance,
        SwapFromMapping.parseUserQuery userQuery = Ok (amountIn, tokenIn, tokenOut)
        /\ SwapFromMapping.findTokenAddress tokenMap tokenIn = Ok tokenInAddress
        /\ SwapFromMapping.findTokenAddress tokenMap tokenOut = Ok tokenOutAddress
        /\ Units.parseEther amountIn = Ok amountInWei
        /\ first_success SwapFromMapping.feeTiers (quote_answers tr) q
        /\ minimum_for tokenIn tokenOut (quote_amountOut q) = Ok amountOutMinimum
        /\ p = mkParams tokenInAddress tokenOutAddress (quote_fee q) walletAddress
                        deadline amountInWei amountOutMinimum 0
        /\ gasLimit = 300000%Z
        /\ value = 0%Z
        /\ pick balance_read tr = [(tokenInAddress, walletAddress, Ok balance)]
        /\ (amountInWei <= balance)%Z
  | _ => False
  end.
Proof.
  cbv zeta.
  pose proof (script_main_flow node tokenMap walletAddress deadline userQuery w)
    as (_ & _ & Hflow).
  cbv zeta in Hflow.
  destruct (pick swap_call _) as [|[[[p gasLimit] value] sent] [|]];
    [exact I| |exact Hflow].
  destruct Hflow as (amountIn & tokenIn & tokenOut & tokenInAddress & tokenOutAddress
                     & amountInWei & q & amountOutMinimum & balance & Hflow).
  exists amountIn, tokenIn, tokenOut, tokenInAddress, tokenOutAddress, amountInWei, q,
    amountOutMinimum, balance.
  repeat (split; [apply Hflow|]). apply Hflow.
Qed.

(** X14. The script ends without an exception exactly for a confirmed
    swap: the one swap it sent was accepted and the confirmation it
    awaited last arrived.  It never makes a wallet and never reads the
    clock while it runs. *)
Theorem main_succeeds_on_confirmed_swap (W : Type) (node : forall X, rpcE X -> W -> X * W)
        (w : W) (tokenMap : token_map) (walletAddress : jsstring) (deadline : Z)
        (userQuery : jsstring) :
  let o := run node (SwapFromMapping.main_of tokenMap walletAddress deadline userQuery) w in
  (returned o = Ok tt <-> exists rcpt, confirmed_swap (trace o) rcpt)
  /\ pick wallet_of (trace o) = [] /\ pick clock_reading (trace o) = [].
Proof.
  cbv zeta. unfold confirmed_swap.
  pose proof (script_main_flow node tokenMap walletAddress deadline userQuery w)
    as (Hwallet & Hclock & Hflow).
  cbv zeta in Hflow.
  split; [|split; assumption].
  destruct (pick swap_call _) as [|[[[p gasLimit] value] sent] [|]];
    [| |destruct Hflow].
  - split.
    + intro Hreturned. rewrite Hreturned in Hflow. destruct Hflow.
    + intros (rcpt & ? & ? & ? & ? & ? & Habs & _). discriminate Habs.
  - destruct Hflow as (? & ? & ? & ? & ? & ? & ? & ? & ? & _ & _ & _ & _ & _ & _ & _ & _ & _
                       & _ & _ & Hsent).
    destruct sent as [swapTx|e].
    + destruct Hsent as (earlier & confirmation & Hwait & ->). rewrite Hwait. split.
      * destruct confirmation as [rcpt|e]; [|intro Habs; discriminate Habs].
        intros _. exists rcpt, p, gasLimit, value, swapTx, earlier. split; reflexivity.
      * intros (rcpt & ? & ? & ? & ? & earlier' & [= _ _ _ <-] & Hlast).
        apply app_inj_tail in Hlast. destruct Hlast as [_ [= ->]]. reflexivity.
    + rewrite Hsent. split.
      * intro Habs. discriminate Habs.
      * intros (rcpt & ? & ? & ? & ? & ? & Habs & _). discriminate Habs.
Qed.

Lemma main_succeeds_on_confirmed_swap_witness :
  let o := run (tier_3000_node (10 ^ 18))
               (SwapFromMapping.main_of sample_map (str "0xAA") 1700000300
                  (str "swap 0.0005 WETH with DAI")) 0 in
  (exists rcpt, confirmed_swap (trace o) rcpt) /\ returned o = Ok tt.
Proof.
  assert (Hconfirmed :
            exists rcpt,
              confirmed_swap
                (trace (run (tier_3000_node (10 ^ 18))
                          (SwapFromMapping.main_of sample_map (str "0xAA") 1700000300
                             (str "swap 0.0005 WETH with DAI")) 0))
                rcpt).
  { exists (mkReceipt (str "0xb2") 1). eexists _, _, _, _, []. vm_compute.
    split; reflexivity. }
  split; [exact Hconfirmed|].
  exact (proj2 (proj1 (main_succeeds_on_confirmed_swap (tier_3000_node (10 ^ 18)) 0
                         sample_map (str "0xAA") 1700000300
                         (str "swap 0.0005 WETH with DAI"))) Hconfirmed).
Defined.

(** X15. Insufficient balance in the script: when the balance read is below
    the amount of the query, [main] throws "Insufficient token balance."
    and nothing else happened on the chain: no allowance was read, nothing
    was approved, no quote was asked, no swap was sent. *)
Theorem main_insufficient_balance (W : Type) (node : forall X, rpcE X -> W -> X * W)
        (w : W) (tokenMap : token_map) (walletAddress : jsstring) (deadline : Z)
        (userQuery amountIn tokenIn tokenOut token owner : jsstring)
        (balance amountInWei : Z) :
  let o := run node (SwapFromMapping.main_of tokenMap walletAddress deadline userQuery) w in
  let tr := trace o in
  SwapFromMapping.parseUserQuery userQuery = Ok (amountIn, tokenIn, tokenOut) ->
  Units.parseEther amountIn = Ok amountInWei ->
  In (token, owner, Ok balance) (pick balance_read tr) ->
  (balance < amountInWei)%Z ->
  returned o = throw PlainError "Insufficient token balance."
  /\ chain_ops tr = [] /\ quote_answers tr = [] /\ pick swap_call tr = []
  /\ pick balance_read tr = [(token, owner, Ok balance)]
  /\ SwapFromMapping.findTokenAddress tokenMap tokenIn = Ok token
  /\ owner = walletAddress.
Proof.
  cbv zeta. intros Hquery Hamount Hread Hlow.
  pose proof (script_main_balance node tokenMap walletAddress deadline userQuery w) as Hflow.
  cbv zeta in Hflow.
  destruct (pick balance_read _) as [|[[token' owner'] answer] [|]];
    [destruct Hread| |destruct Hflow].
  destruct Hread as [[= -> -> ->]|[]].
  destruct Hflow as (amountIn' & tokenIn' & tokenOut' & amountInWei' & Hquery' & Hfind
                     & Hamount' & -> & Hanswer).
  rewrite Hquery in Hquery'. injection Hquery' as <- <- <-.
  rewrite Hamount in Hamount'. injection Hamount' as <-.
  destruct (Hanswer Hlow) as (-> & -> & -> & ->).
  repeat split. exact Hfind.
Qed.

Lemma main_insufficient_balance_witness :
  let o := run (tier_3000_node 0)
               (SwapFromMapping.main_of sample_map (str "0xAA") 1700000300
                  (str "swap 2 DAI with WETH")) 0 in
  returned o = throw PlainError "Insufficient token balance."
  /\ chain_ops (trace o) = [].
Proof.
  cbv zeta.
  refine ((fun H => conj (proj1 H) (proj1 (proj2 H)))
            (@main_insufficient_balance _ (tier_3000_node 0) 0 sample_map (str "0xAA")
               1700000300 (str "swap 2 DAI with WETH") (str "2") (str "dai") (str "weth")
               (str "0x6B175474E89094C44Da98b954EedeAC495271d0F") (str "0xAA")
               (10 ^ 18)%Z (2 * 10 ^ 18)%Z _ _ _ _)).
  - vm_compute. reflexivity.
  - vm_compute. reflexivity.
  - vm_compute. left. reflexivity.
  - vm_compute. reflexivity.
Defined.

(** X16. The script never swaps WETH for USDT: for that pair the slippage
    factor 100 - 0.005 * 100 is no integer, the minimum cannot be derived,
    and [main] ends in an exception without a swap, whatever the node
    answers. *)
Theorem main_never_swaps_weth_for_usdt (W : Type) (node : forall X, rpcE X -> W -> X * W)
        (w : W) (tokenMap : token_map) (walletAddress : jsstring) (deadline : Z)
        (userQuery amountIn : jsstring) :
  let o := run node (SwapFromMapping.main_of tokenMap walletAddress deadline userQuery) w in
  SwapFromMapping.parseUserQuery userQuery = Ok (amountIn, str "weth", str "usdt") ->
  pick swap_call (trace o) = [] /\ is_err (returned o).
Proof.
  cbv zeta. intro Hquery.
  pose proof (script_main_flow node tokenMap walletAddress deadline userQuery w)
    as (_ & _ & Hflow).
  cbv zeta in Hflow.
  destruct (pick swap_call _) as [|[[[p gasLimit] value] sent] [|]];
    [split; [reflexivity|exact Hflow]| |destruct Hflow].
  exfalso.
  destruct Hflow as (? & ? & ? & ? & ? & ? & ? & ? & ? & Hquery' & _ & _ & _ & _
                     & Hminimum & _).
  rewrite Hquery in Hquery'. injection Hquery' as <- <- <-.
  discriminate Hminimum.
Qed.

Lemma main_never_swaps_weth_for_usdt_witness :
  let o := run (tier_3000_node (10 ^ 18))
               (SwapFromMapping.main_of stable_map (str "0xAA") 1700000300
                  (str "swap 0.5 WETH with USDT")) 0 in
  pick swap_call (trace o) = [] /\ is_err (returned o).
Proof.
  exact (@main_never_swaps_weth_for_usdt _ (tier_3000_node (10 ^ 18)) 0 stable_map
           (str "0xAA") 1700000300 (str "swap 0.5 WETH with USDT") (str "0.5") eq_refl).
Defined.

(** ** The service of d_swap_from_mapping.js *)

Section AddressServiceFlows.

Variable W : Type.
Variable node : forall X, rpcE X -> W -> X * W.

Ltac run_event :=
  cbn [run Eff.bind Eff.bind_throw Eff.try_catch trigger log log_error];
  match goal with
  | |- context [node ?e ?w] => destruct (node e w) as [? ?]
  end;
  cbn [returned world trace chain_ops chain_op_of app pick swap_call gas_estimate wait_of
       clock_reading wallet_of balance_read quote_answers quote_answer].

Ltac run_end :=
  cbn [run returned world trace chain_ops chain_op_of app pick swap_call gas_estimate wait_of
       clock_reading wallet_of balance_read quote_answers quote_answer];
  rewrite ?app_nil_r.

Lemma getBestQuote_v3_reads (tokenIn tokenOut : jsstring) (amountInWei : Z)
      (tiers : list Z) (w : W) :
  Forall (reads_quote tokenIn tokenOut amountInWei tiers)
    (trace (run node (AppV3.getBestQuote_loop tokenIn tokenOut amountInWei tiers) w)).
Proof.
  revert w. induction tiers as [|fee tiers IH]; intro w; [constructor|].
  cbn [AppV3.getBestQuote_loop Eff.bind trigger run log log_error].
  destruct (node (QuoteExactInputSingle tokenIn tokenOut fee amountInWei 0) w)
    as [[amountOut|err] w1].
  - cbn [Eff.bind run].
    destruct (node (Console Stdout _) w1) as [u w2].
    cbn. repeat constructor.
  - cbn [Eff.bind run].
    destruct (node (Console Stderr _) w1) as [u w2].
    cbn [trace]. repeat constructor. apply reads_quote_tail, IH.
Qed.

(** From "Get the best quote" on. *)
Lemma address_service_quote_and_swap_flow
      (walletAddress tokenInAddress tokenOutAddress tokenInStr tokenOutStr : jsstring)
      (amountInWei valueToSend : Z) (w : W) :
  let o := run node (AppV3.quote_and_swap walletAddress tokenInAddress tokenOutAddress
                       tokenInStr tokenOutStr amountInWei valueToSend) w in
  let tr := trace o in
  pick wallet_of tr = [] /\ pick balance_read tr = []
  /\ match pick swap_call tr with
     | [] => is_err (returned o) /\ pick wait_of tr = []
                 /\ all_failed AppV3.feeTiers (quote_answers tr)
     | [(p, gasLimit, value, sent)] =>
         exists q now,
           first_success AppV3.feeTiers (quote_answers tr) q
           /\ pick clock_reading tr = [now]
           /\ p = mkParams tokenInAddress tokenOutAddress (quote_fee q) walletAddress
                           (now + 300) amountInWei
                           (minimum_by_address tokenInStr tokenOutStr (quote_amountOut q)) 0
           /\ gasLimit = AppV3.MAX_GAS_LIMIT
           /\ value = valueToSend
           /\ match sent with
              | Err e => pick wait_of tr = [] /\ returned o = Err e
              | Ok swapTx =>
                  exists confirmation,
                    pick wait_of tr = [(swapTx, confirmation)]
                    /\ returned o
                       = (rcpt <-? confirmation ;;
                          Ok (mkResponse 200 (SwapBody (transactionHash rcpt))))
              end
     | _ => False
     end.
Proof.
  cbv zeta. unfold AppV3.quote_and_swap.
  unfold bind_throw. rewrite run_bind. cbv zeta. cbn [returned trace].
  pose proof (getBestQuote_v3_selection node tokenInAddress tokenOutAddress
                amountInWei AppV3.feeTiers w) as (_ & _ & Hsel).
  pose proof (getBestQuote_v3_reads tokenInAddress tokenOutAddress
                amountInWei AppV3.feeTiers w) as Hreads.
  fold (AppV3.getBestQuote tokenInAddress tokenOutAddress amountInWei) in Hsel, Hreads.
  rewrite !pick_app, quote_answers_app.
  rewrite (pick_blind blind_swap_call Hreads), (pick_blind blind_wait_of Hreads),
    (pick_blind blind_clock_reading Hreads), (pick_blind blind_wallet_of Hreads),
    (pick_blind blind_balance_read Hreads).
  cbn [app].
  destruct (run node (AppV3.getBestQuote _ _ _) w) as [[q|e] w1 tr];
    cbn [returned world trace] in *;
    [|run_end; repeat split; apply Hsel].
  rewrite address_service_minimum.
  run_event. run_event.
  destruct r as [swapTx|e]; [run_event; destruct r as [rcpt|e]|]; run_end;
    (split; [reflexivity|]); (split; [reflexivity|]);
    exists q, z;
    repeat (split; [first [reflexivity|exact Hsel]|]).
  - exists (Ok rcpt). split; reflexivity.
  - exists (Err e). split; reflexivity.
  - split; reflexivity.
Qed.

(** The [try] block of POST /swap: the swap it sends. *)
Lemma address_service_swap_try_flow (key : jsstring) (req : request) (w : W) :
  let o := run node (AppV3.swap_try key req) w in
  let tr := trace o in
  match pick swap_call tr with
  | [] =>
      match returned o with
      | Ok r => r = insufficient_balance_response
      | Err _ => True
      end
      /\ Forall answer_failed (quote_answers tr)
  | [(p, gasLimit, value, sent)] =>
      exists walletAddress tokenInStr tokenOutStr amountInWei q now,
        pick wallet_of tr = [(key, Ok walletAddress)]
        /\ Http.tokenIn req = JString tokenInStr
        /\ Http.tokenOut req = JString tokenOutStr
        /\ Json.parseEther (Http.amountIn req) = Ok amountInWei
        /\ first_success AppV3.feeTiers (quote_answers tr) q
        /\ pick clock_reading tr = [now]
        /\ p = mkParams (AppV3.findTokenAddress tokenInStr)
                        (AppV3.findTokenAddress tokenOutStr) (quote_fee q) walletAddress
                        (now + 300) amountInWei
                        (minimum_by_address tokenInStr tokenOutStr (quote_amountOut q)) 0
        /\ gasLimit = AppV3.MAX_GAS_LIMIT
        /\ value = (if Js.eqb (toLowerCase tokenInStr) (str "eth")
                    then amountInWei else 0%Z)
        /\ (if Js.eqb (toLowerCase tokenInStr) (str "eth")
            then pick balance_read tr = []
            else exists balance,
                pick balance_read tr = [(tokenInStr, walletAddress, Ok balance)]
                /\ (amountInWei <= balance)%Z)
        /\ match sent with
           | Err e => returned o = Err e
           | Ok swapTx =>
               exists earlier confirmation,
                 pick wait_of tr = earlier ++ [(swapTx, confirmation)]
                 /\ returned o
                    = (rcpt <-? confirmation ;;
                       Ok (mkResponse 200 (SwapBody (transactionHash rcpt))))
           end
  | _ => False
  end.
Proof.
  cbv zeta. unfold AppV3.swap_try.
  run_event.
  destruct r as [walletAddress|e]; [|run_end; split; [exact I|constructor]].
  cbn [Eff.bind_throw Eff.bind]. unfold AppV3.findTokenAddress_of.
  destruct (Http.tokenIn req) as [| | | |tokenInStr|] eqn:HtokenIn;
    try (run_end; split; [exact I|constructor]).
  cbn [string_receiver bind_result].
  destruct (Http.tokenOut req) as [| | | |tokenOutStr|] eqn:HtokenOut;
    try (run_end; split; [exact I|constructor]).
  cbn [string_receiver bind_result].
  destruct (Json.parseEther (Http.amountIn req)) as [amountInWei|e] eqn:Hamount;
    [|run_end; split; [exact I|constructor]].
  destruct (Js.eqb (toLowerCase tokenInStr) (str "eth")) eqn:Heth.
  - (* ETH: no balance is read *)
    pose proof (address_service_quote_and_swap_flow walletAddress
                  (AppV3.findTokenAddress tokenInStr) (AppV3.findTokenAddress tokenOutStr)
                  tokenInStr tokenOutStr amountInWei amountInWei w0) as Hflow.
    cbv zeta in Hflow.
    set (o := run node (AppV3.quote_and_swap _ _ _ _ _ _ _) w0) in *.
    destruct Hflow as (Hwallet & Hbalance & Hflow).
    rewrite Hwallet, Hbalance.
    destruct (pick swap_call (trace o)) as [|[[[p gasLimit] value] sent] [|]];
      [destruct Hflow as (Herr & _ & Hall);
       split; [destruct (returned o); [destruct Herr|exact I]
              |apply all_failed_forall with AppV3.feeTiers; exact Hall]
      | |exact Hflow].
    destruct Hflow as (q & now & Hsel & Hclock & Hp & Hgas & Hvalue & Hsent).
    exists walletAddress, tokenInStr, tokenOutStr, amountInWei, q, now.
    rewrite Heth.
    repeat (split; [first [reflexivity|assumption]|]).
    destruct sent as [swapTx|e]; [|apply Hsent].
    destruct Hsent as (confirmation & Hwait & Hreturned).
    exists [], confirmation. split; assumption.
  - (* ERC-20 *)
    assert (Haddress : AppV3.findTokenAddress tokenInStr = tokenInStr)
      by (unfold AppV3.findTokenAddress; cbv zeta; rewrite Heth; reflexivity).
    rewrite Haddress.
    unfold bind_throw. rewrite run_bind. cbv zeta. cbn [returned trace].
    rewrite !pick_app, quote_answers_app.
    pose proof (service_erc20_checks_flow node tokenInStr walletAddress amountInWei w0)
      as Hchecks.
    cbv zeta in Hchecks.
    destruct Hchecks as (Hswap & Hquotes & Hclock & Hwallet & _ & answer & Hbalance & Hanswer).
    rewrite Hswap, Hquotes, Hclock, Hwallet, Hbalance. cbn [app].
    destruct (run node (AppV2.erc20_checks _ _ _) w0) as [[[early|]|e] w1 tr1];
      cbn [returned world trace] in *; [| |run_end; split; [exact I|constructor]].
    + (* the early answer *)
      run_end.
      destruct answer as [balance|e]; [|destruct Hanswer as [Habs _]; discriminate Habs].
      destruct (balance <? amountInWei)%Z; [|destruct Hanswer].
      destruct Hanswer as [[= ->] _]. split; [reflexivity|constructor].
    + pose proof (address_service_quote_and_swap_flow walletAddress tokenInStr
                    (AppV3.findTokenAddress tokenOutStr) tokenInStr tokenOutStr
                    amountInWei 0 w1) as Hflow.
      cbv zeta in Hflow.
      set (o := run node (AppV3.quote_and_swap _ _ _ _ _ _ _) w1) in *.
      destruct Hflow as (Hwallet2 & Hbalance2 & Hflow).
      rewrite Hwallet2, Hbalance2.
      destruct (pick swap_call (trace o)) as [|[[[p gasLimit] value] sent] [|]];
        [destruct Hflow as (Herr & _ & Hall);
         split; [destruct (returned o); [destruct Herr|exact I]
                |apply all_failed_forall with AppV3.feeTiers; exact Hall]
        | |exact Hflow].
      destruct Hflow as (q & now & Hsel & Hnow & Hp & Hgas & Hvalue & Hsent).
      exists walletAddress, tokenInStr, tokenOutStr, amountInWei, q, now.
      rewrite Heth, Haddress.
      repeat (split; [first [reflexivity|assumption]|]).
      split.
      * destruct answer as [balance|e]; [|destruct Hanswer as [Habs _]; discriminate Habs].
        exists balance. split; [reflexivity|].
        destruct (Z.ltb_spec balance amountInWei) as [Hlt|Hge]; [|exact Hge].
        destruct Hanswer as [Habs _]. discriminate Habs.
      * destruct sent as [swapTx|e]; [|apply Hsent].
        destruct Hsent as (confirmation & Hwait & Hreturned).
        exists (pick wait_of tr1), confirmation. rewrite Hwait. split; [reflexivity|assumption].
Qed.

Lemma address_service_post_swap_run (req : request) (w : W) :
  AppV1.header_missing (authorization req) = false ->
  missing_parameters req = false ->
  let o := run node (AppV3.post_swap req) w in
  let o' := run node (AppV3.swap_try (AppV1.print_header (authorization req)) req) w in
  returned o = match returned o' with
               | Ok r => r
               | Err e => mkResponse 500 (ErrorBody (message e))
               end
  /\ (forall A (f : event -> option A),
         blind_to_quotes f -> pick f (trace o) = pick f (trace o'))
  /\ quote_answers (trace o) = quote_answers (trace o')
  /\ chain_ops (trace o) = chain_ops (trace o').
Proof.
  intros Hheader Hmissing. cbv zeta. unfold AppV3.post_swap.
  rewrite Hheader, Hmissing.
  split; [apply catch_and_report_returned|].
  split; [intros A f Hblind; apply catch_and_report_pick; exact Hblind|].
  split; [apply catch_and_report_quotes|apply catch_and_report_ops].
Qed.

Lemma address_service_post_swap_guarded (req : request) (w : W) :
  AppV1.header_missing (authorization req) = true \/ missing_parameters req = true ->
  let o := run node (AppV3.post_swap req) w in
  trace o = [] /\ (status (returned o) = 401 \/ status (returned o) = 400)%Z.
Proof.
  intros Hguard. cbv zeta. unfold AppV3.post_swap.
  destruct (AppV1.header_missing (authorization req)); [split; [reflexivity|now left]|].
  destruct (missing_parameters req); [split; [reflexivity|now right]|].
  destruct Hguard as [H|H]; discriminate H.
Qed.

End AddressServiceFlows.

(** X17. The slippage heuristic of the service of d_swap_from_mapping.js
    always yields a minimum: 99% of the quote for "eth" to "usdt", 98% when
    "eth" is on one side, 90% otherwise, rounded towards zero, the token
    strings compared without regard to case.  For a non-negative quote the
    minimum lies between 90% of the quote, less rounding, and the quote. *)
Theorem address_service_minimum_always_derived (tokenIn tokenOut : jsstring)
        (amountOut : Z) :
  AppV3.amountOutMinimum_of amountOut (AppV3.calculateSlippage tokenIn tokenOut)
  = Ok (minimum_by_address tokenIn tokenOut amountOut)
  /\ ((0 <= amountOut)%Z ->
      (90 * amountOut <= 100 * minimum_by_address tokenIn tokenOut amountOut + 99)%Z
      /\ (minimum_by_address tokenIn tokenOut amountOut <= amountOut)%Z).
Proof.
  split; [apply address_service_minimum|].
  intro Hpos. unfold minimum_by_address.
  destruct (Js.eqb (toLowerCase tokenIn) (str "eth")
            && Js.eqb (toLowerCase tokenOut) (str "usdt"));
    [|destruct (Js.eqb (toLowerCase tokenIn) (str "eth")
                || Js.eqb (toLowerCase tokenOut) (str "eth"))];
    rewrite Z.quot_div_nonneg by lia;
    match goal with
    | |- context [(?n / 100)%Z] =>
        pose proof (Z.div_mod n 100 ltac:(lia));
        pose proof (Z.mod_pos_bound n 100 ltac:(lia))
    end; lia.
Qed.

Lemma address_service_minimum_always_derived_witness :
  (0 <= 1000)%Z
  /\ (90 * 1000 <= 100 * minimum_by_address (str "ETH") (str "usdt") 1000 + 99)%Z.
Proof.
  split; [lia|].
  apply (proj2 (address_service_minimum_always_derived (str "ETH") (str "usdt") 1000)).
  lia.
Defined.

(** X18. POST /swap of the service of d_swap_from_mapping.js sends at most
    one swap, and sends one whenever a fee tier could be quoted.  The swap
    is built from the request and the first of the tiers 500, 3000, 10000,
    15000 that could be quoted: the token strings themselves as addresses
    (WETH for "eth"), that tier's fee, the wallet as recipient, a deadline
    300 seconds after the clock reading, the parsed amount, the minimum of
    the slippage heuristic, the gas limit 500000, and as value the amount
    when the input is "eth" and zero otherwise. *)
Theorem address_post_swap_builds_swap_from_quote (W : Type)
        (node : forall X, rpcE X -> W -> X * W) (w : W) (req : request) :
  let tr := trace (run node (AppV3.post_swap req) w) in
  match pick swap_call tr with
  | [] => Forall answer_failed (quote_answers tr)
  | [(p, gasLimit, value, sent)] =>
      exists walletAddress tokenInStr tokenOutStr amountInWei q now,
        pick wallet_of tr = [(AppV1.print_header (authorization req), Ok walletAddress)]
        /\ Http.tokenIn req = JString tokenInStr
        /\ Http.tokenOut req = JString tokenOutStr
        /\ Json.parseEther (Http.amountIn req) = Ok amountInWei
        /\ first_success [500; 3000; 10000; 15000]%Z (quote_answers tr) q
        /\ pick clock_reading tr = [now]
        /\ p = mkParams (AppV3.findTokenAddress tokenInStr)
                        (AppV3.findTokenAddress tokenOutStr) (quote_fee q) walletAddress
                        (now + 300) amountInWei
                        (minimum_by_address tokenInStr tokenOutStr (quote_amountOut q)) 0
        /\ gasLimit = 500000%Z
        /\ value = (if Js.eqb (toLowerCase tokenInStr) (str "eth")
                    then amountInWei else 0%Z)
        /\ (if Js.eqb (toLowerCase tokenInStr) (str "eth")
            then pick balance_read tr = []
            else exists balance,
                pick balance_read tr = [(tokenInStr, walletAddress, Ok balance)]
                /\ (amountInWei <= balance)%Z)
  | _ => False
  end.
Proof.
  cbv zeta.
  destruct (AppV1.header_missing (authorization req)) eqn:Hheader;
    [rewrite (proj1 (address_service_post_swap_guarded node req w (or_introl Hheader)));
     constructor|].
  destruct (missing_parameters req) eqn:Hmissing;
    [rewrite (proj1 (address_service_post_swap_guarded node req w (or_intror Hmissing)));
     constructor|].
  destruct (address_service_post_swap_run node req w Hheader Hmissing)
    as (_ & Hpick & Hquotes & _).
  rewrite !Hpick, Hquotes
    by first [apply blind_swap_call|apply blind_wallet_of|apply blind_clock_reading
             |apply blind_balance_read].
  pose proof (address_service_swap_try_flow node (AppV1.print_header (authorization req))
                req w) as Hflow.
  cbv zeta in Hflow.
  destruct (pick swap_call _) as [|[[[p gasLimit] value] sent] [|]];
    [apply Hflow| |exact Hflow].
  destruct Hflow as (walletAddress & tokenInStr & tokenOutStr & amountInWei & q & now
                     & Hflow).
  exists walletAddress, tokenInStr, tokenOutStr, amountInWei, q, now.
  repeat (split; [apply Hflow|]). apply Hflow.
Qed.

Example address_post_swap_sends_eth :
  pick swap_call (trace (run (tier_3000_node 0) (AppV3.post_swap address_request) 0))
  = [(mkParams (str "0xC02aaA39b223FE8D0A0e5C4F27eAD9083C756Cc2")
               (str "0x6B175474E89094C44Da98b954EedeAC495271d0F")
               3000 (str "0x00000000000000000000000000000000000000AA") 1700000300
               (10 ^ 18) (196 * 10 ^ 16) 0,
      500000%Z, (10 ^ 18)%Z, Ok (mkTx (str "0xb2")))].
Proof. vm_compute. reflexivity. Qed.

(** X19. POST /swap of the service of d_swap_from_mapping.js answers 200
    exactly for a confirmed swap, with the hash of its receipt. *)
Theorem address_post_swap_success_is_confirmed_swap (W : Type)
        (node : forall X, rpcE X -> W -> X * W) (w : W) (req : request) :
  let o := run node (AppV3.post_swap req) w in
  (forall rcpt,
      confirmed_swap (trace o) rcpt ->
      returned o = mkResponse 200 (SwapBody (transactionHash rcpt)))
  /\ (status (returned o) = 200%Z -> exists rcpt, confirmed_swap (trace o) rcpt).
Proof.
  cbv zeta. unfold confirmed_swap.
  destruct (AppV1.header_missing (authorization req)) eqn:Hheader;
    [destruct (address_service_post_swap_guarded node req w (or_introl Hheader))
       as [-> Hstatus];
     split; [intros rcpt (? & ? & ? & ? & ? & Habs & _); discriminate Habs
            |intro H200; rewrite H200 in Hstatus; destruct Hstatus; discriminate]|].
  destruct (missing_parameters req) eqn:Hmissing;
    [destruct (address_service_post_swap_guarded node req w (or_intror Hmissing))
       as [-> Hstatus];
     split; [intros rcpt (? & ? & ? & ? & ? & Habs & _); discriminate Habs
            |intro H200; rewrite H200 in Hstatus; destruct Hstatus; discriminate]|].
  destruct (address_service_post_swap_run node req w Hheader Hmissing)
    as (-> & Hpick & _).
  rewrite !Hpick by first [apply blind_swap_call|apply blind_wait_of].
  pose proof (address_service_swap_try_flow node (AppV1.print_header (authorization req))
                req w) as Hflow.
  cbv zeta in Hflow.
  destruct (pick swap_call _) as [|[[[p gasLimit] value] sent] [|]];
    [| |destruct Hflow].
  - split; [intros rcpt (? & ? & ? & ? & ? & Habs & _); discriminate Habs|].
    destruct Hflow as [Hreturned _].
    destruct (returned _) as [r|e]; [subst r|]; intro Habs; discriminate Habs.
  - destruct Hflow as (? & ? & ? & ? & ? & ? & _ & _ & _ & _ & _ & _ & _ & _ & _ & _
                       & Hsent).
    destruct sent as [swapTx|e].
    + destruct Hsent as (earlier & confirmation & Hwait & ->). rewrite Hwait. split.
      * intros rcpt (? & ? & ? & ? & earlier' & [= _ _ _ <-] & Hlast).
        apply app_inj_tail in Hlast. destruct Hlast as [_ [= ->]]. reflexivity.
      * destruct confirmation as [rcpt|e]; [|intro Habs; discriminate Habs].
        intros _. exists rcpt, p, gasLimit, value, swapTx, earlier. split; reflexivity.
    + rewrite Hsent. split.
      * intros rcpt (? & ? & ? & ? & ? & Habs & _). discriminate Habs.
      * intro Habs. discriminate Habs.
Qed.

Lemma address_post_swap_success_is_confirmed_swap_witness :
  let o := run (tier_3000_node 0) (AppV3.post_swap address_request) 0 in
  confirmed_swap (trace o) (mkReceipt (str "0xb2") 1)
  /\ returned o = mkResponse 200 (SwapBody (str "0xb2")).
Proof.
  assert (Hconfirmed :
            confirmed_swap
              (trace (run (tier_3000_node 0) (AppV3.post_swap address_request) 0))
              (mkReceipt (str "0xb2") 1)).
  { eexists _, _, _, _, []. vm_compute. split; reflexivity. }
  split; [exact Hconfirmed|].
  exact (proj1 (address_post_swap_success_is_confirmed_swap (tier_3000_node 0) 0
                  address_request) _ Hconfirmed).
Defined.

(** ** getBestQuote, all four variants *)

Section Quoter.

Variable W : Type.
Variable node : forall X, rpcE X -> W -> X * W.
Variables tokenIn tokenOut : jsstring.
Variable amountInWei : Z.
Variable quoter : Z -> result Z.
Hypothesis Hquoter :
  forall fee w,
    fst (node (QuoteExactInputSingle tokenIn tokenOut fee amountInWei 0) w) = quoter fee.

Ltac quoter_step fee w :=
  let r := fresh "r" in
  let w1 := fresh "w" in
  let Hnode := fresh "Hnode" in
  pose proof (Hquoter fee w) as Hnode;
  destruct (node (QuoteExactInputSingle tokenIn tokenOut fee amountInWei 0) w) as [r w1];
  cbn [fst] in Hnode; subst r;
  cbn [first_quotable asked]; unfold quoted; cbn [first_quotable];
  destruct (quoter fee) as [amountOut|err];
  cbn [Eff.bind run];
  match goal with
  | |- context [node ?e w1] => destruct (node e w1) as [? ?]
  | _ => idtac
  end.

Lemma quoter_app (tiers : list Z) (w : W) :
  let o := run node (AppV1.getBestQuote_loop tokenIn tokenOut amountInWei tiers) w in
  returned o = quoted quoter tiers "No valid liquidity pool found."
  /\ quote_answers (trace o) = asked quoter tiers.
Proof.
  revert w. induction tiers as [|fee tiers IH]; intro w; [split; reflexivity|].
  cbn [AppV1.getBestQuote_loop Eff.bind trigger run log log_error].
  quoter_step fee w.
  - split; reflexivity.
  - destruct (IH w1) as [Hreturned Hasked].
    cbn [returned trace quote_answers quote_answer].
    rewrite Hreturned, Hasked. split; reflexivity.
Qed.

Lemma quoter_v2 (tiers : list Z) (w : W) :
  let o := run node (AppV2.getBestQuote_loop tokenIn tokenOut amountInWei tiers) w in
  returned o = quoted quoter tiers "No valid liquidity pool found."
  /\ quote_answers (trace o) = asked quoter tiers.
Proof.
  revert w. induction tiers as [|fee tiers IH]; intro w; [split; reflexivity|].
  cbn [AppV2.getBestQuote_loop Eff.bind trigger run log log_error].
  quoter_step fee w.
  - split; reflexivity.
  - destruct (IH w1) as [Hreturned Hasked].
    cbn [returned trace quote_answers quote_answer].
    rewrite Hreturned, Hasked. split; reflexivity.
Qed.

Lemma quoter_v3 (tiers : list Z) (w : W) :
  let o := run node (AppV3.getBestQuote_loop tokenIn tokenOut amountInWei tiers) w in
  returned o = quoted quoter tiers "No valid liquidity pool found for the specified tokens."
  /\ quote_answers (trace o) = asked quoter tiers.
Proof.
  revert w. induction tiers as [|fee tiers IH]; intro w; [split; reflexivity|].
  cbn [AppV3.getBestQuote_loop Eff.bind trigger run log log_error].
  quoter_step fee w.
  - split; reflexivity.
  - destruct (IH w1) as [Hreturned Hasked].
    cbn [returned trace quote_answers quote_answer].
    rewrite Hreturned, Hasked. split; reflexivity.
Qed.

Lemma quoter_script (tiers : list Z) (w : W) :
  let o := run node (SwapFromMapping.getBestQuote_loop tokenIn tokenOut amountInWei tiers) w in
  returned o = quoted quoter tiers "No valid pools available for this token pair."
  /\ quote_answers (trace o) = asked quoter tiers.
Proof.
  revert w. induction tiers as [|fee tiers IH]; intro w; [split; reflexivity|].
  cbn [SwapFromMapping.getBestQuote_loop Eff.bind trigger run log log_error].
  quoter_step fee w.
  - split; reflexivity.
  - destruct (IH w1) as [Hreturned Hasked].
    cbn [returned trace quote_answers quote_answer].
    rewrite Hreturned, Hasked. split; reflexivity.
Qed.

End Quoter.

(** X20. With a quoter that answers by the fee tier alone, each of the four
    [getBestQuote] returns the first tier of its list that the quoter can
    quote, with the quoted amount, and throws its no-liquidity error when
    there is none; it asks the quoter for every tier up to that one, in
    order, and for none after it. *)
Theorem getBestQuote_of_quoter (W : Type) (node : forall X, rpcE X -> W -> X * W) (w : W)
        (tokenIn tokenOut : jsstring) (amountInWei : Z) (quoter : Z -> result Z)
        (tiers : list Z)
        (Hquoter : forall fee w',
            fst (node _ (QuoteExactInputSingle tokenIn tokenOut fee amountInWei 0) w')
            = quoter fee) :
  let agrees (loop : jsstring -> jsstring -> Z -> list Z -> program (result quote))
             (exhausted : string) :=
    let o := run node (loop tokenIn tokenOut amountInWei tiers) w in
    returned o = quoted quoter tiers exhausted
    /\ quote_answers (trace o) = asked quoter tiers in
  agrees AppV1.getBestQuote_loop "No valid liquidity pool found."%string
  /\ agrees AppV2.getBestQuote_loop "No valid liquidity pool found."%string
  /\ agrees AppV3.getBestQuote_loop
       "No valid liquidity pool found for the specified tokens."%string
  /\ agrees SwapFromMapping.getBestQuote_loop
       "No valid pools available for this token pair."%string.
Proof.
  cbv zeta. repeat split.
  - apply (quoter_app node tokenIn tokenOut amountInWei quoter Hquoter tiers w).
  - apply (quoter_app node tokenIn tokenOut amountInWei quoter Hquoter tiers w).
  - apply (quoter_v2 node tokenIn tokenOut amountInWei quoter Hquoter tiers w).
  - apply (quoter_v2 node tokenIn tokenOut amountInWei quoter Hquoter tiers w).
  - apply (quoter_v3 node tokenIn tokenOut amountInWei quoter Hquoter tiers w).
  - apply (quoter_v3 node tokenIn tokenOut amountInWei quoter Hquoter tiers w).
  - apply (quoter_script node tokenIn tokenOut amountInWei quoter Hquoter tiers w).
  - apply (quoter_script node tokenIn tokenOut amountInWei quoter Hquoter tiers w).
Qed.

Lemma getBestQuote_of_quoter_witness :
  let o := run (tier_3000_node 0)
               (AppV3.getBestQuote_loop (str "0xA") (str "0xB") 7 AppV3.feeTiers) 0 in
  returned o = Ok (mkQuote 3000 14)
  /\ quote_answers (trace o) = [(500%Z, rejected); (3000%Z, Ok 14%Z)].
Proof.
  exact (proj1 (proj2 (proj2
           (@getBestQuote_of_quoter nat (tier_3000_node 0) 0%nat (str "0xA") (str "0xB") 7
              (only_tier_3000 7) AppV3.feeTiers (fun fee w' => eq_refl))))).
Defined.

(** X21. Each of the four [getBestQuote] only reads: on every node, every
    event of a run is a printed line or a quote call for the given pair
    and amount, with no price limit, at a fee tier of the list; at most
    one quote is asked per tier. *)
Theorem getBestQuote_only_reads (W : Type) (node : forall X, rpcE X -> W -> X * W) (w : W)
        (tokenIn tokenOut : jsstring) (amountInWei : Z) (tiers : list Z) :
  let reads (loop : jsstring -> jsstring -> Z -> list Z -> program (result quote)) :=
    let tr := trace (run node (loop tokenIn tokenOut amountInWei tiers) w) in
    Forall (reads_quote tokenIn tokenOut amountInWei tiers) tr
    /\ length (quote_answers tr) <= length tiers in
  reads AppV1.getBestQuote_loop /\ reads AppV2.getBestQuote_loop
  /\ reads AppV3.getBestQuote_loop /\ reads SwapFromMapping.getBestQuote_loop.
Proof.
  cbv zeta.
  assert (Hbound : forall (o : outcome W (result quote)) log_of,
             quote_selection log_of tiers o ->
             length (quote_answers (trace o)) <= length tiers).
  { intros o log_of (_ & _ & Hsel). destruct (returned o) as [q|e].
    - apply first_success_length with q. exact Hsel.
    - destruct Hsel as [_ Hall]. rewrite (all_failed_length Hall). apply Nat.le_refl. }
  repeat split.
  - apply getBestQuote_app_reads.
  - apply Hbound with log_of_answer_app, getBestQuote_app_selection.
  - apply getBestQuote_v2_reads.
  - apply Hbound with log_of_answer_v2, getBestQuote_v2_selection.
  - apply getBestQuote_v3_reads.
  - apply Hbound with log_of_answer_v2, getBestQuote_v3_selection.
  - apply getBestQuote_script_reads.
  - apply Hbound with log_of_answer_script, getBestQuote_script_selection.
Qed.

(** X22. First success and exhaustion in the two later services: on every
    node, [getBestQuote] of the second app.js and of the service of
    d_swap_from_mapping.js asks the tiers in order, returns the first one
    whose quote call succeeds with the amount of that call, and throws its
    no-liquidity error exactly when every tier failed; it prints the
    output of the tier that succeeded and the error of each that failed. *)
Theorem getBestQuote_service_selection (W : Type) (node : forall X, rpcE X -> W -> X * W)
        (w : W) (tokenIn tokenOut : jsstring) (amountInWei : Z) (tiers : list Z) :
  let selects (loop : jsstring -> jsstring -> Z -> list Z -> program (result quote)) :=
    let o := run node (loop tokenIn tokenOut amountInWei tiers) w in
    let answers := quote_answers (trace o) in
    match returned o with
    | Ok q => first_success tiers answers q /\ ~ all_failed tiers answers
    | Err e => kind e = NoLiquidityAvailable /\ all_failed tiers answers
    end
    /\ console_lines (trace o) = flat_map log_of_answer_v2 answers in
  selects AppV2.getBestQuote_loop /\ selects AppV3.getBestQuote_loop.
Proof.
  cbv zeta.
  assert (Hview : forall (o : outcome W (result quote)),
             quote_selection log_of_answer_v2 tiers o ->
             match returned o with
             | Ok q => first_success tiers (quote_answers (trace o)) q
                       /\ ~ all_failed tiers (quote_answers (trace o))
             | Err e => kind e = NoLiquidityAvailable
                        /\ all_failed tiers (quote_answers (trace o))
             end
             /\ console_lines (trace o) = flat_map log_of_answer_v2 (quote_answers (trace o))).
  { intros o (Hlog & _ & Hsel). split; [|exact Hlog].
    destruct (returned o) as [q|e].
    - split; [exact Hsel|]. intro Hall.
      exact (first_success_not_all_failed Hsel (all_failed_forall Hall)).
    - destruct Hsel as [He Hall]. split; [rewrite He; reflexivity|exact Hall]. }
  split; apply Hview.
  - apply getBestQuote_v2_selection.
  - apply getBestQuote_v3_selection.
Qed.

(** ** POST /quote, all three services *)

Section QuoteEndpoints.

Variable W : Type.
Variable node : forall X, rpcE X -> W -> X * W.

Lemma reads_quote_quotes_or_prints (tokenIn tokenOut : jsstring) (amountIn : Z)
      (tiers : list Z) (tr : list event) :
  Forall (reads_quote tokenIn tokenOut amountIn tiers) tr -> Forall quotes_or_prints tr.
Proof.
  apply Forall_impl. intros [X e x] H. destruct e; try exact H.
  destruct H as (_ & _ & _ & _ & H). exact H.
Qed.

(** A quote, caught and reported. *)
Lemma quoted_and_reported (g : program (result quote)) (tokenIn tokenOut : jsstring)
      (amountIn : Z) (tiers : list Z) (log_of : Z * result Z -> list (stream * jsstring))
      (w : W) :
  quote_selection log_of tiers (run node g w) ->
  Forall (reads_quote tokenIn tokenOut amountIn tiers) (trace (run node g w)) ->
  quote_account tiers
    (run node
       (try_catch
          (q <-! g ;;
           Ret (Ok (mkResponse 200 (QuoteBody (quote_fee q)
                                      (Units.formatUnits (quote_amountOut q) 18)))))
          (fun error =>
             _ <- log_error (message error) ;;
             Ret (mkResponse 500 (ErrorBody (message error))))) w).
Proof.
  intros (_ & _ & Hsel) Hreads.
  apply reads_quote_quotes_or_prints in Hreads.
  unfold quote_account, try_catch, bind_throw. rewrite !run_bind. cbv zeta.
  destruct (run node g w) as [[q|e] w1 tr]; cbn [returned world trace] in *.
  - cbn. rewrite !app_nil_r. split; [exact Hreads|]. split; [reflexivity|].
    exists (quote_amountOut q). destruct q. split; [exact Hsel|reflexivity].
  - cbn [run Eff.bind trigger log_error returned world trace].
    destruct (node (Console Stderr (message e)) w1) as [u w2].
    cbn [returned trace body status app]. rewrite app_nil_r.
    rewrite quote_answers_app. cbn [quote_answers quote_answer]. rewrite app_nil_r.
    split; [apply Forall_app; split; [exact Hreads|repeat constructor]|].
    split; [now right|].
    apply all_failed_forall with tiers. apply Hsel.
Qed.

Lemma failed_and_reported (A : Type) (e : error) (k : A -> program (result response))
      (tiers : list Z) (w : W) :
  quote_account tiers
    (run node
       (try_catch (a <-! Ret (Err e) ;; k a)
          (fun error =>
             _ <- log_error (message error) ;;
             Ret (mkResponse 500 (ErrorBody (message error))))) w).
Proof.
  unfold quote_account, try_catch, bind_throw.
  cbn [run Eff.bind trigger log_error].
  destruct (node (Console Stderr (message e)) w) as [u w1].
  cbn. split; [repeat constructor|]. split; [now right|constructor].
Qed.

Lemma missing_parameters_account (tiers : list Z) (w : W) :
  quote_account tiers
    (run node
       (Ret (mkResponse 400 (ErrorBody (str "Missing required parameters in request body"))))
       w).
Proof. cbn. split; [constructor|]. split; [now left|constructor]. Qed.

End QuoteEndpoints.

(** X23. POST /quote, in each of the three services and on every node, only
    asks the quoter and prints: it makes no wallet, reads no balance or
    allowance, approves and swaps nothing.  It answers 200 with a quote
    body exactly when a fee tier could be quoted, and the body carries the
    first such tier and its amount as a decimal string; every other answer
    is an error body with status 400 or 500. *)
Theorem post_quote_only_quotes (W : Type) (node : forall X, rpcE X -> W -> X * W) (w : W)
        (tokenMap : token_map) (req : request) :
  quote_account AppV1.feeTiers (run node (AppV1.post_quote tokenMap req) w)
  /\ quote_account AppV2.feeTiers (run node (AppV2.post_quote tokenMap req) w)
  /\ quote_account AppV3.feeTiers (run node (AppV3.post_quote req) w).
Proof.
  split; [|split].
  - unfold AppV1.post_quote.
    destruct (missing_parameters req); [apply missing_parameters_account|].
    unfold AppV1.quote_try.
    destruct (AppV1.findTokenAddress_of tokenMap (Http.tokenIn req)) as [tokenInAddress|e];
      [|apply failed_and_reported].
    destruct (AppV1.findTokenAddress_of tokenMap (Http.tokenOut req)) as [tokenOutAddress|e];
      [|apply failed_and_reported].
    destruct (Json.parseEther (Http.amountIn req)) as [amountInWei|e];
      [|apply failed_and_reported].
    apply quoted_and_reported
      with tokenInAddress tokenOutAddress amountInWei log_of_answer_app.
    + apply getBestQuote_app_selection.
    + apply getBestQuote_app_reads.
  - unfold AppV2.post_quote.
    destruct (missing_parameters req); [apply missing_parameters_account|].
    unfold AppV2.quote_try.
    destruct (AppV2.findTokenAddress_of tokenMap (Http.tokenIn req)) as [tokenInAddress|e];
      [|apply failed_and_reported].
    destruct (AppV2.findTokenAddress_of tokenMap (Http.tokenOut req)) as [tokenOutAddress|e];
      [|apply failed_and_reported].
    destruct (Json.parseEther (Http.amountIn req)) as [amountInWei|e];
      [|apply failed_and_reported].
    apply quoted_and_reported
      with tokenInAddress tokenOutAddress amountInWei log_of_answer_v2.
    + apply getBestQuote_v2_selection.
    + apply getBestQuote_v2_reads.
  - unfold AppV3.post_quote.
    destruct (missing_parameters req); [apply missing_parameters_account|].
    unfold AppV3.quote_try.
    destruct (AppV3.findTokenAddress_of (Http.tokenIn req)) as [tokenInAddress|e];
      [|apply failed_and_reported].
    destruct (AppV3.findTokenAddress_of (Http.tokenOut req)) as [tokenOutAddress|e];
      [|apply failed_and_reported].
    destruct (Json.parseEther (Http.amountIn req)) as [amountInWei|e];
      [|apply failed_and_reported].
    apply quoted_and_reported
      with tokenInAddress tokenOutAddress amountInWei log_of_answer_v2.
    + apply getBestQuote_v3_selection.
    + apply getBestQuote_v3_reads.
Qed.

Example address_post_quote_success :
  returned (run (tier_3000_node 0) (AppV3.post_quote address_request) 0)
  = mkResponse 200 (QuoteBody 3000 (str "2.0")).
Proof. vm_compute. reflexivity. Qed.

(** ** Token resolution with the "eth" special case *)

(** X24. [findTokenAddress] of the second app.js: a string that reads "eth",
    in any case, resolves to the WETH address whatever the mapping file
    holds, even an entry named or symbolled "eth"; any other string
    resolves to the key of the first entry whose name or symbol equals it
    case-insensitively, and throws "Token not found" when there is none.
    Two strings that differ only in case resolve alike. *)
Theorem findTokenAddress_eth_shadows_mapping (tokenMap : token_map) (s t : jsstring) :
  match AppV2.findTokenAddress tokenMap s with
  | Ok address =>
      if Js.eqb (toLowerCase s) (str "eth") then address = WETH_ADDRESS
      else first_match tokenMap s address
  | Err e =>
      toLowerCase s <> str "eth"
      /\ no_match tokenMap s
      /\ e = mkError TokenNotFound (str "Token not found: " ++ s)
  end
  /\ (toLowerCase s = toLowerCase t ->
      match AppV2.findTokenAddress tokenMap s, AppV2.findTokenAddress tokenMap t with
      | Ok a, Ok b => a = b
      | Err _, Err _ => True
      | _, _ => False
      end).
Proof.
  unfold AppV2.findTokenAddress. cbv zeta. split.
  - destruct (Js.eqb (toLowerCase s) (str "eth")) eqn:Heth; [reflexivity|].
    destruct (AppV1.find_entry (toLowerCase s) tokenMap) as [address|] eqn:Hfind.
    + apply find_entry_some. exact Hfind.
    + repeat split; [|apply find_entry_none; exact Hfind].
      intro Habs. rewrite Habs in Heth. discriminate Heth.
  - intros <-.
    destruct (Js.eqb (toLowerCase s) (str "eth")); [reflexivity|].
    destruct (AppV1.find_entry (toLowerCase s) tokenMap); [reflexivity|exact I].
Qed.

Lemma findTokenAddress_eth_shadows_mapping_witness :
  toLowerCase (str "Dai") = toLowerCase (str "DAI")
  /\ match AppV2.findTokenAddress sample_map (str "Dai"),
           AppV2.findTokenAddress sample_map (str "DAI") with
     | Ok a, Ok b => a = b
     | Err _, Err _ => True
     | _, _ => False
     end.
Proof.
  split; [reflexivity|].
  exact (proj2 (findTokenAddress_eth_shadows_mapping sample_map (str "Dai") (str "DAI"))
           eq_refl).
Defined.
